(** * AwaazAI audio pipeline: PCM decoding, OLA time-stretching, WAV encoding

    A shallow embedding of [utils/audioProcessing.ts] ([decodeBase64],
    [decodePCMToAudioBuffer], [audioBufferToWav], [processAudio],
    [timeStretch]) together with the properties its specification states,
    followed by the code around it: the prompts of
    [services/geminiService.ts], the voice table of [types.ts], and the
    voice filter, the tag insertion and the audio path of [App.tsx].

    Numeric model.  JavaScript numbers that are array lengths, indices and
    16/32-bit integers are [Z].  On the decode and encode path sample values
    are exact rationals [Q], which is what the doubles compute there:
    [s / 32768.0] and the products with [0x8000] and [0x7fff] are exact on
    the values they meet, as [quantize_decoded_ieee] checks against binary64
    arithmetic for every 16-bit sample.

    The Time-Stretch Engine and the Effect Orchestrator are embedded twice.
    [timeStretch] and [processAudio] over [Q] take every quotient, floor and
    sum at its exact value, without rounding and without [NaN] or
    infinities (a zero ratio is the exception of the buffer constructor
    there): an idealisation that serves the properties which no rounding
    can change, such as the fast path, the zero hop and the cells that no
    window reaches.  [FloatEngine.timeStretch] and
    [FloatEngine.processAudio] compute as the code does, in IEEE binary64
    with single-precision stores; the length law, the synthesis sums, the
    short outputs and the orchestration are stated over them.

    Loops that the source does not bound take fuel; [OutOfFuel] for every
    amount of fuel is non-termination.

    What belongs to the platform and is not computed here enters as a
    parameter: the trigonometry, the power function and the renderer
    ([Platform], [FloatEngine.Platform]), [atob], and
    the decimal rendering of a number in a template literal. *)

From stdpp Require Import base list strings.
From Stdlib Require Import ZArith QArith Qround Qabs Lia Lra Psatz Strings.Byte.
From Stdlib Require PrimFloat SpecFloat FloatOps FloatAxioms Uint63.

Local Open Scope Z_scope.

(** ** Outcomes of running a piece of the program *)

Inductive exn := RangeError | NotSupportedError.

Inductive outcome (A : Type) : Type :=
  | Returns (a : A)
  | Throws (e : exn)
  | OutOfFuel.
Arguments Returns {A} a.
Arguments Throws {A} e.
Arguments OutOfFuel {A}.

Definition obind {A B} (m : outcome A) (k : A -> outcome B) : outcome B :=
  match m with
  | Returns a => k a
  | Throws e => Throws e
  | OutOfFuel => OutOfFuel
  end.

#[global] Instance outcome_ret : MRet outcome := fun _ a => Returns a.
#[global] Instance outcome_bind : MBind outcome := fun _ _ k m => obind m k.

(** [for (let i = 0; i < n; i++) body] on a state [s]. *)
Definition zseq (n : Z) : list Z := Z.of_nat <$> seq 0 (Z.to_nat n).

Definition for_loop {St} (n : Z) (body : Z -> St -> St) (s : St) : St :=
  fold_left (fun acc i => body i acc) (zseq n) s.

(** ** Numbers *)

Module Num.

Definition ltb (a b : Q) : bool := negb (Qle_bool b a).

(** [Math.max] and [Math.min] on finite numbers. *)
Definition Math_max (a b : Q) : Q := if Qle_bool a b then b else a.
Definition Math_min (a b : Q) : Q := if Qle_bool a b then a else b.

(** Truncation toward zero, the first step of [ToInt32]. *)
Definition trunc (x : Q) : Z := Z.quot (Qnum x) (Z.pos (Qden x)).

(** Two's complement wrap-around of an integer to [w] bits. *)
Definition wrap_unsigned (w z : Z) : Z := z mod 2 ^ w.
Definition wrap_signed (w z : Z) : Z :=
  (z + 2 ^ (w - 1)) mod 2 ^ w - 2 ^ (w - 1).

Definition ToInt32 (x : Q) : Z := wrap_signed 32 (trunc x).

(** [x | 0]. *)
Definition bitor0 (x : Q) : Z := Z.lor (ToInt32 x) 0.

Definition byte_of_Z (z : Z) : byte :=
  match Byte.of_N (Z.to_N (z mod 256)) with
  | Some b => b
  | None => x00
  end.
Definition Z_of_byte (b : byte) : Z := Z.of_N (Byte.to_N b).

End Num.

(** ** Typed arrays

    A [Float32Array] is a list of samples.  A store outside the array is
    ignored, as in JavaScript.  A load outside the array is [undefined] in
    JavaScript; here it yields [0], and the results below use such a load
    only where its value cannot be observed. *)

Module TypedArray.

Definition get {A} (d : A) (a : list A) (i : Z) : A :=
  if i <? 0 then d else nth (Z.to_nat i) a d.

Definition set {A} (a : list A) (i : Z) (v : A) : list A :=
  if i <? 0 then a else <[Z.to_nat i := v]> a.

Definition new_Float32Array (n : Z) : list Q := replicate (Z.to_nat n) 0%Q.

(** Little-endian signed 16-bit element. *)
Definition int16_of_le (lo hi : byte) : Z :=
  Num.wrap_signed 16 (Num.Z_of_byte lo + 256 * Num.Z_of_byte hi).

Fixpoint Int16Array_elems (bs : list byte) : list Z :=
  match bs with
  | lo :: hi :: rest => int16_of_le lo hi :: Int16Array_elems rest
  | _ => []
  end.

(** [new Int16Array(buffer)]: a [RangeError] when the byte length is odd. *)
Definition new_Int16Array (bs : list byte) : outcome (list Z) :=
  if Z.even (Z.of_nat (length bs)) then Returns (Int16Array_elems bs)
  else Throws RangeError.

End TypedArray.

(** ** AudioBuffer *)

Record AudioBuffer := mkAudioBuffer {
    ab_length : Z;
    sampleRate : Z;
    channelData : list (list Q)
  }.

Definition numberOfChannels (b : AudioBuffer) : Z :=
  Z.of_nat (length (channelData b)).

Definition getChannelData (b : AudioBuffer) (c : Z) : list Q :=
  TypedArray.get [] (channelData b) c.

(** The data model's invariant: at least one channel, every channel holding
    exactly [ab_length] samples. *)
Definition wf_buffer (b : AudioBuffer) : Prop :=
  0 <= ab_length b /\ 1 <= numberOfChannels b /\
  Forall (fun c => Z.of_nat (length c) = ab_length b) (channelData b).

(** The constructor shared by [ctx.createBuffer] and [new AudioBuffer]:
    the frame count is converted to an unsigned integer (fraction dropped);
    zero channels or zero frames are a [NotSupportedError]. *)
Definition new_AudioBuffer (numChannels : Z) (len : Q) (rate : Z)
  : outcome AudioBuffer :=
  let n := Num.trunc len in
  if (numChannels <? 1) || (n <? 1) then Throws NotSupportedError
  else Returns {| ab_length := n; sampleRate := rate;
                  channelData := replicate (Z.to_nat numChannels)
                                           (TypedArray.new_Float32Array n) |}.

(** A platform also refuses, with a [NotSupportedError] of its own, a
    sample rate or a channel count outside what it supports, which the
    constructor above does not look at.  Every platform supports rates from
    8000 to 96000 Hz and up to 32 channels; what is stated about buffers
    created from a rate and a channel count given by the caller is stated
    within this range. *)
Definition createBuffer_supported (numChannels rate : Z) : Prop :=
  numChannels <= 32 /\ 8000 <= rate <= 96000.

(** ** PCM Frame Interpreter *)

Definition decode_channel (dataInt16 : list Z) (numChannels : Z)
    (frameCount : Q) (channel : Z) (channelData : list Q) : list Q :=
  for_loop (Qceiling frameCount)
    (fun i cd =>
       TypedArray.set cd i
         (inject_Z (TypedArray.get 0%Z dataInt16 (i * numChannels + channel))
          / 32768%Q)%Q)
    channelData.

Definition decodePCMToAudioBuffer (data : list byte) (rate : Z)
    (numChannels : Z) : outcome AudioBuffer :=
  dataInt16 ← TypedArray.new_Int16Array data;
  let frameCount := (inject_Z (Z.of_nat (length dataInt16))
                     / inject_Z numChannels)%Q in
  buffer ← new_AudioBuffer numChannels frameCount rate;
  Returns {| ab_length := ab_length buffer; sampleRate := sampleRate buffer;
             channelData :=
               for_loop numChannels
                 (fun channel chans =>
                    TypedArray.set chans channel
                      (decode_channel dataInt16 numChannels frameCount channel
                         (TypedArray.get [] chans channel)))
                 (channelData buffer) |}.

(** ** Container Encoder *)

Module Wav.

(** The [DataView] over the output bytes and the cursor [pos] that the
    closures [setUint16] and [setUint32] share. *)
Record writer := mkWriter { view : list byte; pos : Z }.

Definition le_bytes (n : nat) (u : Z) : list byte :=
  (fun k => Num.byte_of_Z (u / 256 ^ Z.of_nat k)) <$> seq 0 n.

(** A [DataView] store of the bytes [bs] at [offset]; a [RangeError]
    when they do not fit. *)
Definition view_store (v : list byte) (offset : Z) (bs : list byte)
  : outcome (list byte) :=
  if (offset <? 0) || (Z.of_nat (length v) <? offset + Z.of_nat (length bs))
  then Throws RangeError
  else Returns (take (Z.to_nat offset) v ++ bs ++
                drop (Z.to_nat offset + length bs) v).

Definition DataView_setUint16 (v : list byte) (offset data : Z) :=
  view_store v offset (le_bytes 2 (Num.wrap_unsigned 16 data)).
Definition DataView_setUint32 (v : list byte) (offset data : Z) :=
  view_store v offset (le_bytes 4 (Num.wrap_unsigned 32 data)).
Definition DataView_setInt16 (v : list byte) (offset data : Z) :=
  view_store v offset
    (le_bytes 2 (Num.wrap_unsigned 16 (Num.wrap_signed 16 data))).

Definition setUint16 (data : Z) (w : writer) : outcome writer :=
  v ← DataView_setUint16 (view w) (pos w) data;
  mret {| view := v; pos := pos w + 2 |}.

Definition setUint32 (data : Z) (w : writer) : outcome writer :=
  v ← DataView_setUint32 (view w) (pos w) data;
  mret {| view := v; pos := pos w + 4 |}.

Definition write_header (b : AudioBuffer) (numOfChan len : Z) (w : writer)
  : outcome writer :=
  w ← setUint32 0x46464952 w;
  w ← setUint32 (len - 8) w;
  w ← setUint32 0x45564157 w;
  w ← setUint32 0x20746d66 w;
  w ← setUint32 16 w;
  w ← setUint16 1 w;
  w ← setUint16 numOfChan w;
  w ← setUint32 (sampleRate b) w;
  w ← setUint32 (sampleRate b * 2 * numOfChan) w;
  w ← setUint16 (numOfChan * 2) w;
  w ← setUint16 16 w;
  w ← setUint32 0x61746164 w;
  setUint32 (len - pos w - 4) w.

(** Clamp, scale and [| 0]. *)
Definition quantize (x : Q) : Z :=
  let sample := Num.Math_max (-1) (Num.Math_min 1 x) in
  Num.bitor0 (if Num.ltb sample 0 then sample * 32768 else sample * 32767)%Q.

Definition write_sample (channels : list (list Q)) (offset i : Z)
    (w : writer) : outcome writer :=
  let sample :=
    quantize (TypedArray.get 0%Q (TypedArray.get [] channels i) offset) in
  v ← DataView_setInt16 (view w) (pos w) sample;
  mret {| view := v; pos := pos w + 2 |}.

Definition write_frame (channels : list (list Q)) (numOfChan offset : Z)
    (w : writer) : outcome writer :=
  for_loop numOfChan
    (fun i acc => w ← acc; write_sample channels offset i w) (mret w).

(** [while (pos < length) { for (...) {...} offset++ }]. *)
Fixpoint write_frames (fuel : nat) (channels : list (list Q))
    (numOfChan len offset : Z) (w : writer) : outcome writer :=
  match fuel with
  | O => OutOfFuel
  | S fuel' =>
      if pos w <? len then
        w ← write_frame channels numOfChan offset w;
        write_frames fuel' channels numOfChan len (offset + 1) w
      else mret w
  end.

Definition audioBufferToWav (fuel : nat) (b : AudioBuffer)
  : outcome (list byte) :=
  let numOfChan := numberOfChannels b in
  let len := ab_length b * numOfChan * 2 + 44 in
  let w := {| view := replicate (Z.to_nat len) x00; pos := 0 |} in
  w ← write_header b numOfChan len w;
  let channels :=
    for_loop (numberOfChannels b)
      (fun i chans => chans ++ [getChannelData b i]) [] in
  w ← write_frames fuel channels numOfChan len 0 w;
  mret (view w).

End Wav.

(** ** Time-Stretch Engine and Effect Orchestrator

    [Math.cos], [Math.PI], [Math.pow] and the rendering of an
    [OfflineAudioContext] belong to the platform; the engine is stated over
    any choice of them. *)

Class Platform := {
  Math_cos : Q -> Q;
  Math_PI : Q;
  Math_pow : Q -> Q -> Q;
  (** samples rendered for a source buffer played at a rate into a
      destination of the given channel count and frame count *)
  render : AudioBuffer -> Q -> Z -> Z -> list (list Q)
}.

Definition windowSize : Z := 1024.
Definition hopSize : Z := 512.

Section Engine.
Context `{Platform}.

(** The pre-generated Hann window. *)
Definition hann_window : list Q :=
  for_loop windowSize
    (fun i h =>
       TypedArray.set h i
         (0.5 * (1 - Math_cos ((2 * Math_PI * inject_Z i)
                               / inject_Z (windowSize - 1))))%Q)
    (TypedArray.new_Float32Array windowSize).

(** The inner [for (let j = 0; j < windowSize; j++)]. *)
Definition ola_window (hann input : list Q) (i inputIdx : Z)
    (ow : list Q * list Q) : list Q * list Q :=
  for_loop windowSize
    (fun j '(output, weights) =>
       (TypedArray.set output (i + j)
          (TypedArray.get 0 output (i + j)
           + TypedArray.get 0 input (inputIdx + j) * TypedArray.get 0 hann j),
        TypedArray.set weights (i + j)
          (TypedArray.get 0 weights (i + j) + TypedArray.get 0 hann j)))%Q
    ow.

(** [for (let i = 0; i < newLength - windowSize; i += outHopSize)], one
    unit of fuel per evaluation of the loop condition. *)
Fixpoint ola_loop (fuel : nat) (ratio : Q) (hann input : list Q)
    (oldLength newLength outHopSize i : Z) (ow : list Q * list Q)
  : outcome (list Q * list Q) :=
  match fuel with
  | O => OutOfFuel
  | S fuel' =>
      if i <? newLength - windowSize then
        let inputIdx := Qfloor (inject_Z i * ratio) in
        if inputIdx + windowSize >? oldLength then mret ow
        else ola_loop fuel' ratio hann input oldLength newLength outHopSize
               (i + outHopSize) (ola_window hann input i inputIdx ow)
      else mret ow
  end.

(** The normalisation pass. *)
Definition normalize (newLength : Z) (weights output : list Q) : list Q :=
  for_loop newLength
    (fun i output =>
       if Num.ltb 0.01 (TypedArray.get 0%Q weights i)
       then TypedArray.set output i
              (TypedArray.get 0 output i / TypedArray.get 0 weights i)%Q
       else output)
    output.

(** The body of [for (let channel = 0; ...)] for one channel. *)
Definition stretch_channel (fuel : nat) (ratio : Q) (hann input : list Q)
    (oldLength newLength outHopSize : Z) (output : list Q)
  : outcome (list Q) :=
  let weights := TypedArray.new_Float32Array newLength in
  '(output, weights) ← ola_loop fuel ratio hann input oldLength newLength
                          outHopSize 0 (output, weights);
  mret (normalize newLength weights output).

Definition newLength_of (oldLength : Z) (ratio : Q) : Z :=
  Z.max 1 (Qfloor (inject_Z oldLength / ratio)).

Definition outHopSize_of (ratio : Q) : Z :=
  Qfloor (inject_Z hopSize / ratio).

(** A zero [ratio] makes [oldLength / ratio] infinite or [NaN], a length
    the [AudioBuffer] constructor rejects. *)
Definition timeStretch (fuel : nat) (buffer : AudioBuffer) (ratio : Q)
  : outcome AudioBuffer :=
  if Num.ltb (Qabs (ratio - 1)) 0.001 then mret buffer
  else
    let numChannels := numberOfChannels buffer in
    let oldLength := ab_length buffer in
    let newLength := newLength_of oldLength ratio in
    outBuffer ← (if Qeq_bool ratio 0 then Throws NotSupportedError
                 else new_AudioBuffer numChannels (inject_Z newLength)
                        (sampleRate buffer));
    let outHopSize := outHopSize_of ratio in
    let hann := hann_window in
    chans ← for_loop numChannels
              (fun channel acc =>
                 chans ← acc;
                 let input := getChannelData buffer channel in
                 output ← stretch_channel fuel ratio hann input oldLength
                            newLength outHopSize
                            (TypedArray.get [] chans channel);
                 mret (TypedArray.set chans channel output))
              (mret (channelData outBuffer));
    mret {| ab_length := ab_length outBuffer;
            sampleRate := sampleRate outBuffer;
            channelData := chans |}.

(** The rendered buffer has the shape given to the [OfflineAudioContext];
    its samples are the platform's. *)
Definition processAudio (fuel : nat) (buffer : AudioBuffer)
    (speed pitch : Q) : outcome AudioBuffer :=
  let pitchFactor := Math_pow 2 (pitch / 12) in
  let stretchRatio := (speed / pitchFactor)%Q in
  stretched ← timeStretch fuel buffer stretchRatio;
  let frames :=
    Z.max 1 (Qfloor (inject_Z (ab_length stretched) / pitchFactor)) in
  offlineCtx ← new_AudioBuffer (numberOfChannels stretched)
                 (inject_Z frames) (sampleRate stretched);
  mret {| ab_length := ab_length offlineCtx;
          sampleRate := sampleRate offlineCtx;
          channelData := render stretched pitchFactor
                           (numberOfChannels stretched) frames |}.

End Engine.

(** * The application around the pipeline

    [decodeBase64] of [utils/audioProcessing.ts], the prompts built by
    [services/geminiService.ts], the voice table of [types.ts] and the
    pure parts of [App.tsx]. *)

(** ** Strings

    A JavaScript string is the sequence of its UTF-16 code units. *)

Definition js_string := list Z.

(** A string literal of the source; all of them are ASCII. *)
Definition lit (s : string) : js_string :=
  (fun c => Z.of_N (Ascii.N_of_ascii c)) <$> String.list_ascii_of_string s.

(** [Boolean(s)]: only the empty string is falsy. *)
Definition Boolean (s : js_string) : bool :=
  match s with [] => false | _ => true end.

(** [Array.prototype.join]. *)
Fixpoint join (sep : js_string) (parts : list js_string) : js_string :=
  match parts with
  | [] => []
  | p :: rest =>
      match rest with
      | [] => p
      | _ => p ++ sep ++ join sep rest
      end
  end.

(** [s.charCodeAt(i)], used inside the string only. *)
Definition charCodeAt (s : js_string) (i : Z) : Z := TypedArray.get 0 s i.

(** ** Base64 payload *)

Definition new_Uint8Array (n : Z) : list byte := replicate (Z.to_nat n) x00.

Section Base64.

(** [atob] is the platform's: the binary string, or [None] where it raises
    [InvalidCharacterError]. *)
Variable atob : js_string -> option js_string.

Definition decodeBase64 (base64 : js_string) : option (list byte) :=
  binaryString ← atob base64;
  let len := Z.of_nat (length binaryString) in
  let bytes := new_Uint8Array len in
  Some (for_loop len
          (fun i bytes =>
             TypedArray.set bytes i (Num.byte_of_Z (charCodeAt binaryString i)))
          bytes).

End Base64.

(** ** Prompt construction of the speech service *)

Module generateTTSAudio.
Section Prompt.

(** [Number::toString], as the template literal applies it to [speed]. *)
Variable Number_toString : Q -> js_string.

Definition speedText (speed : Q) : js_string :=
  if Qeq_bool speed 1 then lit ""
  else lit "at " ++ Number_toString speed ++ lit "x speed".

Definition pitchText (pitch : Q) : js_string :=
  if Num.ltb 2 pitch then lit "with a very high pitch"
  else if Num.ltb 0 pitch then lit "with a high pitch"
  else if Num.ltb pitch (-2) then lit "with a very deep voice"
  else if Num.ltb pitch 0 then lit "with a deep voice"
  else lit "".

Definition instructionParts (style : js_string) (speed pitch : Q)
  : list js_string :=
  List.filter Boolean [speedText speed; pitchText pitch; style].

Definition instruction (style : js_string) (speed pitch : Q) : js_string :=
  let instructionParts := instructionParts style speed pitch in
  if 0 <? Z.of_nat (length instructionParts)
  then lit "(Instruction: Speak " ++ join (lit ", ") instructionParts
       ++ lit ") "
  else lit "".

Definition prompt (text style : js_string) (speed pitch : Q) : js_string :=
  instruction style speed pitch ++ text.

End Prompt.
End generateTTSAudio.

Module generateMultiTTSAudio.
Section Prompt.

Variable Number_toString : Q -> js_string.

Definition speedText (speed : Q) : js_string :=
  if Qeq_bool speed 1 then lit ""
  else lit "at " ++ Number_toString speed ++ lit "x speed".

Definition pitchText (pitch : Q) : js_string :=
  if Num.ltb 0 pitch then lit "with higher pitch"
  else if Num.ltb pitch 0 then lit "with deeper pitch"
  else lit "".

Definition instruction (speed pitch : Q) : js_string :=
  if Boolean (speedText speed) || Boolean (pitchText pitch)
  then lit "(Global Instruction: Speak "
       ++ join (lit " and ")
            (List.filter Boolean [speedText speed; pitchText pitch])
       ++ lit ")" ++ [10; 10]
  else lit "".

Definition prompt (dialogue : js_string) (speed pitch : Q) : js_string :=
  instruction speed pitch ++ dialogue.

End Prompt.
End generateMultiTTSAudio.

(** ** Voices *)

Inductive Voice :=
  | ACHERNAR | ACHIRD | ALGENIB | ALGIEBA | ALNILAM | AOEDE | AUTONOE
  | CALLIRRHOE | CHARON | DESPINA | ENCELADUS | ERINOME | FENRIR | GACRUX
  | IAPETUS | KORE | LAOMEDEIA | LEDA | ORUS | PULCHERRIMA | PUCK
  | RASALGETHI | SADACHBIA | SADALTAGER | SCHEDAR | SULAFAT | UMBRIEL
  | VINDEMIATRIX | ZEPHYR | ZUBENELGENUBI.

Inductive Gender := Male | Female.

(** ['All' | 'Male' | 'Female']. *)
Inductive GenderFilter := All | Only (g : Gender).

(** The string each member stands for. *)
Definition Voice_value (v : Voice) : js_string :=
  match v with
  | ACHERNAR => lit "Achernar"
  | ACHIRD => lit "Achird"
  | ALGENIB => lit "Algenib"
  | ALGIEBA => lit "Algieba"
  | ALNILAM => lit "Alnilam"
  | AOEDE => lit "Aoede"
  | AUTONOE => lit "Autonoe"
  | CALLIRRHOE => lit "Callirrhoe"
  | CHARON => lit "Charon"
  | DESPINA => lit "Despina"
  | ENCELADUS => lit "Enceladus"
  | ERINOME => lit "Erinome"
  | FENRIR => lit "Fenrir"
  | GACRUX => lit "Gacrux"
  | IAPETUS => lit "Iapetus"
  | KORE => lit "Kore"
  | LAOMEDEIA => lit "Laomedeia"
  | LEDA => lit "Leda"
  | ORUS => lit "Orus"
  | PULCHERRIMA => lit "Pulcherrima"
  | PUCK => lit "Puck"
  | RASALGETHI => lit "Rasalgethi"
  | SADACHBIA => lit "SadACHBIA"
  | SADALTAGER => lit "Sadaltager"
  | SCHEDAR => lit "Schedar"
  | SULAFAT => lit "Sulafat"
  | UMBRIEL => lit "Umbriel"
  | VINDEMIATRIX => lit "Vindemiatrix"
  | ZEPHYR => lit "Zephyr"
  | ZUBENELGENUBI => lit "Zubenelgenubi"
  end.

Definition Gender_eqb (a b : Gender) : bool :=
  match a, b with
  | Male, Male | Female, Female => true
  | _, _ => false
  end.

(** [===] on strings. *)
Definition strict_equal (a b : js_string) : bool := bool_decide (a = b).

(** [Object.values(Voice)]: the members in declaration order. *)
Definition Object_values_Voice : list Voice :=
  [ACHERNAR; ACHIRD; ALGENIB; ALGIEBA; ALNILAM; AOEDE; AUTONOE; CALLIRRHOE;
   CHARON; DESPINA; ENCELADUS; ERINOME; FENRIR; GACRUX; IAPETUS; KORE;
   LAOMEDEIA; LEDA; ORUS; PULCHERRIMA; PUCK; RASALGETHI; SADACHBIA;
   SADALTAGER; SCHEDAR; SULAFAT; UMBRIEL; VINDEMIATRIX; ZEPHYR;
   ZUBENELGENUBI].

Definition VOICE_DETAILS (v : Voice) : Gender :=
  match v with
  | ACHERNAR => Female
  | ACHIRD => Male
  | ALGENIB => Male
  | ALGIEBA => Male
  | ALNILAM => Male
  | AOEDE => Female
  | AUTONOE => Female
  | CALLIRRHOE => Female
  | CHARON => Male
  | DESPINA => Female
  | ENCELADUS => Male
  | ERINOME => Female
  | FENRIR => Male
  | GACRUX => Female
  | IAPETUS => Male
  | KORE => Female
  | LAOMEDEIA => Female
  | LEDA => Female
  | ORUS => Male
  | PULCHERRIMA => Female
  | PUCK => Male
  | RASALGETHI => Male
  | SADACHBIA => Male
  | SADALTAGER => Male
  | SCHEDAR => Male
  | SULAFAT => Female
  | UMBRIEL => Male
  | VINDEMIATRIX => Female
  | ZEPHYR => Female
  | ZUBENELGENUBI => Male
  end.

(** ** Application state *)

Definition filteredVoices (genderFilter : GenderFilter) : list Voice :=
  List.filter
    (fun v =>
       match genderFilter with
       | All => true
       | Only g => Gender_eqb (VOICE_DETAILS v) g
       end)
    Object_values_Voice.

(** The effect that keeps the selected voice valid for the filter; the
    result is the selected voice after it has run. *)
Definition ensure_valid_voice (genderFilter : GenderFilter)
    (selectedVoice : Voice) : Voice :=
  let filteredVoices := filteredVoices genderFilter in
  let isCurrentVoiceValid :=
    existsb (fun v => strict_equal (Voice_value v) (Voice_value selectedVoice))
      filteredVoices in
  if negb isCurrentVoiceValid then
    match filteredVoices with
    | v :: _ => v
    | [] => selectedVoice
    end
  else selectedVoice.

(** The state update of [handleInsertTag]. *)
Definition handleInsertTag (tag prev : js_string) : js_string :=
  prev ++ (if negb (Z.of_nat (length prev) =? 0) then lit " " else lit "")
  ++ tag ++ lit " ".

Section Generate.
Variable atob : js_string -> option js_string.


End Generate.

(** * Reference definitions

    What the code is compared with: the file layout of the encoder, the
    closed forms of the decoder and of the overlap-add sums, the formulas of
    the specification where they differ from the code, and the inputs of the
    concrete runs. *)

(** ** WAV layout *)

Module WavLayout.
Import Wav.

Definition u16 (z : Z) : list byte := le_bytes 2 (Num.wrap_unsigned 16 z).

Definition u32 (z : Z) : list byte := le_bytes 4 (Num.wrap_unsigned 32 z).

(** The 44 header bytes as the file format lays them out. *)
Definition header_bytes (numOfChan rate len : Z) : list byte :=
  u32 0x46464952 ++ u32 (len - 8) ++ u32 0x45564157 ++
  u32 0x20746d66 ++ u32 16 ++ u16 1 ++ u16 numOfChan ++ u32 rate ++
  u32 (rate * 2 * numOfChan) ++ u16 (numOfChan * 2) ++ u16 16 ++
  u32 0x61746164 ++ u32 (len - 44).

Definition sample_bytes (x : Q) : list byte :=
  le_bytes 2 (Num.wrap_unsigned 16 (Num.wrap_signed 16 (quantize x))).

Definition frame_bytes (channels : list (list Q)) (offset : Z) : list byte :=
  concat ((fun c => sample_bytes (TypedArray.get 0%Q c offset)) <$> channels).

Definition data_bytes (channels : list (list Q)) (frames : Z) : list byte :=
  concat (frame_bytes channels <$> zseq frames).

(** A writer that has produced [pre] and has [rest] zero bytes left. *)
Definition wstate (pre : list byte) (rest : nat) : writer :=
  {| view := pre ++ replicate rest x00; pos := Z.of_nat (length pre) |}.

(** The frames written from [offset] on, [k] of them. *)
Definition frames_from (channels : list (list Q)) (offset : Z) (k : nat)
  : list byte :=
  concat ((fun j => frame_bytes channels (offset + Z.of_nat j)) <$> seq 0 k).

(** The unsigned value of a little-endian byte group. *)
Definition le_value (bs : list byte) : Z :=
  foldr (fun b acc => Num.Z_of_byte b + 256 * acc) 0 bs.

End WavLayout.

(** ** Quantisation *)

(** The integer the encoder stores, as a truncation toward zero. *)
Definition truncated (x : Q) : Z :=
  let c := Num.Math_max (-1) (Num.Math_min 1 x) in
  if Num.ltb c 0 then Qceiling (c * 32768) else Qfloor (c * 32767).

(** The claim's formula: the scaled sample rounded to the nearest integer
    ([Math.round]: halves go up). *)
Definition round_nearest (y : Q) : Z := Qfloor (y + (1 # 2)).

Definition quantize_rounding (x : Q) : Z :=
  let c := Num.Math_max (-1) (Num.Math_min 1 x) in
  if Num.ltb c 0 then round_nearest (c * 32768)
  else round_nearest (c * 32767).

(** What a 16-bit sample becomes after the Interpreter and the Encoder. *)
Definition requantized (s : Z) : Z := if 0 <? s then s - 1 else s.

(** ** The sample path in IEEE binary64

    The decoder's division and the encoder's clamp, scaling and [| 0] once
    more, on double-precision numbers with the store into the
    [Float32Array] in between: the yardstick for the rational model on the
    values a decoded buffer holds. *)

Module Ieee.

Definition of_Z (z : Z) : PrimFloat.float :=
  if z <? 0 then PrimFloat.opp (PrimFloat.of_uint63 (Uint63.of_Z (- z)))
  else PrimFloat.of_uint63 (Uint63.of_Z z).

(** Rounding to binary32, as a store into a [Float32Array] does. *)
Definition fround (x : PrimFloat.float) : PrimFloat.float :=
  match FloatOps.Prim2SF x with
  | SpecFloat.S754_finite s m e =>
      FloatOps.SF2Prim
        (SpecFloat.binary_normalize 24 128 (SpecFloat.cond_Zopp s (Z.pos m))
           e s)
  | _ => x
  end.

(** [ToInt32] on a finite number of small magnitude: truncation. *)
Definition trunc (x : PrimFloat.float) : Z :=
  match FloatOps.Prim2SF x with
  | SpecFloat.S754_finite s m e =>
      let a := if 0 <=? e then Z.pos m * 2 ^ e else Z.pos m / 2 ^ (- e) in
      if s then - a else a
  | _ => 0
  end.

Definition Math_max (a b : PrimFloat.float) : PrimFloat.float :=
  if PrimFloat.ltb a b then b else a.
Definition Math_min (a b : PrimFloat.float) : PrimFloat.float :=
  if PrimFloat.ltb a b then a else b.

(** [channelData[i] = dataInt16[...] / 32768.0]. *)
Definition decode_sample (s : Z) : PrimFloat.float :=
  fround (PrimFloat.div (of_Z s) (of_Z 32768)).

Definition quantize (x : PrimFloat.float) : Z :=
  let sample := Math_max (of_Z (-1)) (Math_min (of_Z 1) x) in
  trunc (if PrimFloat.ltb sample (of_Z 0)
         then PrimFloat.mul sample (of_Z 32768)
         else PrimFloat.mul sample (of_Z 32767)).

(** [P] on the [2 ^ n] integers from [lo] on. *)
Fixpoint holds_on_block (n : nat) (lo : Z) (P : Z -> bool) : bool :=
  match n with
  | O => P lo
  | S n' =>
      holds_on_block n' lo P && holds_on_block n' (lo + 2 ^ Z.of_nat n') P
  end.

End Ieee.

(** ** Decoded buffers *)

(** The sample the Interpreter stores for frame [i] of channel [c]. *)
Definition decoded_sample (dataInt16 : list Z) (numChannels c i : Z) : Q :=
  (inject_Z (TypedArray.get 0%Z dataInt16 (i * numChannels + c)) / 32768)%Q.

Definition decoded_buffer (dataInt16 : list Z) (rate numChannels : Z)
  : AudioBuffer :=
  let frames := Z.of_nat (length dataInt16) / numChannels in
  {| ab_length := frames; sampleRate := rate;
     channelData :=
       (fun c => decoded_sample dataInt16 numChannels c <$> zseq frames)
       <$> zseq numChannels |}.

(** The value a run returned, [d] if it did not return. *)
Definition returned {A} (d : A) (o : outcome A) : A :=
  match o with Returns a => a | _ => d end.

(** ** Overlap-add sums *)

Fixpoint take_while {A} (P : A -> bool) (l : list A) : list A :=
  match l with
  | x :: l' => if P x then x :: take_while P l' else []
  | [] => []
  end.

Module Ola.

(** Output index [p] lies under the window placed at synthesis position
    [i]. *)
Definition in_window (i p : Z) : bool := (i <=? p) && (p <? i + windowSize).

(** The synthesis positions: [0], [Hout], [2 Hout], ... for as long as
    [i + 1024 < newLength] and the analysis window at [floor (i r)] stays
    inside the input. *)
Definition processed (ratio : Q) (oldLength newLength : Z) (i : Z) : bool :=
  (i + windowSize <? newLength)
  && (Qfloor (inject_Z i * ratio) + windowSize <=? oldLength).

Definition synthesis_positions (ratio : Q)
    (oldLength newLength outHopSize : Z) : list Z :=
  take_while (processed ratio oldLength newLength)
    ((fun k => k * outHopSize) <$> zseq newLength).

(** The accumulated sample and weight at output index [p]. *)
Definition acc_at (hann input : list Q) (ratio : Q) (positions : list Z)
    (p : Z) : Q :=
  fold_left
    (fun acc i =>
       if in_window i p
       then (acc
             + TypedArray.get 0 input (Qfloor (inject_Z i * ratio) + (p - i))
               * TypedArray.get 0 hann (p - i))%Q
       else acc)
    positions 0%Q.

Definition weight_at (hann : list Q) (positions : list Z) (p : Z) : Q :=
  fold_left
    (fun wt i =>
       if in_window i p then (wt + TypedArray.get 0 hann (p - i))%Q else wt)
    positions 0%Q.

(** The normalised output sample. *)
Definition ola_sample (hann input : list Q) (ratio : Q) (positions : list Z)
    (p : Z) : Q :=
  let acc := acc_at hann input ratio positions p in
  let wt := weight_at hann positions p in
  if Num.ltb 0.01 wt then (acc / wt)%Q else acc.

Definition acc_list (hann input : list Q) (ratio : Q) (newLength : Z)
    (positions : list Z) : list Q :=
  acc_at hann input ratio positions <$> zseq newLength.

Definition weight_list (hann : list Q) (newLength : Z)
    (positions : list Z) : list Q :=
  weight_at hann positions <$> zseq newLength.

End Ola.

(** ** Durations *)


(** ** Inputs of the concrete runs *)

(** A platform for concrete runs.  Rational stand-ins take the place of the
    transcendental functions: the cosine is the parabola through its values
    at 0, pi and 2 pi, powers are exact at integer exponents and linear in
    between, and rendering yields silence of the requested shape. *)
Definition sample_platform : Platform :=
  {| Math_cos := fun x => let u := (x / (355 # 113))%Q in
                          (1 - 4 * u + 2 * u * u)%Q;
     Math_PI := 355 # 113;
     Math_pow := fun base e =>
                   let n := Qfloor e in
                   (base ^ n * (1 + (e - inject_Z n) * (base - 1)))%Q;
     render := fun _ _ numChannels frames =>
                 replicate (Z.to_nat numChannels)
                   (TypedArray.new_Float32Array frames) |}.

Definition ramp_mono (n : Z) : AudioBuffer :=
  {| ab_length := n; sampleRate := 24000;
     channelData := [(fun i => inject_Z i / inject_Z (2 * n))%Q <$> zseq n] |}.

Definition silent_stereo_100 : AudioBuffer :=
  {| ab_length := 100; sampleRate := 24000;
     channelData := [replicate 100 0%Q; replicate 100 0%Q] |}.

(** Twenty-nine seconds of mono silence at 24 kHz. *)
Definition long_mono : AudioBuffer :=
  {| ab_length := 700000; sampleRate := 24000;
     channelData := [replicate (Z.to_nat 700000) 0%Q] |}.

(** ** Stand-ins for the platform *)

(** A stand-in for [atob] in concrete runs: the standard alphabet with
    optional padding; any other character is rejected. *)
Definition base64_digit (c : Z) : option Z :=
  if (65 <=? c) && (c <=? 90) then Some (c - 65)
  else if (97 <=? c) && (c <=? 122) then Some (c - 71)
  else if (48 <=? c) && (c <=? 57) then Some (c + 4)
  else if c =? 43 then Some 62
  else if c =? 47 then Some 63
  else None.

Fixpoint base64_groups (digits : list Z) : option (list Z) :=
  match digits with
  | a :: b :: c :: d :: rest =>
      r ← base64_groups rest;
      Some (a * 4 + b / 16 :: b mod 16 * 16 + c / 4 :: c mod 4 * 64 + d :: r)
  | [a; b; c] => Some [a * 4 + b / 16; b mod 16 * 16 + c / 4]
  | [a; b] => Some [a * 4 + b / 16]
  | [_] => None
  | [] => Some []
  end.

Definition strip_padding (s : js_string) : js_string :=
  match reverse s with
  | 61 :: 61 :: r => reverse r
  | 61 :: r => reverse r
  | _ => s
  end.

Definition sample_atob (s : js_string) : option js_string :=
  digits ← mapM base64_digit (strip_padding s);
  base64_groups digits.


(** * The engine in the code's arithmetic

    [timeStretch] and [processAudio] once more, this time with every
    number as the code has it.  A JavaScript number is an IEEE binary64
    double ([PrimFloat.float]); [oldLength / ratio], [hopSize / ratio] and
    [i * ratio] are rounded before [Math.floor] sees them; the samples,
    the window and the weights live in [Float32Array]s, so every store
    rounds to binary32 ([Ieee.fround]); a load outside an array is
    [undefined], which is [NaN] in arithmetic; [NaN], the infinities and
    the two zeros behave as in JavaScript.

    Frame counts and loop counters stay below [2 ^ 32] and are kept as [Z],
    where the doubles that hold them are exact.  A run that would leave this
    range ends in [Beyond]: nothing is stated about it. *)

Module FloatEngine.

(** A run of the engine: it returns, a call into the platform raises an
    exception, the fuel runs out, or the run leaves the modelled range. *)
Inductive run (A : Type) : Type :=
  | Done (a : A)
  | Raised
  | NoFuel
  | Beyond.
Arguments Done {A} a.
Arguments Raised {A}.
Arguments NoFuel {A}.
Arguments Beyond {A}.

Definition rbind {A B} (m : run A) (k : A -> run B) : run B :=
  match m with
  | Done a => k a
  | Raised => Raised
  | NoFuel => NoFuel
  | Beyond => Beyond
  end.

#[global] Instance run_ret : MRet run := fun _ a => Done a.
#[global] Instance run_bind : MBind run := fun _ _ k m => rbind m k.

(** The double nearest to [n / d]: the value of a decimal literal, as in
    [0.001 = number 1 1000] and [0.5 = number 1 2]. *)
Definition number (n d : Z) : PrimFloat.float :=
  PrimFloat.div (Ieee.of_Z n) (Ieee.of_Z d).

(** What [Math.floor] returns: an integer of any size, [NaN] or an
    infinity.  The zero stands for both zeros, which nothing below tells
    apart. *)
Inductive integer := Int (z : Z) | NaN | Infinity (negative : bool).

Definition Math_floor (x : PrimFloat.float) : integer :=
  match FloatOps.Prim2SF x with
  | SpecFloat.S754_zero _ => Int 0
  | SpecFloat.S754_infinity s => Infinity s
  | SpecFloat.S754_nan => NaN
  | SpecFloat.S754_finite s m e =>
      let n := SpecFloat.cond_Zopp s (Z.pos m) in
      Int (if 0 <=? e then n * 2 ^ e else n / 2 ^ (- e))
  end.

(** [Math.max(a, x)] for an integer constant [a]. *)
Definition Math_max (a : Z) (x : integer) : integer :=
  match x with
  | Int z => Int (Z.max a z)
  | NaN => NaN
  | Infinity true => Int a
  | Infinity false => Infinity false
  end.

(** [Math.PI], the double [0x1.921fb54442d18p+1]. *)
Definition Math_PI : PrimFloat.float := number 7074237752028440 (2 ^ 51).

Definition new_Float32Array (n : Z) : list PrimFloat.float :=
  replicate (Z.to_nat n) PrimFloat.zero.

Definition load (a : list PrimFloat.float) (i : Z) : PrimFloat.float :=
  TypedArray.get PrimFloat.nan a i.

(** [a[idx + j]] for an index [idx] that [Math.floor] returned. *)
Definition load_at (a : list PrimFloat.float) (idx : integer) (j : Z)
  : PrimFloat.float :=
  match idx with
  | Int z => load a (z + j)
  | _ => PrimFloat.nan
  end.

Definition store (a : list PrimFloat.float) (i : Z) (x : PrimFloat.float)
  : list PrimFloat.float :=
  TypedArray.set a i (Ieee.fround x).

Record AudioBuffer := mkAudioBuffer {
    ab_length : Z;
    sampleRate : Z;
    channelData : list (list PrimFloat.float)
  }.

Definition numberOfChannels (b : AudioBuffer) : Z :=
  Z.of_nat (length (channelData b)).

Definition getChannelData (b : AudioBuffer) (c : Z) : list PrimFloat.float :=
  TypedArray.get [] (channelData b) c.

Definition wf_buffer (b : AudioBuffer) : Prop :=
  0 <= ab_length b < 2 ^ 32 /\ 1 <= numberOfChannels b /\
  Forall (fun c => Z.of_nat (length c) = ab_length b) (channelData b).

(** [new AudioBuffer] and [new OfflineAudioContext] with a sample rate and
    a channel count taken from an existing buffer.  The length is converted
    to an unsigned 32-bit integer, which sends [NaN] and the infinities to
    0, and a length of 0 is refused with an exception. *)
Definition new_AudioBuffer (numChannels : Z) (len : integer) (rate : Z)
  : run AudioBuffer :=
  match len with
  | Int n =>
      if (n <? 0) || (2 ^ 32 <=? n) then Beyond
      else if (numChannels <? 1) || (n =? 0) then Raised
      else Done {| ab_length := n; sampleRate := rate;
                   channelData := replicate (Z.to_nat numChannels)
                                            (new_Float32Array n) |}
  | _ => Raised
  end.

Class Platform := {
  Math_cos : PrimFloat.float -> PrimFloat.float;
  Math_pow : PrimFloat.float -> PrimFloat.float -> PrimFloat.float;
  (** samples rendered for a source buffer played at the rate assigned to
      [playbackRate] into a destination of the given channel count and
      frame count *)
  render : AudioBuffer -> PrimFloat.float -> Z -> Z
           -> list (list PrimFloat.float)
}.

Section Engine.
Context `{Platform}.

Definition hann_window : list PrimFloat.float :=
  for_loop windowSize
    (fun i h =>
       store h i
         (PrimFloat.mul (number 1 2)
            (PrimFloat.sub (Ieee.of_Z 1)
               (Math_cos
                  (PrimFloat.div
                     (PrimFloat.mul (PrimFloat.mul (Ieee.of_Z 2) Math_PI)
                        (Ieee.of_Z i))
                     (Ieee.of_Z (windowSize - 1)))))))
    (new_Float32Array windowSize).

(** The inner [for (let j = 0; j < windowSize; j++)]. *)
Definition ola_window (hann input : list PrimFloat.float) (i : Z)
    (inputIdx : integer)
    (ow : list PrimFloat.float * list PrimFloat.float)
  : list PrimFloat.float * list PrimFloat.float :=
  for_loop windowSize
    (fun j '(output, weights) =>
       (store output (i + j)
          (PrimFloat.add (load output (i + j))
             (PrimFloat.mul (load_at input inputIdx j) (load hann j))),
        store weights (i + j)
          (PrimFloat.add (load weights (i + j)) (load hann j))))
    ow.

(** [inputIdx + windowSize > oldLength]. *)
Definition exceeds (inputIdx : integer) (oldLength : Z) : bool :=
  match inputIdx with
  | Int z => oldLength <? z + windowSize
  | NaN => false
  | Infinity negative => negb negative
  end.

(** [i += outHopSize], for a hop that is an integer and not negative. *)
Definition advance (i : Z) (outHopSize : integer) : option Z :=
  match outHopSize with
  | Int h => if h <? 0 then None else Some (i + h)
  | _ => None
  end.

(** [for (let i = 0; i < newLength - windowSize; i += outHopSize)], one
    unit of fuel per evaluation of the loop condition. *)
Fixpoint ola_loop (fuel : nat) (ratio : PrimFloat.float)
    (hann input : list PrimFloat.float) (oldLength newLength : Z)
    (outHopSize : integer) (i : Z)
    (ow : list PrimFloat.float * list PrimFloat.float)
  : run (list PrimFloat.float * list PrimFloat.float) :=
  match fuel with
  | O => NoFuel
  | S fuel' =>
      if i <? newLength - windowSize then
        let inputIdx := Math_floor (PrimFloat.mul (Ieee.of_Z i) ratio) in
        if exceeds inputIdx oldLength then mret ow
        else
          match advance i outHopSize with
          | Some i' =>
              ola_loop fuel' ratio hann input oldLength newLength outHopSize
                i' (ola_window hann input i inputIdx ow)
          | None => Beyond
          end
      else mret ow
  end.

(** The normalisation pass. *)
Definition normalize (newLength : Z) (weights output : list PrimFloat.float)
  : list PrimFloat.float :=
  for_loop newLength
    (fun i output =>
       if PrimFloat.ltb (number 1 100) (load weights i)
       then store output i (PrimFloat.div (load output i) (load weights i))
       else output)
    output.

(** The body of [for (let channel = 0; ...)] for one channel. *)
Definition stretch_channel (fuel : nat) (ratio : PrimFloat.float)
    (hann input : list PrimFloat.float) (oldLength newLength : Z)
    (outHopSize : integer) (output : list PrimFloat.float)
  : run (list PrimFloat.float) :=
  let weights := new_Float32Array newLength in
  '(output, weights) ← ola_loop fuel ratio hann input oldLength newLength
                          outHopSize 0 (output, weights);
  mret (normalize newLength weights output).

Definition newLength_of (oldLength : Z) (ratio : PrimFloat.float) : integer :=
  Math_max 1 (Math_floor (PrimFloat.div (Ieee.of_Z oldLength) ratio)).

Definition outHopSize_of (ratio : PrimFloat.float) : integer :=
  Math_floor (PrimFloat.div (Ieee.of_Z hopSize) ratio).

(** [Math.abs(ratio - 1.0) < 0.001]. *)
Definition near_unity (ratio : PrimFloat.float) : bool :=
  PrimFloat.ltb (PrimFloat.abs (PrimFloat.sub ratio (Ieee.of_Z 1)))
    (number 1 1000).

(** Once the output buffer exists its length is [newLength], which the
    loops use from there on. *)
Definition timeStretch (fuel : nat) (buffer : AudioBuffer)
    (ratio : PrimFloat.float) : run AudioBuffer :=
  if near_unity ratio then mret buffer
  else
    let numChannels := numberOfChannels buffer in
    let oldLength := ab_length buffer in
    outBuffer ← new_AudioBuffer numChannels (newLength_of oldLength ratio)
                  (sampleRate buffer);
    let newLength := ab_length outBuffer in
    let outHopSize := outHopSize_of ratio in
    let hann := hann_window in
    chans ← for_loop numChannels
              (fun channel acc =>
                 chans ← acc;
                 let input := getChannelData buffer channel in
                 output ← stretch_channel fuel ratio hann input oldLength
                            newLength outHopSize
                            (TypedArray.get [] chans channel);
                 mret (TypedArray.set chans channel output))
              (mret (channelData outBuffer));
    mret {| ab_length := ab_length outBuffer;
            sampleRate := sampleRate outBuffer;
            channelData := chans |}.

Definition is_finite (x : PrimFloat.float) : bool :=
  match FloatOps.Prim2SF x with
  | SpecFloat.S754_zero _ | SpecFloat.S754_finite _ _ _ => true
  | _ => false
  end.

(** The assignment to [playbackRate.value] raises unless the number has a
    finite single-precision value.  The rendered buffer has the shape given
    to the [OfflineAudioContext]; its samples are the platform's. *)
Definition processAudio (fuel : nat) (buffer : AudioBuffer)
    (speed pitch : PrimFloat.float) : run AudioBuffer :=
  let pitchFactor :=
    Math_pow (Ieee.of_Z 2) (PrimFloat.div pitch (Ieee.of_Z 12)) in
  let stretchRatio := PrimFloat.div speed pitchFactor in
  stretched ← timeStretch fuel buffer stretchRatio;
  let frames :=
    Math_max 1 (Math_floor (PrimFloat.div (Ieee.of_Z (ab_length stretched))
                              pitchFactor)) in
  offlineCtx ← new_AudioBuffer (numberOfChannels stretched) frames
                 (sampleRate stretched);
  if is_finite (Ieee.fround pitchFactor) then
    mret {| ab_length := ab_length offlineCtx;
            sampleRate := sampleRate offlineCtx;
            channelData := render stretched pitchFactor
                             (numberOfChannels stretched)
                             (ab_length offlineCtx) |}
  else Raised.

End Engine.

(** ** Overlap-add sums in the code's arithmetic *)

(** The synthesis positions: [0], [Hout], [2 Hout], ... for as long as
    [i + 1024 < newLength] and the analysis window at [floor (i * ratio)]
    stays inside the input. *)
Definition processed (ratio : PrimFloat.float) (oldLength newLength : Z)
    (i : Z) : bool :=
  (i + windowSize <? newLength)
  && negb (exceeds (Math_floor (PrimFloat.mul (Ieee.of_Z i) ratio))
             oldLength).

Definition synthesis_positions (ratio : PrimFloat.float)
    (oldLength newLength outHopSize : Z) : list Z :=
  take_while (processed ratio oldLength newLength)
    ((fun k => k * outHopSize) <$> zseq newLength).

(** The accumulated sample and weight at output index [p], every addition
    rounded to single precision as it is stored. *)
Definition acc_at (hann input : list PrimFloat.float)
    (ratio : PrimFloat.float) (positions : list Z) (p : Z)
  : PrimFloat.float :=
  fold_left
    (fun acc i =>
       if Ola.in_window i p
       then Ieee.fround
              (PrimFloat.add acc
                 (PrimFloat.mul
                    (load_at input
                       (Math_floor (PrimFloat.mul (Ieee.of_Z i) ratio))
                       (p - i))
                    (load hann (p - i))))
       else acc)
    positions PrimFloat.zero.

Definition weight_at (hann : list PrimFloat.float) (positions : list Z)
    (p : Z) : PrimFloat.float :=
  fold_left
    (fun wt i =>
       if Ola.in_window i p
       then Ieee.fround (PrimFloat.add wt (load hann (p - i)))
       else wt)
    positions PrimFloat.zero.

(** The normalised output sample. *)
Definition ola_sample (hann input : list PrimFloat.float)
    (ratio : PrimFloat.float) (positions : list Z) (p : Z)
  : PrimFloat.float :=
  let acc := acc_at hann input ratio positions p in
  let wt := weight_at hann positions p in
  if PrimFloat.ltb (number 1 100) wt then Ieee.fround (PrimFloat.div acc wt)
  else acc.

Definition acc_list (hann input : list PrimFloat.float)
    (ratio : PrimFloat.float) (newLength : Z) (positions : list Z)
  : list PrimFloat.float :=
  acc_at hann input ratio positions <$> zseq newLength.

Definition weight_list (hann : list PrimFloat.float) (newLength : Z)
    (positions : list Z) : list PrimFloat.float :=
  weight_at hann positions <$> zseq newLength.

(** The loop as the claim words it, entered while [i + 1024 <= newLength]. *)
Fixpoint ola_loop_as_claimed (fuel : nat) (ratio : PrimFloat.float)
    (hann input : list PrimFloat.float) (oldLength newLength : Z)
    (outHopSize : integer) (i : Z)
    (ow : list PrimFloat.float * list PrimFloat.float)
  : run (list PrimFloat.float * list PrimFloat.float) :=
  match fuel with
  | O => NoFuel
  | S fuel' =>
      if i + windowSize <=? newLength then
        let inputIdx := Math_floor (PrimFloat.mul (Ieee.of_Z i) ratio) in
        if exceeds inputIdx oldLength then mret ow
        else
          match advance i outHopSize with
          | Some i' =>
              ola_loop_as_claimed fuel' ratio hann input oldLength newLength
                outHopSize i' (ola_window hann input i inputIdx ow)
          | None => Beyond
          end
      else mret ow
  end.

(** ** Durations and inputs of the concrete runs *)


(** A platform for concrete runs.  The cosine is the parabola through its
    values at 0, pi and 2 pi, powers of two are exact at integer exponents
    and linear in between, and rendering yields silence of the requested
    shape. *)
Definition sample_platform : Platform :=
  {| Math_cos := fun x =>
       let u := PrimFloat.div x Math_PI in
       PrimFloat.add
         (PrimFloat.sub (Ieee.of_Z 1) (PrimFloat.mul (Ieee.of_Z 4) u))
         (PrimFloat.mul (Ieee.of_Z 2) (PrimFloat.mul u u));
     Math_pow := fun base e =>
       match Math_floor e with
       | Int n => PrimFloat.mul (FloatOps.Z.ldexp (Ieee.of_Z 1) n)
                    (PrimFloat.add (Ieee.of_Z 1)
                       (PrimFloat.mul (PrimFloat.sub e (Ieee.of_Z n))
                          (PrimFloat.sub base (Ieee.of_Z 1))))
       | _ => PrimFloat.nan
       end;
     render := fun _ _ numChannels frames =>
       replicate (Z.to_nat numChannels) (new_Float32Array frames) |}.


Definition ramp_mono (n : Z) : AudioBuffer :=
  {| ab_length := n; sampleRate := 24000;
     channelData :=
       [(fun i => Ieee.fround (PrimFloat.div (Ieee.of_Z i) (Ieee.of_Z (2 * n))))
        <$> zseq n] |}.

End FloatEngine.

(** * Properties *)

(** A comparison of closed rationals that evaluates to false. *)
Ltac refute_by_computation :=
  let Hc := fresh "Hc" in intros Hc; vm_compute in Hc; discriminate.

(** ** Loops and typed arrays *)

Lemma zseq_nonpos (n : Z) : n <= 0 -> zseq n = [].
Proof.
  intros Hn. unfold zseq. replace (Z.to_nat n) with 0%nat by lia. reflexivity.
Qed.

Lemma zseq_succ (n : Z) : 0 <= n -> zseq (n + 1) = zseq n ++ [n].
Proof.
  intros Hn. unfold zseq.
  replace (Z.to_nat (n + 1)) with (S (Z.to_nat n)) by lia.
  rewrite seq_S, fmap_app. simpl. f_equal. f_equal. lia.
Qed.

Lemma length_zseq (n : Z) : length (zseq n) = Z.to_nat n.
Proof. unfold zseq. now rewrite length_fmap, length_seq. Qed.

Lemma lookup_zseq (n : Z) (k : nat) :
  (k < Z.to_nat n)%nat -> zseq n !! k = Some (Z.of_nat k).
Proof.
  intros Hk. unfold zseq. rewrite list_lookup_fmap, lookup_seq_lt by lia.
  reflexivity.
Qed.

Lemma for_loop_nonpos {St} (n : Z) (body : Z -> St -> St) (s : St) :
  n <= 0 -> for_loop n body s = s.
Proof. intros Hn. unfold for_loop. now rewrite zseq_nonpos. Qed.

Lemma for_loop_succ {St} (n : Z) (body : Z -> St -> St) (s : St) :
  0 <= n -> for_loop (n + 1) body s = body n (for_loop n body s).
Proof.
  intros Hn. unfold for_loop. rewrite zseq_succ by lia.
  now rewrite fold_left_app.
Qed.

(** Induction over the iterations of a counted loop. *)
Lemma for_loop_ind {St} (P : Z -> St -> Prop) (n : Z) (body : Z -> St -> St)
    (s : St) :
  0 <= n ->
  P 0 s ->
  (forall i t, 0 <= i < n -> P i t -> P (i + 1) (body i t)) ->
  P n (for_loop n body s).
Proof.
  intros Hn H0 Hstep.
  assert (Hgen : forall k : nat, Z.of_nat k <= n ->
      P (Z.of_nat k) (for_loop (Z.of_nat k) body s)).
  { induction k as [|k IH]; intros Hk.
    - now rewrite for_loop_nonpos.
    - replace (Z.of_nat (S k)) with (Z.of_nat k + 1) by lia.
      rewrite for_loop_succ by lia. apply Hstep; [lia | apply IH; lia]. }
  specialize (Hgen (Z.to_nat n)). rewrite Z2Nat.id in Hgen by lia.
  apply Hgen; lia.
Qed.

Lemma for_loop_ext {St} (n : Z) (f g : Z -> St -> St) (s : St) :
  (forall i t, 0 <= i < n -> f i t = g i t) ->
  for_loop n f s = for_loop n g s.
Proof.
  intros Hfg. destruct (Z.le_gt_cases 0 n) as [Hn|Hn].
  - apply (for_loop_ind (fun i t => t = for_loop i g s) n f s Hn).
    + now rewrite for_loop_nonpos.
    + intros i t Hi ->. rewrite for_loop_succ by lia. now apply Hfg.
  - now rewrite !for_loop_nonpos by lia.
Qed.

Module TypedArrayFacts.
Import TypedArray.

Lemma length_set {A} (a : list A) (i : Z) (v : A) :
  length (set a i v) = length a.
Proof. unfold set. destruct (i <? 0); [easy | apply length_insert]. Qed.

Lemma get_lookup {A} (d : A) (a : list A) (i : Z) (x : A) :
  0 <= i -> a !! Z.to_nat i = Some x -> get d a i = x.
Proof.
  intros Hi Hx. unfold get.
  destruct (Z.ltb_spec i 0); [lia|].
  now apply nth_lookup_Some.
Qed.

Lemma lookup_set {A} (a : list A) (i : Z) (v : A) (k : nat) :
  set a i v !! k =
  if decide (0 <= i /\ Z.to_nat i = k /\ (k < length a)%nat)
  then Some v else a !! k.
Proof.
  unfold set. destruct (Z.ltb_spec i 0) as [Hi|Hi].
  - destruct (decide _) as [[? _]|_]; [lia | easy].
  - rewrite list_lookup_insert.
    destruct (decide (Z.to_nat i = k /\ (Z.to_nat i < length a)%nat))
      as [[-> ?]|Hn];
      destruct (decide _) as [Hy|Hy]; try easy.
    + exfalso. apply Hy. lia.
    + exfalso. apply Hn. destruct Hy as (_ & <- & ?). lia.
Qed.

(** A counted loop that rewrites the cells [i], [i+1], ... of an array,
    each from its own old content, is a pointwise map. *)
Lemma for_loop_update {A} (d : A) (g : Z -> A -> A) (i m : Z)
  (a : list A) :
  0 <= i -> 0 <= m ->
  for_loop m (fun j l => set l (i + j) (g j (get d l (i + j)))) a =
  imap (fun p x =>
        if (i <=? Z.of_nat p) && (Z.of_nat p <? i + m)
        then g (Z.of_nat p - i) x else x) a.
Proof.
  intros Hi Hm.
  apply (for_loop_ind
      (fun n t => t = imap (fun p x =>
          if (i <=? Z.of_nat p) && (Z.of_nat p <? i + n)
          then g (Z.of_nat p - i) x else x) a) m _ a Hm).
  - apply list_eq. intros k. rewrite list_lookup_imap.
    destruct (a !! k) as [x|]; simpl; [|easy].
    destruct (Z.leb_spec i (Z.of_nat k)), (Z.ltb_spec (Z.of_nat k) (i + 0));
      simpl; try easy; lia.
  - intros j t Hj ->. apply list_eq. intros k.
    rewrite lookup_set, length_imap, !list_lookup_imap.
    destruct (decide _) as [(_ & Hk & Hlen)|Hno].
    + destruct (lookup_lt_is_Some_2 a k Hlen) as [x Hx]. rewrite Hx. simpl.
      erewrite (get_lookup d _ (i + j)); [| lia |].
      2:{ rewrite list_lookup_imap, Hk, Hx. simpl. reflexivity. }
      replace (Z.of_nat (Z.to_nat (i + j))) with (i + j) by lia.
      replace (Z.of_nat k) with (i + j) by lia.
      destruct (Z.leb_spec i (i + j)); [|lia].
      destruct (Z.ltb_spec (i + j) (i + j)); [lia|].
      destruct (Z.ltb_spec (i + j) (i + (j + 1))); [|lia].
      simpl. do 2 f_equal. lia.
    + destruct (a !! k) as [x|] eqn:Hx; simpl; [|easy].
      assert (Hlt : (k < length a)%nat) by (apply lookup_lt_is_Some; eauto).
      assert (Hne : Z.of_nat k <> i + j) by (intros Hc; apply Hno; lia).
      destruct (Z.leb_spec i (Z.of_nat k)),
        (Z.ltb_spec (Z.of_nat k) (i + j)),
        (Z.ltb_spec (Z.of_nat k) (i + (j + 1)));
        simpl; try easy; lia.
Qed.

End TypedArrayFacts.

(** ** Bytes and fixed-width integers *)

Module NumFacts.
Import Num.

Lemma Z_of_byte_range (b : byte) : 0 <= Z_of_byte b < 256.
Proof.
  unfold Z_of_byte. pose proof (Byte.to_N_bounded b). lia.
Qed.

Lemma Z_of_byte_of_Z (z : Z) : Z_of_byte (byte_of_Z z) = z mod 256.
Proof.
  unfold Z_of_byte, byte_of_Z.
  assert (Hr : 0 <= z mod 256 < 256) by (apply Z.mod_pos_bound; lia).
  destruct (Byte.of_N (Z.to_N (z mod 256))) as [b|] eqn:Hb.
  - apply Byte.to_of_N in Hb. rewrite Hb. lia.
  - apply Byte.of_N_None_iff in Hb. lia.
Qed.

Lemma byte_of_Z_of_byte (b : byte) : byte_of_Z (Z_of_byte b) = b.
Proof.
  unfold byte_of_Z, Z_of_byte.
  pose proof (Byte.to_N_bounded b) as Hb.
  rewrite Z.mod_small by lia. rewrite N2Z.id, Byte.of_to_N. reflexivity.
Qed.

Lemma wrap_signed_range (w z : Z) :
  0 < w -> - 2 ^ (w - 1) <= wrap_signed w z < 2 ^ (w - 1).
Proof.
  intros Hw. unfold wrap_signed.
  assert (H2 : 2 ^ w = 2 * 2 ^ (w - 1)).
  { replace w with (Z.succ (w - 1)) at 1 by lia. apply Z.pow_succ_r. lia. }
  assert (0 < 2 ^ (w - 1)) by (apply Z.pow_pos_nonneg; lia).
  pose proof (Z.mod_pos_bound (z + 2 ^ (w - 1)) (2 ^ w)). lia.
Qed.

Lemma wrap_signed_small (w z : Z) :
  0 < w -> - 2 ^ (w - 1) <= z < 2 ^ (w - 1) -> wrap_signed w z = z.
Proof.
  intros Hw Hz. unfold wrap_signed.
  assert (H2 : 2 ^ w = 2 * 2 ^ (w - 1)).
  { replace w with (Z.succ (w - 1)) at 1 by lia. apply Z.pow_succ_r. lia. }
  rewrite Z.mod_small by lia. lia.
Qed.

(** Reading back as signed what was stored as the unsigned image. *)
Lemma wrap_signed_unsigned (w z : Z) :
  0 < w -> wrap_signed w (wrap_unsigned w z) = wrap_signed w z.
Proof.
  intros Hw. unfold wrap_signed, wrap_unsigned.
  assert (0 < 2 ^ w) by (apply Z.pow_pos_nonneg; lia).
  rewrite Zplus_mod_idemp_l. reflexivity.
Qed.

End NumFacts.

(** ** The encoder's output, byte for byte *)

Lemma bind_Returns {A B} (a : A) (k : A -> outcome B) :
  mbind k (Returns a) = k a.
Proof. reflexivity. Qed.

Module WavFacts.
Import Wav.
Import WavLayout.

Lemma length_le_bytes (n : nat) (u : Z) : length (le_bytes n u) = n.
Proof. unfold le_bytes. now rewrite length_fmap, length_seq. Qed.

Lemma length_u16 (z : Z) : length (u16 z) = 2%nat.
Proof. apply length_le_bytes. Qed.

Lemma length_u32 (z : Z) : length (u32 z) = 4%nat.
Proof. apply length_le_bytes. Qed.

Lemma pos_wstate (pre : list byte) (rest : nat) :
  pos (wstate pre rest) = Z.of_nat (length pre).
Proof. reflexivity. Qed.

Lemma view_store_append (pre bs : list byte) (rest : nat) :
  (length bs <= rest)%nat ->
  view_store (pre ++ replicate rest x00) (Z.of_nat (length pre)) bs =
  Returns ((pre ++ bs) ++ replicate (rest - length bs) x00).
Proof.
  intros Hfit. unfold view_store.
  rewrite length_app, length_replicate.
  destruct (Z.ltb_spec (Z.of_nat (length pre)) 0); [lia|].
  destruct (Z.ltb_spec (Z.of_nat (length pre + rest))
      (Z.of_nat (length pre) + Z.of_nat (length bs))); [lia|].
  simpl. rewrite Nat2Z.id. rewrite take_app_length.
  rewrite drop_app_ge by lia.
  replace (length pre + length bs - length pre)%nat with (length bs) by lia.
  rewrite drop_replicate. now rewrite <- app_assoc.
Qed.

Lemma store_wstate (pre bs : list byte) (rest : nat) (k : Z) :
  (length bs <= rest)%nat -> k = Z.of_nat (length bs) ->
  (v ← view_store (view (wstate pre rest)) (pos (wstate pre rest)) bs;
  mret {| view := v; pos := pos (wstate pre rest) + k |}) =
  Returns (wstate (pre ++ bs) (rest - length bs)).
Proof.
  intros Hfit ->. simpl. rewrite view_store_append by easy.
  rewrite bind_Returns. unfold wstate. rewrite length_app.
  unfold mret, outcome_ret. do 2 f_equal. lia.
Qed.

Lemma setUint32_wstate (d : Z) (pre : list byte) (rest : nat) :
  (4 <= rest)%nat ->
  setUint32 d (wstate pre rest) = Returns (wstate (pre ++ u32 d) (rest - 4)).
Proof.
  intros Hr. unfold setUint32, DataView_setUint32.
  rewrite store_wstate; rewrite ?length_le_bytes; try easy.
Qed.

Lemma setUint16_wstate (d : Z) (pre : list byte) (rest : nat) :
  (2 <= rest)%nat ->
  setUint16 d (wstate pre rest) = Returns (wstate (pre ++ u16 d) (rest - 2)).
Proof.
  intros Hr. unfold setUint16, DataView_setUint16.
  rewrite store_wstate; rewrite ?length_le_bytes; try easy.
Qed.

Lemma write_header_wstate (b : AudioBuffer) (numOfChan len : Z)
  (rest : nat) :
  write_header b numOfChan len (wstate [] (44 + rest)) =
  Returns (wstate (header_bytes numOfChan (sampleRate b) len) rest).
Proof.
  unfold write_header.
  repeat (first [ rewrite setUint32_wstate by lia
        | rewrite setUint16_wstate by lia ];
      rewrite ?bind_Returns).
  unfold header_bytes. rewrite !app_nil_l, <- !app_assoc.
  rewrite pos_wstate, !length_app, !length_u32, !length_u16.
  match goal with
    | |- context [u32 (len - Z.of_nat ?n - 4)] =>
    replace (len - Z.of_nat n - 4) with (len - 44) by lia
    end.
  do 2 f_equal. lia.
Qed.

Lemma write_sample_wstate (channels : list (list Q)) (offset i : Z)
  (pre : list byte) (rest : nat) :
  (2 <= rest)%nat ->
  write_sample channels offset i (wstate pre rest) =
  Returns (wstate (pre ++ sample_bytes
                   (TypedArray.get 0%Q (TypedArray.get [] channels i) offset))
           (rest - 2)).
Proof.
  intros Hr. unfold write_sample, DataView_setInt16.
  rewrite store_wstate; rewrite ?length_le_bytes; try easy.
Qed.

Lemma frame_bytes_snoc (l : list (list Q)) (c : list Q) (offset : Z) :
  frame_bytes (l ++ [c]) offset =
  frame_bytes l offset ++ sample_bytes (TypedArray.get 0%Q c offset).
Proof.
  unfold frame_bytes. rewrite fmap_app, concat_app. f_equal.
Qed.

Lemma length_sample_bytes (x : Q) : length (sample_bytes x) = 2%nat.
Proof. apply length_le_bytes. Qed.

Lemma length_frame_bytes (l : list (list Q)) (offset : Z) :
  length (frame_bytes l offset) = (2 * length l)%nat.
Proof.
  induction l as [|c l IH]; [easy|].
  change (frame_bytes (c :: l) offset)
    with (sample_bytes (TypedArray.get 0%Q c offset) ++ frame_bytes l offset).
  rewrite length_app, IH, length_sample_bytes. simpl. lia.
Qed.

Lemma take_succ_get {A} (d : A) (l : list A) (i : Z) :
  0 <= i < Z.of_nat (length l) ->
  take (Z.to_nat (i + 1)) l = take (Z.to_nat i) l ++ [TypedArray.get d l i].
Proof.
  intros Hi. replace (Z.to_nat (i + 1)) with (S (Z.to_nat i)) by lia.
  destruct (lookup_lt_is_Some_2 l (Z.to_nat i)) as [x Hx]; [lia|].
  rewrite (take_S_r _ _ x Hx).
  now rewrite (TypedArrayFacts.get_lookup d l i x) by (lia || easy).
Qed.

Lemma write_frame_wstate (channels : list (list Q)) (offset : Z)
  (pre : list byte) (rest : nat) :
  (2 * length channels <= rest)%nat ->
  write_frame channels (Z.of_nat (length channels)) offset (wstate pre rest) =
  Returns (wstate (pre ++ frame_bytes channels offset)
           (rest - 2 * length channels)).
Proof.
  intros Hr. unfold write_frame.
  pose (P := fun (i : Z) (acc : outcome writer) =>
      acc = Returns (wstate (pre ++ frame_bytes (take (Z.to_nat i) channels)
          offset)
        (rest - 2 * Z.to_nat i))).
  assert (HP : P (Z.of_nat (length channels))
      (for_loop (Z.of_nat (length channels))
        (fun i acc => w ← acc; write_sample channels offset i w)
        (mret (wstate pre rest)))).
  { apply for_loop_ind; [lia | |].
    - unfold P. simpl. unfold frame_bytes. simpl.
      rewrite app_nil_r, Nat.sub_0_r. reflexivity.
    - intros i t Hi Ht. unfold P in *. subst t. rewrite bind_Returns.
      rewrite write_sample_wstate by lia.
      rewrite (take_succ_get []) by lia.
      rewrite frame_bytes_snoc, app_assoc. do 2 f_equal. lia. }
  unfold P in HP. rewrite HP. rewrite Nat2Z.id, firstn_all. reflexivity.
Qed.

Lemma channels_collect (b : AudioBuffer) :
  for_loop (numberOfChannels b)
  (fun i chans => chans ++ [getChannelData b i]) [] = channelData b.
Proof.
  unfold numberOfChannels, getChannelData.
  set (l := channelData b).
  assert (HP : (fun i acc => acc = take (Z.to_nat i) l)
      (Z.of_nat (length l))
      (for_loop (Z.of_nat (length l))
        (fun i chans => chans ++ [TypedArray.get [] l i]) [])).
  { apply for_loop_ind; [lia | easy |].
    intros i t Hi ->. now rewrite (take_succ_get []) by lia. }
  simpl in HP. rewrite HP, Nat2Z.id. apply firstn_all.
Qed.

Lemma frames_from_S channels offset k :
  frames_from channels offset (S k) =
  frame_bytes channels offset ++ frames_from channels (offset + 1) k.
Proof.
  unfold frames_from. simpl. rewrite Z.add_0_r. f_equal.
  rewrite <- fmap_S_seq, <- list_fmap_compose. f_equal.
  apply list_fmap_ext. intros _ j _. simpl. f_equal. lia.
Qed.

Lemma write_frames_wstate (channels : list (list Q)) (len : Z) (k : nat) :
  (1 <= length channels)%nat ->
  forall (fuel : nat) (offset : Z) (pre : list byte),
  (k < fuel)%nat ->
  len = Z.of_nat (length pre + 2 * length channels * k) ->
  write_frames fuel channels (Z.of_nat (length channels)) len offset
    (wstate pre (2 * length channels * k)) =
  Returns (wstate (pre ++ frames_from channels offset k) 0).
Proof.
  intros Hc. induction k as [|k IH]; intros fuel offset pre Hfuel Hlen.
  - destruct fuel as [|fuel]; [lia|]. cbn [write_frames].
    rewrite pos_wstate.
    destruct (Z.ltb_spec (Z.of_nat (length pre)) len); [lia|].
    unfold frames_from. simpl. rewrite app_nil_r, Nat.mul_0_r. reflexivity.
  - destruct fuel as [|fuel]; [lia|]. cbn [write_frames].
    rewrite pos_wstate.
    destruct (Z.ltb_spec (Z.of_nat (length pre)) len); [|lia].
    rewrite write_frame_wstate by lia. rewrite bind_Returns.
    replace (2 * length channels * S k - 2 * length channels)%nat
      with (2 * length channels * k)%nat by lia.
    rewrite IH; [| lia |].
    + rewrite frames_from_S, app_assoc. reflexivity.
    + rewrite length_app, length_frame_bytes. lia.
Qed.

Lemma frames_from_data (channels : list (list Q)) (frames : Z) :
  frames_from channels 0 (Z.to_nat frames) = data_bytes channels frames.
Proof.
  unfold frames_from, data_bytes, zseq. rewrite <- list_fmap_compose.
  reflexivity.
Qed.

(** The file is the 44-byte header followed by the interleaved samples. *)
Lemma audioBufferToWav_bytes (fuel : nat) (b : AudioBuffer) :
  0 <= ab_length b -> 1 <= numberOfChannels b ->
  (Z.to_nat (ab_length b) < fuel)%nat ->
  audioBufferToWav fuel b =
  Returns (header_bytes (numberOfChannels b) (sampleRate b)
           (ab_length b * numberOfChannels b * 2 + 44)
         ++ data_bytes (channelData b) (ab_length b)).
Proof.
  intros Hlen Hch Hfuel. unfold audioBufferToWav.
  rewrite channels_collect.
  set (len := ab_length b * numberOfChannels b * 2 + 44).
  set (nc := length (channelData b)).
  assert (Hnc : numberOfChannels b = Z.of_nat nc) by reflexivity.
  set (k := Z.to_nat (ab_length b)).
  assert (Hk : ab_length b = Z.of_nat k) by (unfold k; lia).
  assert (Hlen' : len = Z.of_nat (44 + 2 * nc * k)).
  { unfold len. rewrite Hnc, Hk. lia. }
  replace (replicate (Z.to_nat len) x00)
    with (view (wstate [] (44 + 2 * nc * k))).
  2:{ rewrite Hlen', Nat2Z.id. reflexivity. }
  change {| view := view (wstate [] (44 + 2 * nc * k)); pos := 0 |}
  with (wstate [] (44 + 2 * nc * k)).
  rewrite write_header_wstate, bind_Returns.
  rewrite Hnc. unfold nc.
  assert (Hhdr : length (header_bytes (Z.of_nat nc) (sampleRate b) len)
      = 44%nat).
  { unfold header_bytes.
    now rewrite !length_app, !length_u32, !length_u16. }
  rewrite (write_frames_wstate (channelData b) len k);
    fold nc; rewrite ?Hhdr; try lia.
  rewrite bind_Returns. simpl. rewrite app_nil_r.
  unfold k. rewrite frames_from_data. reflexivity.
Qed.

End WavFacts.

(** ** WAV header *)

Lemma length_data_bytes (channels : list (list Q)) (frames : Z) :
  length (WavLayout.data_bytes channels frames) =
  (2 * length channels * Z.to_nat frames)%nat.
Proof.
  unfold WavLayout.data_bytes. rewrite <- (length_zseq frames).
  induction (zseq frames) as [|x l IH]; [simpl; lia|].
  rewrite fmap_cons. cbn [concat].
  rewrite length_app, IH, WavFacts.length_frame_bytes. simpl. lia.
Qed.

(** C6. For a buffer of 2 channels, 100 frames and 24000 Hz the encoder
    returns exactly 444 bytes: "RIFF", the little-endian total minus 8,
    "WAVE", a 16-byte "fmt " chunk declaring format 1, 2 channels,
    24000 Hz, byte rate 96000, block align 4 and 16 bits per sample, then
    "data" with the length 400 = 444 - 44 and that many bytes of samples. *)
Theorem wav_header_exactness (b : AudioBuffer) (fuel : nat) :
  numberOfChannels b = 2 -> ab_length b = 100 -> sampleRate b = 24000 ->
  (100 < fuel)%nat ->
  exists wav,
    Wav.audioBufferToWav fuel b = Returns wav /\
    length wav = 444%nat /\
    take 4 wav = ["R"; "I"; "F"; "F"]%byte /\
    WavLayout.le_value (take 4 (drop 4 wav)) = 444 - 8 /\
    take 4 (drop 8 wav) = ["W"; "A"; "V"; "E"]%byte /\
    take 4 (drop 12 wav) = ["f"; "m"; "t"; " "]%byte /\
    WavLayout.le_value (take 4 (drop 16 wav)) = 16 /\
    WavLayout.le_value (take 2 (drop 20 wav)) = 1 /\
    WavLayout.le_value (take 2 (drop 22 wav)) = 2 /\
    WavLayout.le_value (take 4 (drop 24 wav)) = 24000 /\
    WavLayout.le_value (take 4 (drop 28 wav)) = 96000 /\
    WavLayout.le_value (take 2 (drop 32 wav)) = 4 /\
    WavLayout.le_value (take 2 (drop 34 wav)) = 16 /\
    take 4 (drop 36 wav) = ["d"; "a"; "t"; "a"]%byte /\
    WavLayout.le_value (take 4 (drop 40 wav)) = 444 - 44 /\
    length (drop 44 wav) = 400%nat.
Proof.
  intros Hch Hlen Hrate Hfuel.
  eexists. split.
  { apply WavFacts.audioBufferToWav_bytes; lia. }
  rewrite Hch, Hlen, Hrate.
  assert (Hd : length (WavLayout.data_bytes (channelData b) 100) = 400%nat).
  { rewrite length_data_bytes. unfold numberOfChannels in Hch. lia. }
  set (data := WavLayout.data_bytes (channelData b) 100) in *.
  set (hdr := WavLayout.header_bytes 2 24000 (100 * 2 * 2 + 44)).
  vm_compute in hdr. subst hdr.
  repeat split; try reflexivity.
  - simpl. lia.
  - simpl. exact Hd.
Qed.

Lemma wav_header_exactness_witness :
  exists wav,
    Wav.audioBufferToWav 101 silent_stereo_100 = Returns wav /\
    length wav = 444%nat /\
    take 4 wav = ["R"; "I"; "F"; "F"]%byte /\
    WavLayout.le_value (take 4 (drop 4 wav)) = 444 - 8 /\
    take 4 (drop 8 wav) = ["W"; "A"; "V"; "E"]%byte /\
    take 4 (drop 12 wav) = ["f"; "m"; "t"; " "]%byte /\
    WavLayout.le_value (take 4 (drop 16 wav)) = 16 /\
    WavLayout.le_value (take 2 (drop 20 wav)) = 1 /\
    WavLayout.le_value (take 2 (drop 22 wav)) = 2 /\
    WavLayout.le_value (take 4 (drop 24 wav)) = 24000 /\
    WavLayout.le_value (take 4 (drop 28 wav)) = 96000 /\
    WavLayout.le_value (take 2 (drop 32 wav)) = 4 /\
    WavLayout.le_value (take 2 (drop 34 wav)) = 16 /\
    take 4 (drop 36 wav) = ["d"; "a"; "t"; "a"]%byte /\
    WavLayout.le_value (take 4 (drop 40 wav)) = 444 - 44 /\
    length (drop 44 wav) = 400%nat.
Proof.
  apply (wav_header_exactness silent_stereo_100 101);
    [reflexivity | reflexivity | reflexivity | lia].
Defined.

(** ** Per-sample quantisation *)

Module QuantizeFacts.
Import Num.

Lemma Qle_bool_spec (a b : Q) : reflect (a <= b)%Q (Qle_bool a b).
Proof.
  destruct (Qle_bool a b) eqn:E; constructor.
  - now apply Qle_bool_iff.
  - intros Hle. apply Qle_bool_iff in Hle. congruence.
Qed.

Lemma ltb_spec (a b : Q) : reflect (a < b)%Q (ltb a b).
Proof.
  unfold ltb. destruct (Qle_bool_spec b a); constructor.
  - now apply Qle_not_lt.
  - now apply Qnot_le_lt.
Qed.

Lemma clamp_range (x : Q) :
  (-1 <= Math_max (-1) (Math_min 1 x) <= 1)%Q.
Proof.
  unfold Math_max, Math_min.
  destruct (Qle_bool_spec 1 x) as [H1|H1].
  - destruct (Qle_bool_spec (-1) 1) as [H2|H2]; split; easy.
  - apply Qnot_le_lt, Qlt_le_weak in H1.
    destruct (Qle_bool_spec (-1) x) as [H2|H2]; split; easy.
Qed.

Lemma trunc_nonneg (y : Q) : (0 <= y)%Q -> trunc y = Qfloor y.
Proof.
  destruct y as [n d]. unfold Qle, trunc, Qfloor. simpl. intros Hn.
  apply Z.quot_div_nonneg; lia.
Qed.

Lemma trunc_nonpos (y : Q) : (y <= 0)%Q -> trunc y = Qceiling y.
Proof.
  destruct y as [n d]. unfold Qle, trunc, Qceiling, Qfloor. simpl. intros Hn.
  rewrite <- (Z.opp_involutive n) at 1.
  rewrite Z.quot_opp_l by lia. rewrite Z.quot_div_nonneg by lia.
  reflexivity.
Qed.

Lemma scale_nonpos (c k : Q) : (c <= 0 -> 0 <= k -> c * k <= 0)%Q.
Proof.
  intros Hc Hk. rewrite <- (Qmult_0_l k). now apply Qmult_le_compat_r.
Qed.

Lemma scale_nonneg (c k : Q) : (0 <= c -> 0 <= k -> 0 <= c * k)%Q.
Proof. apply Qmult_le_0_compat. Qed.

Lemma bitor0_small (y : Q) :
  - 2 ^ 31 <= trunc y < 2 ^ 31 -> bitor0 y = trunc y.
Proof.
  intros Hy. unfold bitor0, ToInt32.
  rewrite NumFacts.wrap_signed_small by lia. apply Z.lor_0_r.
Qed.

Lemma truncated_range (x : Q) : -32768 <= truncated x <= 32767.
Proof.
  unfold truncated. pose proof (clamp_range x) as [Hlo Hhi].
  set (c := Math_max (-1) (Math_min 1 x)) in *.
  destruct (ltb_spec c 0) as [Hneg|Hpos].
  - split.
    + change (-32768) with (Qceiling (-1 * 32768)).
      apply Qceiling_resp_le. now apply Qmult_le_compat_r.
    + assert (Hc : Qceiling (c * 32768) <= Qceiling 0);
        [|change (Qceiling 0) with 0 in Hc; lia].
      apply Qceiling_resp_le, scale_nonpos; [now apply Qlt_le_weak | easy].
  - apply Qnot_lt_le in Hpos. split.
    + assert (Hc : Qfloor 0 <= Qfloor (c * 32767));
        [|change (Qfloor 0) with 0 in Hc; lia].
      apply Qfloor_resp_le. now apply scale_nonneg.
    + change 32767 with (Qfloor (1 * 32767)).
      apply Qfloor_resp_le. now apply Qmult_le_compat_r.
Qed.

Lemma quantize_truncated (x : Q) : Wav.quantize x = truncated x.
Proof.
  pose proof (truncated_range x) as Hr. revert Hr.
  unfold Wav.quantize, truncated. pose proof (clamp_range x) as [Hlo Hhi].
  set (c := Math_max (-1) (Math_min 1 x)) in *.
  destruct (ltb_spec c 0) as [Hneg|Hpos]; intros Hr.
  - assert (Ht : trunc (c * 32768) = Qceiling (c * 32768)).
    { apply trunc_nonpos, scale_nonpos; [now apply Qlt_le_weak | easy]. }
    rewrite bitor0_small; rewrite Ht; [easy | lia].
  - apply Qnot_lt_le in Hpos.
    assert (Ht : trunc (c * 32767) = Qfloor (c * 32767)).
    { now apply trunc_nonneg, scale_nonneg. }
    rewrite bitor0_small; rewrite Ht; [easy | lia].
Qed.

End QuantizeFacts.

(** C2, as stated, fails: the sample 0.25 scales to 8191.75, which rounds
    to 8192, while the encoder stores 8191. *)
Lemma quantize_is_not_rounding :
  Wav.quantize (1 # 4) = 8191 /\ quantize_rounding (1 # 4) = 8192.
Proof. split; reflexivity. Qed.

(** C2, amended. Every sample is clamped to [-1, 1]; a negative value is
    scaled by 32768 and a non-negative one by 32767, and the product is
    truncated toward zero, with no rounding to nearest. The result lies in
    [-32768, 32767], so neither [| 0] nor the 16-bit store wraps; a sample
    of 1.5 is stored as the same integer as 1.0, namely 32767. *)
Theorem quantize_clamps_and_truncates (x : Q) :
  let c := Num.Math_max (-1) (Num.Math_min 1 x) in
  (-1 <= c <= 1)%Q /\
  Wav.quantize x =
    (if Num.ltb c 0 then Qceiling (c * 32768) else Qfloor (c * 32767)) /\
  -32768 <= Wav.quantize x <= 32767 /\
  Num.wrap_signed 16 (Wav.quantize x) = Wav.quantize x /\
  Wav.quantize (3 # 2) = Wav.quantize 1 /\ Wav.quantize 1 = 32767.
Proof.
  intros c. pose proof (QuantizeFacts.truncated_range x) as Hr.
  rewrite <- QuantizeFacts.quantize_truncated in Hr.
  repeat split; try lia.
  - apply QuantizeFacts.clamp_range.
  - apply QuantizeFacts.clamp_range.
  - apply QuantizeFacts.quantize_truncated.
  - apply NumFacts.wrap_signed_small; [lia | simpl; lia].
Qed.

(** ** Decoding a sample and encoding it again *)

Lemma quantize_decoded (s : Z) :
  -32768 <= s <= 32767 ->
  Wav.quantize (inject_Z s / 32768) = requantized s.
Proof.
  intros Hs. rewrite QuantizeFacts.quantize_truncated.
  unfold truncated.
  set (x := (inject_Z s / 32768)%Q).
  assert (Hx : x = Qmake s 32768).
  { unfold x, Qdiv, Qmult, Qinv, inject_Z. simpl. f_equal. lia. }
  assert (Hmin : Num.Math_min 1 x = x).
  { unfold Num.Math_min. destruct (QuantizeFacts.Qle_bool_spec 1 x) as [H|H];
      [|easy].
    rewrite Hx in H. unfold Qle in H. simpl in H. lia. }
  assert (Hmax : Num.Math_max (-1) x = x).
  { unfold Num.Math_max. destruct (QuantizeFacts.Qle_bool_spec (-1) x) as [H|H];
      [easy|].
    exfalso. apply H. rewrite Hx. unfold Qle. simpl. lia. }
  rewrite Hmin, Hmax. unfold requantized.
  destruct (QuantizeFacts.ltb_spec x 0) as [Hneg|Hpos].
  - rewrite Hx in Hneg. unfold Qlt in Hneg. simpl in Hneg.
    destruct (Z.ltb_spec 0 s); [lia|].
    rewrite Hx. unfold Qceiling, Qfloor, Qopp, Qmult. simpl.
    assert (Hd : (- (s * 32768)) / 32768 = - s).
    { replace (- (s * 32768)) with ((- s) * 32768) by lia.
      apply Z.div_mul. lia. }
    change (Z.pos (32768 * 1)) with 32768. rewrite Hd. lia.
  - apply Qnot_lt_le in Hpos. rewrite Hx in Hpos. unfold Qle in Hpos.
    simpl in Hpos. rewrite Hx. unfold Qfloor, Qmult. simpl.
    change (Z.pos (32768 * 1)) with 32768.
    destruct (Z.ltb_spec 0 s).
    + symmetry. apply (Z.div_unique_pos _ _ _ (32768 - s)); lia.
    + replace s with 0 by lia. reflexivity.
Qed.

(** *** Agreement with double precision *)

Lemma holds_on_block_sound (P : Z -> bool) (n : nat) :
  forall lo, Ieee.holds_on_block n lo P = true ->
  forall z, lo <= z < lo + 2 ^ Z.of_nat n -> P z = true.
Proof.
  induction n as [|n IH]; intros lo Hb z Hz.
  - simpl in *. replace z with lo by lia. exact Hb.
  - cbn [Ieee.holds_on_block] in Hb. apply andb_prop in Hb as [H1 H2].
    assert (E : 2 ^ Z.of_nat (S n) = 2 * 2 ^ Z.of_nat n).
    { rewrite Nat2Z.inj_succ. apply Z.pow_succ_r. lia. }
    destruct (Z.lt_ge_cases z (lo + 2 ^ Z.of_nat n)).
    + apply (IH lo); [easy | lia].
    + apply (IH (lo + 2 ^ Z.of_nat n)); [easy | lia].
Qed.

Lemma ieee_round_trip_checked :
  Ieee.holds_on_block 16 (-32768)
    (fun s => Ieee.quantize (Ieee.decode_sample s) =? requantized s) = true.
Proof. vm_compute. reflexivity. Qed.

(** On every 16-bit sample the double-precision computation and the
    rational model store the same integer. *)
Lemma quantize_decoded_ieee (s : Z) :
  -32768 <= s <= 32767 ->
  Ieee.quantize (Ieee.decode_sample s) = Wav.quantize (inject_Z s / 32768).
Proof.
  intros Hs. rewrite quantize_decoded by easy. apply Z.eqb_eq.
  apply (holds_on_block_sound _ 16 (-32768) ieee_round_trip_checked).
  change (2 ^ Z.of_nat 16) with 65536. lia.
Qed.

(** ** The Interpreter's output, sample for sample *)

Module DecodeFacts.
Import TypedArray.

(** A loop that rewrites cell [j] at step [j], run at least to the end of a
    freshly allocated array, fills it. *)
Lemma for_loop_fill {A} (d z : A) (g : Z -> A -> A) (m : Z) (n : nat) :
  Z.of_nat n <= m ->
  for_loop m (fun j l => set l j (g j (get d l j))) (replicate n z) =
  (fun j => g j z) <$> zseq (Z.of_nat n).
Proof.
  intros Hm.
  change (for_loop m (fun j l => set l j (g j (get d l j))) (replicate n z))
    with (for_loop m (fun j l => set l (0 + j) (g j (get d l (0 + j))))
      (replicate n z)).
  rewrite TypedArrayFacts.for_loop_update by lia.
  apply list_eq. intros k.
  rewrite list_lookup_imap, list_lookup_fmap.
  destruct (decide (k < n)%nat) as [Hk|Hk].
  - rewrite lookup_replicate_2 by easy. rewrite lookup_zseq by lia. simpl.
    destruct (Z.leb_spec 0 (Z.of_nat k)); [|lia].
    destruct (Z.ltb_spec (Z.of_nat k) (0 + m)); [|lia].
    simpl. do 2 f_equal. lia.
  - rewrite (proj1 (lookup_replicate_None _ _ _)) by lia.
    unfold zseq. rewrite list_lookup_fmap, lookup_seq_ge by lia. reflexivity.
Qed.

Lemma Int16Array_elems_length (bs : list byte) :
  length (Int16Array_elems bs) = (length bs / 2)%nat.
Proof.
  induction bs as [bs IH] using (induction_ltof1 _ (@length byte)).
  unfold ltof in IH.
  destruct bs as [|lo [|hi rest]]; try reflexivity.
  cbn [Int16Array_elems length]. rewrite IH by (simpl; lia).
  change (S (S (length rest))) with (2 + length rest)%nat.
  replace (2 + length rest)%nat with (length rest + 1 * 2)%nat by lia.
  rewrite Nat.div_add by lia. lia.
Qed.

Lemma trunc_Zdiv (n d : Z) :
  0 <= n -> 0 < d -> Num.trunc (inject_Z n / inject_Z d) = n / d.
Proof.
  intros Hn Hd. rewrite QuantizeFacts.trunc_nonneg.
  - symmetry. apply Zdiv_Qdiv.
  - apply Qle_shift_div_l.
    + change 0%Q with (inject_Z 0). now rewrite <- Zlt_Qlt.
    + rewrite Qmult_0_l. change 0%Q with (inject_Z 0). now rewrite <- Zle_Qle.
Qed.

Lemma ceiling_Zdiv (n d : Z) : n / d <= Qceiling (inject_Z n / inject_Z d).
Proof. rewrite Zdiv_Qdiv, Zle_Qle. apply Qle_floor_ceiling. Qed.

Lemma decode_returns (data : list byte) (rate numChannels : Z) :
  Z.even (Z.of_nat (length data)) = true ->
  1 <= numChannels ->
  2 * numChannels <= Z.of_nat (length data) ->
  decodePCMToAudioBuffer data rate numChannels =
  Returns (decoded_buffer (Int16Array_elems data) rate numChannels).
Proof.
  intros Heven Hnc Hlen. unfold decodePCMToAudioBuffer, new_Int16Array.
  rewrite Heven, bind_Returns.
  set (d16 := Int16Array_elems data).
  assert (Hd16 : 2 * Z.of_nat (length d16) = Z.of_nat (length data)).
  { unfold d16. rewrite Int16Array_elems_length.
    apply Z.even_spec in Heven. destruct Heven as [h Hh].
    rewrite Nat2Z.inj_div, Hh. change (Z.of_nat 2) with 2.
    rewrite (Z.mul_comm 2 h), Z.div_mul by lia. lia. }
  set (frames := Z.of_nat (length d16) / numChannels).
  assert (Hframes : 1 <= frames).
  { unfold frames. apply Z.div_le_lower_bound; lia. }
  unfold new_AudioBuffer. rewrite trunc_Zdiv by lia. fold frames.
  destruct (Z.ltb_spec numChannels 1); [lia|].
  destruct (Z.ltb_spec frames 1); [lia|].
  simpl orb. cbv iota. rewrite bind_Returns. simpl ab_length.
  simpl sampleRate. simpl channelData.
  unfold decoded_buffer. fold d16. fold frames. do 2 f_equal.
  rewrite (for_loop_fill [] (new_Float32Array frames)
      (fun channel cd =>
        decode_channel d16 numChannels
        (inject_Z (Z.of_nat (length d16)) / inject_Z numChannels)
        channel cd)) by lia.
  rewrite Z2Nat.id by lia.
  apply list_fmap_ext. intros _ c _.
  unfold decode_channel, new_Float32Array.
  rewrite (for_loop_fill 0%Q 0%Q
      (fun i _ => (inject_Z (get 0%Z d16 (i * numChannels + c))
          / 32768)%Q)).
  - rewrite Z2Nat.id by lia. reflexivity.
  - rewrite Z2Nat.id by lia. apply ceiling_Zdiv.
Qed.

Lemma lookup_zseq_inv (n : Z) (k : nat) (x : Z) :
  zseq n !! k = Some x -> x = Z.of_nat k /\ 0 <= x < n.
Proof.
  unfold zseq. rewrite list_lookup_fmap. intros Hx.
  destruct (seq 0 (Z.to_nat n) !! k) as [j|] eqn:Hj; [|easy].
  apply lookup_seq in Hj. simpl in Hx. injection Hx as <-. lia.
Qed.

Lemma get_fmap_zseq {A} (d : A) (f : Z -> A) (n i : Z) :
  0 <= i < n -> get d (f <$> zseq n) i = f i.
Proof.
  intros Hi. apply TypedArrayFacts.get_lookup; [lia|].
  rewrite list_lookup_fmap, lookup_zseq by lia. simpl. f_equal. f_equal. lia.
Qed.

Lemma get_take {A} (d : A) (l : list A) (m : nat) (i : Z) :
  i < Z.of_nat m -> get d (take m l) i = get d l i.
Proof.
  intros Hi. unfold get. destruct (i <? 0) eqn:E; [easy|].
  apply Z.ltb_ge in E. rewrite !nth_lookup, lookup_take_lt by lia.
  reflexivity.
Qed.

Lemma Int16Array_elems_take (bs : list byte) (m : nat) :
  Int16Array_elems (take (2 * m) bs) = take m (Int16Array_elems bs).
Proof.
  revert bs. induction m as [|m IH]; intros bs; [easy|].
  replace (2 * S m)%nat with (S (S (2 * m))) by lia.
  destruct bs as [|lo [|hi rest]]; try reflexivity.
  cbn [take Int16Array_elems]. now rewrite IH.
Qed.

Lemma decoded_buffer_wf (d16 : list Z) (rate numChannels : Z) :
  1 <= numChannels -> wf_buffer (decoded_buffer d16 rate numChannels).
Proof.
  intros Hnc. unfold wf_buffer, decoded_buffer, numberOfChannels. simpl.
  assert (Hf : 0 <= Z.of_nat (length d16) / numChannels)
    by (apply Z.div_pos; lia).
  repeat split; try easy.
  - rewrite length_fmap, length_zseq. lia.
  - apply Forall_fmap, Forall_forall. intros c _. simpl.
    rewrite length_fmap, length_zseq. lia.
Qed.

(** Samples beyond the last whole frame do not reach the buffer. *)
Lemma decoded_buffer_prefix (d16 : list Z) (rate numChannels : Z) :
  1 <= numChannels ->
  let frames := Z.of_nat (length d16) / numChannels in
  decoded_buffer (take (Z.to_nat (frames * numChannels)) d16) rate numChannels
  = decoded_buffer d16 rate numChannels.
Proof.
  intros Hnc frames.
  assert (Hf : 0 <= frames) by (apply Z.div_pos; lia).
  assert (Hle : frames * numChannels <= Z.of_nat (length d16)).
  { unfold frames. rewrite Z.mul_comm. apply Z.mul_div_le. lia. }
  unfold decoded_buffer. rewrite length_take.
  replace (Z.of_nat (Z.to_nat (frames * numChannels) `min` length d16))
    with (frames * numChannels) by lia.
  rewrite Z.div_mul by lia. fold frames. f_equal.
  apply list_fmap_ext. intros k c Hc. apply lookup_zseq_inv in Hc as [_ Hc].
  apply list_fmap_ext. intros k' i Hi. apply lookup_zseq_inv in Hi as [_ Hi].
  unfold decoded_sample. rewrite get_take; [easy|]. nia.
Qed.

End DecodeFacts.

(** ** Misaligned input *)

Lemma Int16Array_elems_length_even (data : list byte) :
  Z.even (Z.of_nat (length data)) = true ->
  2 * Z.of_nat (length (TypedArray.Int16Array_elems data))
  = Z.of_nat (length data).
Proof.
  intros Heven. rewrite DecodeFacts.Int16Array_elems_length.
  apply Z.even_spec in Heven. destruct Heven as [h Hh].
  rewrite Nat2Z.inj_div, Hh. change (Z.of_nat 2) with 2.
  rewrite (Z.mul_comm 2 h), Z.div_mul by lia. lia.
Qed.

Lemma decode_odd_length (data : list byte) (rate numChannels : Z) :
  Z.even (Z.of_nat (length data)) = false ->
  decodePCMToAudioBuffer data rate numChannels = Throws RangeError.
Proof.
  intros Hodd. unfold decodePCMToAudioBuffer, TypedArray.new_Int16Array.
  now rewrite Hodd.
Qed.

(** C3, as stated, fails: three bytes are not a multiple of the two-byte
    mono frame, and the Interpreter raises a [RangeError] when it builds
    the 16-bit view instead of truncating. *)
Lemma decode_rejects_odd_length :
  Z.of_nat (length [x01; x00; x02]) mod (2 * 1) <> 0 /\
  decodePCMToAudioBuffer [x01; x00; x02] 24000 1 = Throws RangeError.
Proof. split; [easy | reflexivity]. Qed.

(** C3, amended. For every byte buffer of even length that holds at least
    one whole frame, aligned to [2 * numChannels] or not, and a sample rate
    and a channel count that every platform supports, the Interpreter does
    not fail: it returns a well-formed buffer of
    [floor (length / (2 * numChannels))] frames, the same buffer it returns
    for the input cut down to that many whole frames. *)
Theorem decode_truncates_to_whole_frames (data : list byte)
    (rate numChannels : Z) :
  1 <= numChannels ->
  createBuffer_supported numChannels rate ->
  Z.even (Z.of_nat (length data)) = true ->
  2 * numChannels <= Z.of_nat (length data) ->
  let frames := Z.of_nat (length data) / (2 * numChannels) in
  exists b,
    decodePCMToAudioBuffer data rate numChannels = Returns b /\
    wf_buffer b /\
    ab_length b = frames /\
    numberOfChannels b = numChannels /\
    sampleRate b = rate /\
    decodePCMToAudioBuffer (take (Z.to_nat (frames * (2 * numChannels))) data)
      rate numChannels = Returns b.
Proof.
  intros Hnc _ Heven Hlen frames.
  pose proof (Int16Array_elems_length_even data Heven) as Hd16.
  set (d16 := TypedArray.Int16Array_elems data) in *.
  assert (Hframes : frames = Z.of_nat (length d16) / numChannels).
  { unfold frames. rewrite <- Hd16, <- Z.div_div by lia.
    now rewrite (Z.mul_comm 2), Z.div_mul by lia. }
  assert (Hf1 : 1 <= frames).
  { unfold frames. apply Z.div_le_lower_bound; lia. }
  assert (Hfit : frames * numChannels <= Z.of_nat (length d16)).
  { rewrite Hframes, Z.mul_comm. apply Z.mul_div_le. lia. }
  exists (decoded_buffer d16 rate numChannels).
  split; [now apply DecodeFacts.decode_returns|].
  split; [now apply DecodeFacts.decoded_buffer_wf|].
  split; [now rewrite Hframes|].
  split.
  { unfold numberOfChannels, decoded_buffer. simpl.
    rewrite length_fmap, length_zseq. lia. }
  split; [reflexivity|].
  set (m := Z.to_nat (frames * numChannels)).
  assert (Hm : Z.to_nat (frames * (2 * numChannels)) = (2 * m)%nat)
    by (unfold m; lia).
  rewrite Hm, DecodeFacts.decode_returns.
  - rewrite DecodeFacts.Int16Array_elems_take. fold d16. unfold m.
    rewrite Hframes. now rewrite DecodeFacts.decoded_buffer_prefix.
  - rewrite length_take.
    replace (Z.of_nat ((2 * m) `min` length data)) with (2 * Z.of_nat m)
      by (unfold m; lia).
    rewrite Z.even_mul. reflexivity.
  - easy.
  - rewrite length_take. unfold m. nia.
Qed.

Lemma decode_truncates_to_whole_frames_witness :
  exists b,
    decodePCMToAudioBuffer [x01; x00; xff; xff; x00; x80] 24000 2
      = Returns b /\
    wf_buffer b /\
    ab_length b = 1 /\
    numberOfChannels b = 2 /\
    sampleRate b = 24000 /\
    decodePCMToAudioBuffer [x01; x00; xff; xff] 24000 2 = Returns b.
Proof.
  apply (decode_truncates_to_whole_frames
      [x01; x00; xff; xff; x00; x80] 24000 2);
    [lia | unfold createBuffer_supported; lia | reflexivity | simpl; lia].
Defined.

(** ** Round trip through the Interpreter and the Encoder *)

Module RoundTrip.
Import TypedArray.

Lemma concat_fmap_concat {A B C} (g : B -> list C) (L : A -> list B)
  (I : list A) :
  concat ((fun i => concat (g <$> L i)) <$> I) = concat (g <$> concat (L <$> I)).
Proof.
  induction I as [|i I IH]; [easy|].
  rewrite !fmap_cons. cbn [concat]. now rewrite fmap_app, concat_app, IH.
Qed.

Lemma le_value_u16 (u : Z) :
  0 <= u < 65536 ->
  Num.Z_of_byte (Num.byte_of_Z (u / 256 ^ 0))
  + 256 * Num.Z_of_byte (Num.byte_of_Z (u / 256 ^ 1)) = u.
Proof.
  intros Hu. rewrite !NumFacts.Z_of_byte_of_Z.
  change (256 ^ 0) with 1. change (256 ^ 1) with 256. rewrite Z.div_1_r.
  rewrite (Z.mod_small (u / 256)).
  - rewrite Z.add_comm. symmetry. apply Z.div_mod. lia.
  - split; [apply Z.div_pos; lia | apply Z.div_lt_upper_bound; lia].
Qed.

Lemma Int16Array_elems_sample_bytes (xs : list Q) :
  Int16Array_elems (concat (WavLayout.sample_bytes <$> xs)) =
  (fun x => Num.wrap_signed 16 (Wav.quantize x)) <$> xs.
Proof.
  induction xs as [|x xs IH]; [easy|].
  rewrite !fmap_cons. cbn [concat].
  unfold WavLayout.sample_bytes at 1, Wav.le_bytes.
  cbn [seq fmap list_fmap app Int16Array_elems].
  rewrite IH. f_equal.
  unfold int16_of_le. change (Z.of_nat 0) with 0. change (Z.of_nat 1) with 1.
  rewrite le_value_u16.
  - rewrite NumFacts.wrap_signed_unsigned by lia.
    apply NumFacts.wrap_signed_small; [lia|].
    apply NumFacts.wrap_signed_range. lia.
  - unfold Num.wrap_unsigned. apply Z.mod_pos_bound. lia.
Qed.

Lemma zseq_add (a b : Z) :
  0 <= a -> 0 <= b -> zseq (a + b) = zseq a ++ ((fun j => a + j) <$> zseq b).
Proof.
  intros Ha Hb. unfold zseq. rewrite Z2Nat.inj_add by lia.
  rewrite seq_app, fmap_app. f_equal. simpl.
  replace (Z.to_nat a) with (Z.to_nat a + 0)%nat at 1 by lia.
  rewrite <- fmap_add_seq, <- !list_fmap_compose.
  apply list_fmap_ext. intros _ j _. simpl. lia.
Qed.

(** Frame-major interleaving enumerates the sample indices in order. *)
Lemma interleave_indices {A} (h : Z -> A) (nc F : Z) :
  0 <= nc -> 0 <= F ->
  concat ((fun i => (fun c => h (i * nc + c)) <$> zseq nc) <$> zseq F)
  = h <$> zseq (F * nc).
Proof.
  intros Hnc HF.
  apply (for_loop_ind
      (fun n (_ : unit) =>
        concat ((fun i => (fun c => h (i * nc + c)) <$> zseq nc)
          <$> zseq n) = h <$> zseq (n * nc))
      F (fun _ u => u) tt HF).
  - reflexivity.
  - intros i _ Hi IH. rewrite zseq_succ by lia.
    rewrite fmap_app, concat_app, IH. cbn [fmap list_fmap concat].
    rewrite app_nil_r.
    replace ((i + 1) * nc) with (i * nc + nc) by lia.
    rewrite zseq_add by nia. rewrite fmap_app. f_equal.
    now rewrite <- list_fmap_compose.
Qed.

Lemma fmap_get_zseq {A B} (d : A) (f : A -> B) (l : list A) :
  (fun k => f (get d l k)) <$> zseq (Z.of_nat (length l)) = f <$> l.
Proof.
  apply list_eq. intros k. rewrite !list_lookup_fmap.
  destruct (l !! k) as [x|] eqn:Hx.
  - assert (k < length l)%nat by (apply lookup_lt_is_Some; eauto).
    rewrite lookup_zseq by lia. simpl. f_equal. f_equal.
    apply TypedArrayFacts.get_lookup; [lia|]. now rewrite Nat2Z.id.
  - apply lookup_ge_None in Hx. unfold zseq.
    rewrite list_lookup_fmap, lookup_seq_ge by lia. reflexivity.
Qed.

Lemma Int16Array_elems_range (bs : list byte) :
  Forall (fun s => -32768 <= s <= 32767) (Int16Array_elems bs).
Proof.
  induction bs as [bs IH] using (induction_ltof1 _ (@length byte)).
  unfold ltof in IH.
  destruct bs as [|lo [|hi rest]]; try constructor.
  - unfold int16_of_le.
    pose proof (NumFacts.wrap_signed_range 16
        (Num.Z_of_byte lo + 256 * Num.Z_of_byte hi)) as Hr.
    change (2 ^ (16 - 1)) with 32768 in Hr. lia.
  - apply IH. simpl. lia.
Qed.

(** The samples the Encoder writes for a decoded buffer, read as 16-bit
    integers again. *)
Lemma encoded_decoded_samples (d16 : list Z) (rate numChannels : Z) :
  1 <= numChannels ->
  Forall (fun s => -32768 <= s <= 32767) d16 ->
  Z.of_nat (length d16) mod numChannels = 0 ->
  let b := decoded_buffer d16 rate numChannels in
  Int16Array_elems (WavLayout.data_bytes (channelData b) (ab_length b))
  = requantized <$> d16.
Proof.
  intros Hnc Hrange Hal b.
  set (frames := Z.of_nat (length d16) / numChannels).
  assert (Hf : 0 <= frames) by (apply Z.div_pos; lia).
  assert (Hfn : frames * numChannels = Z.of_nat (length d16)).
  { unfold frames. rewrite Z.mul_comm. symmetry.
    apply Z.div_exact; lia. }
  unfold b, decoded_buffer. fold frames. cbn [channelData ab_length].
  unfold WavLayout.data_bytes.
  assert (Hframe : forall k i, zseq frames !! k = Some i ->
      WavLayout.frame_bytes
      ((fun c => decoded_sample d16 numChannels c
          <$> zseq frames) <$> zseq numChannels) i
      = concat (WavLayout.sample_bytes <$>
        ((fun c => decoded_sample d16 numChannels c i)
          <$> zseq numChannels))).
  { intros k i Hi. apply DecodeFacts.lookup_zseq_inv in Hi as [_ Hi].
    unfold WavLayout.frame_bytes. f_equal.
    rewrite <- !list_fmap_compose. apply list_fmap_ext. intros _ c _. simpl.
    now rewrite DecodeFacts.get_fmap_zseq. }
  rewrite (list_fmap_ext _ _ _ Hframe).
  rewrite (concat_fmap_concat WavLayout.sample_bytes
      (fun i => (fun c => decoded_sample d16 numChannels c i)
        <$> zseq numChannels)).
  rewrite Int16Array_elems_sample_bytes.
  unfold decoded_sample.
  rewrite (interleave_indices
      (fun k => (inject_Z (get 0%Z d16 k) / 32768)%Q)) by lia.
  rewrite Hfn, <- list_fmap_compose.
  rewrite <- (fmap_get_zseq 0 requantized d16).
  apply list_fmap_ext. intros k j Hj. simpl.
  apply DecodeFacts.lookup_zseq_inv in Hj as [_ Hj].
  assert (Hs : -32768 <= get 0 d16 j <= 32767).
  { destruct (lookup_lt_is_Some_2 d16 (Z.to_nat j)) as [s Hs]; [lia|].
    rewrite (TypedArrayFacts.get_lookup 0 d16 j s) by (lia || easy).
    now apply (Forall_lookup_1 _ _ _ _ Hrange Hs). }
  rewrite quantize_decoded by easy.
  apply NumFacts.wrap_signed_small; [lia|].
  unfold requantized. change (2 ^ (16 - 1)) with 32768.
  destruct (Z.ltb_spec 0 (get 0 d16 j)); lia.
Qed.

End RoundTrip.

Lemma length_header_bytes (numOfChan rate len : Z) :
  length (WavLayout.header_bytes numOfChan rate len) = 44%nat.
Proof.
  unfold WavLayout.header_bytes.
  now rewrite !length_app, !WavFacts.length_u32, !WavFacts.length_u16.
Qed.

(** C1, as stated, fails: the one-sample stream holding the 16-bit value 1
    (far from the positive extreme) decodes to 1/32768, which the Encoder
    scales by 32767 and truncates to 0. *)
Lemma round_trip_loses_positive_sample :
  exists b wav,
    decodePCMToAudioBuffer [x01; x00] 24000 1 = Returns b /\
    Wav.audioBufferToWav 2 b = Returns wav /\
    TypedArray.Int16Array_elems [x01; x00] = [1] /\
    TypedArray.Int16Array_elems (drop 44 wav) = [0].
Proof.
  eexists. eexists. split; [vm_compute; reflexivity|].
  split; [vm_compute; reflexivity|]. split; reflexivity.
Qed.

(** C1, amended. For every non-empty byte sequence whose length is a
    multiple of [2 * numChannels], with a sample rate and a channel count
    that every platform supports, decoding it and encoding the resulting
    buffer succeeds, and the 16-bit samples of the produced data chunk are
    the original ones where these are zero or negative and the original
    minus one where they are positive ([requantized]): the positive scale
    32767 against the divisor 32768, followed by truncation, costs every
    positive sample one unit. *)
Theorem decode_encode_round_trip (data : list byte) (rate numChannels : Z)
    (fuel : nat) :
  1 <= numChannels ->
  createBuffer_supported numChannels rate ->
  (0 < length data)%nat ->
  Z.of_nat (length data) mod (2 * numChannels) = 0 ->
  (length data < fuel)%nat ->
  exists b wav,
    decodePCMToAudioBuffer data rate numChannels = Returns b /\
    Wav.audioBufferToWav fuel b = Returns wav /\
    TypedArray.Int16Array_elems (drop 44 wav)
    = requantized <$> TypedArray.Int16Array_elems data.
Proof.
  intros Hnc _ Hne Hal Hfuel.
  apply Z.mod_divide in Hal; [|lia]. destruct Hal as [q Hq].
  assert (Heven : Z.even (Z.of_nat (length data)) = true).
  { rewrite Hq, Z.mul_assoc, Z.mul_comm, Z.mul_assoc, Z.even_mul.
    rewrite Z.even_mul. simpl. now rewrite orb_true_r. }
  assert (Hq1 : 1 <= q) by nia.
  pose proof (Int16Array_elems_length_even data Heven) as Hd16.
  set (d16 := TypedArray.Int16Array_elems data) in *.
  assert (Hlen16 : Z.of_nat (length d16) = q * numChannels) by lia.
  set (b := decoded_buffer d16 rate numChannels).
  pose proof (DecodeFacts.decoded_buffer_wf d16 rate numChannels Hnc)
    as (Hb0 & Hb1 & _). fold b in Hb0, Hb1.
  assert (Hfr : ab_length b = q).
  { unfold b, decoded_buffer. simpl.
    rewrite Hlen16. apply Z.div_mul. lia. }
  exists b. eexists. split; [|split].
  - apply DecodeFacts.decode_returns; [easy | easy | nia].
  - apply WavFacts.audioBufferToWav_bytes; [easy | easy | nia].
  - rewrite drop_app_length' by (symmetry; apply length_header_bytes).
    apply RoundTrip.encoded_decoded_samples; [easy | |].
    + apply RoundTrip.Int16Array_elems_range.
    + fold d16. rewrite Hlen16. apply Z.mod_mul. lia.
Qed.

Lemma decode_encode_round_trip_witness :
  exists b wav,
    decodePCMToAudioBuffer [x01; x00; xff; xff; x00; x80; xff; x7f] 24000 2
      = Returns b /\
    Wav.audioBufferToWav 9 b = Returns wav /\
    TypedArray.Int16Array_elems (drop 44 wav)
    = requantized
      <$> TypedArray.Int16Array_elems
            [x01; x00; xff; xff; x00; x80; xff; x7f].
Proof.
  apply (decode_encode_round_trip
      [x01; x00; xff; xff; x00; x80; xff; x7f] 24000 2 9);
    [lia | unfold createBuffer_supported; lia | simpl; lia | reflexivity
    | simpl; lia].
Defined.

(** ** Time-Stretch Engine *)

Section EngineFacts.
Context `{Platform}.

Lemma length_ola_window (hann input : list Q) (i inputIdx : Z)
  (ow : list Q * list Q) :
  length (ola_window hann input i inputIdx ow).1 = length ow.1 /\
  length (ola_window hann input i inputIdx ow).2 = length ow.2.
Proof.
  unfold ola_window.
  apply (for_loop_ind
      (fun _ (t : list Q * list Q) =>
        length t.1 = length ow.1 /\ length t.2 = length ow.2)).
  - unfold windowSize. lia.
  - easy.
  - intros j [o w] _ [Ho Hw]. simpl in *.
    now rewrite !TypedArrayFacts.length_set.
Qed.

(** The synthesis loop returns when the hop is positive, and also when its
    condition fails at once; the arrays keep their lengths. *)
Lemma ola_loop_returns (ratio : Q) (hann input : list Q)
  (oldLength newLength outHopSize : Z) (fuel : nat) :
  forall (i : Z) (ow : list Q * list Q),
  1 <= outHopSize \/ newLength - windowSize <= i ->
  (Z.to_nat (newLength - windowSize - i) < fuel)%nat ->
  exists ow',
    ola_loop fuel ratio hann input oldLength newLength outHopSize i ow
      = Returns ow' /\
    length ow'.1 = length ow.1 /\ length ow'.2 = length ow.2.
Proof.
  induction fuel as [|fuel IH]; intros i ow Hhop Hfuel; [lia|].
  cbn [ola_loop].
  destruct (Z.ltb_spec i (newLength - windowSize)) as [Hi|Hi];
    [|now exists ow].
  destruct (Z.gtb_spec (Qfloor (inject_Z i * ratio) + windowSize) oldLength);
    [now exists ow|].
  destruct Hhop as [Hhop|Hhop]; [|lia].
  destruct (IH (i + outHopSize)
      (ola_window hann input i (Qfloor (inject_Z i * ratio)) ow))
    as (ow' & Hrun & Ho & Hw); [lia | lia |].
  exists ow'. split; [exact Hrun|].
  destruct (length_ola_window hann input i (Qfloor (inject_Z i * ratio)) ow)
    as [Ho' Hw'].
  split; congruence.
Qed.

(** With a zero hop the loop never leaves a position it can process. *)
Lemma ola_loop_stuck (ratio : Q) (hann input : list Q)
  (oldLength newLength i : Z) (fuel : nat) :
  i < newLength - windowSize ->
  Qfloor (inject_Z i * ratio) + windowSize <= oldLength ->
  forall ow : list Q * list Q,
  ola_loop fuel ratio hann input oldLength newLength 0 i ow = OutOfFuel.
Proof.
  intros Hi Hin. induction fuel as [|fuel IH]; intros ow; [reflexivity|].
  cbn [ola_loop].
  destruct (Z.ltb_spec i (newLength - windowSize)); [|lia].
  destruct (Z.gtb_spec (Qfloor (inject_Z i * ratio) + windowSize) oldLength);
    [lia|].
  rewrite Z.add_0_r. apply IH.
Qed.

Lemma length_normalize (newLength : Z) (weights output : list Q) :
  length (normalize newLength weights output) = length output.
Proof.
  unfold normalize.
  destruct (Z.le_gt_cases 0 newLength) as [Hn|Hn].
  - apply (for_loop_ind (fun _ t => length t = length output)); try easy.
    intros i t _ Ht. destruct (Num.ltb _ _); [|easy].
    now rewrite TypedArrayFacts.length_set.
  - now rewrite for_loop_nonpos by lia.
Qed.

(** The per-channel loop of [timeStretch], when every channel returns. *)
Lemma channel_loop_returns {A} (d : A) (F : Z -> A -> outcome A)
  (G : Z -> A) (init : list A) :
  (forall c, 0 <= c < Z.of_nat (length init) ->
           F c (TypedArray.get d init c) = Returns (G c)) ->
  for_loop (Z.of_nat (length init))
  (fun channel acc =>
     chans ← acc;
     output ← F channel (TypedArray.get d chans channel);
     mret (TypedArray.set chans channel output))
  (mret init)
  = Returns (G <$> zseq (Z.of_nat (length init))).
Proof.
  intros HF.
  set (n := Z.of_nat (length init)).
  pose (P := fun (i : Z) (acc : outcome (list A)) =>
      acc = Returns (take (Z.to_nat i) (G <$> zseq n)
        ++ drop (Z.to_nat i) init)).
  assert (HP :
      P n (for_loop n
        (fun channel acc =>
          chans ← acc;
          output ← F channel (TypedArray.get d chans channel);
          mret (TypedArray.set chans channel output))
        (mret init))).
  { apply (for_loop_ind P); [lia | reflexivity |].
    intros i t Hi Ht. unfold P in *. subst t. rewrite bind_Returns.
    assert (Hlen : length (take (Z.to_nat i) (G <$> zseq n)) = Z.to_nat i).
    { rewrite length_take, length_fmap, length_zseq. lia. }
    destruct (lookup_lt_is_Some_2 init (Z.to_nat i)) as [x Hx]; [lia|].
    assert (Hget : TypedArray.get d
        (take (Z.to_nat i) (G <$> zseq n)
          ++ drop (Z.to_nat i) init) i = TypedArray.get d init i).
    { rewrite (TypedArrayFacts.get_lookup d init i x) by (lia || easy).
      apply TypedArrayFacts.get_lookup; [lia|].
      rewrite lookup_app_r by lia. rewrite Hlen, Nat.sub_diag.
      now rewrite lookup_drop, Nat.add_0_r. }
    rewrite Hget, HF by lia. rewrite bind_Returns.
    unfold mret, outcome_ret. f_equal. unfold TypedArray.set.
    destruct (Z.ltb_spec i 0); [lia|].
    replace (Z.to_nat i) with (length (take (Z.to_nat i) (G <$> zseq n)) + 0)%nat
      at 1 by lia.
    rewrite insert_app_r. rewrite (drop_S _ x _ Hx). cbn [insert list_insert].
    replace (Z.to_nat (i + 1)) with (S (Z.to_nat i)) by lia.
    erewrite take_S_r.
    2:{ rewrite list_lookup_fmap, lookup_zseq by lia. simpl.
      rewrite Z2Nat.id by lia. reflexivity. }
    now rewrite <- app_assoc. }
  unfold P in HP. rewrite HP. unfold n. rewrite Nat2Z.id.
  rewrite drop_all, app_nil_r. apply f_equal, take_ge.
  rewrite length_fmap, length_zseq. lia.
Qed.

(** The per-channel loop, when the first channel already runs out of
    fuel. *)
Lemma channel_loop_diverges {A} (d : A) (F : Z -> A -> outcome A)
  (init : list A) (n : Z) :
  1 <= n ->
  F 0 (TypedArray.get d init 0) = OutOfFuel ->
  for_loop n
  (fun channel acc =>
     chans ← acc;
     output ← F channel (TypedArray.get d chans channel);
     mret (TypedArray.set chans channel output))
  (mret init)
  = OutOfFuel.
Proof.
  intros Hn HF.
  assert (HP :
      (fun i acc => (i = 0 /\ acc = Returns init) \/ (1 <= i /\ acc = OutOfFuel))
      n (for_loop n
        (fun channel acc =>
          chans ← acc;
          output ← F channel (TypedArray.get d chans channel);
          mret (TypedArray.set chans channel output))
        (mret init))).
  { apply for_loop_ind; [lia | now left |].
    intros i t Hi [[-> ->]|[Hi1 ->]]; right; split; try lia.
    - rewrite bind_Returns, HF. reflexivity.
    - reflexivity. }
  destruct HP as [[? _]|[_ ?]]; [lia | easy].
Qed.

Lemma trunc_inject_Z (n : Z) : Num.trunc (inject_Z n) = n.
Proof. unfold Num.trunc. simpl. apply Z.quot_1_r. Qed.

Lemma newLength_of_pos (oldLength : Z) (ratio : Q) :
  1 <= newLength_of oldLength ratio.
Proof. unfold newLength_of. lia. Qed.

Lemma new_AudioBuffer_returns (numChannels n rate : Z) :
  1 <= numChannels -> 1 <= n ->
  new_AudioBuffer numChannels (inject_Z n) rate =
  Returns {| ab_length := n; sampleRate := rate;
           channelData := replicate (Z.to_nat numChannels)
                            (TypedArray.new_Float32Array n) |}.
Proof.
  intros Hc Hn. unfold new_AudioBuffer. rewrite trunc_inject_Z.
  destruct (Z.ltb_spec numChannels 1); [lia|].
  destruct (Z.ltb_spec n 1); [lia|]. reflexivity.
Qed.

(** [timeStretch] past the fast path and the allocation of the output. *)
Lemma timeStretch_slow_path (fuel : nat) (b : AudioBuffer) (r : Q) :
  1 <= numberOfChannels b ->
  ~ (r == 0)%Q -> ~ (Qabs (r - 1) < 0.001)%Q ->
  timeStretch fuel b r =
  (chans ← for_loop (numberOfChannels b)
           (fun channel acc =>
              chans ← acc;
              output ← stretch_channel fuel r hann_window
                         (getChannelData b channel) (ab_length b)
                         (newLength_of (ab_length b) r) (outHopSize_of r)
                         (TypedArray.get [] chans channel);
              mret (TypedArray.set chans channel output))
           (mret (replicate (Z.to_nat (numberOfChannels b))
                    (TypedArray.new_Float32Array
                       (newLength_of (ab_length b) r))));
  mret {| ab_length := newLength_of (ab_length b) r;
         sampleRate := sampleRate b;
         channelData := chans |}).
Proof.
  intros Hc Hr0 Hslow. unfold timeStretch.
  destruct (QuantizeFacts.ltb_spec (Qabs (r - 1)) 0.001); [easy|].
  destruct (Qeq_bool r 0) eqn:E; [now apply Qeq_bool_iff in E|].
  rewrite new_AudioBuffer_returns by (easy || apply newLength_of_pos).
  reflexivity.
Qed.

Lemma stretch_channel_returns (fuel : nat) (ratio : Q)
  (hann input : list Q) (oldLength newLength outHopSize : Z)
  (output : list Q) :
  1 <= outHopSize \/ newLength <= windowSize ->
  (Z.to_nat newLength < fuel)%nat ->
  exists o,
  stretch_channel fuel ratio hann input oldLength newLength outHopSize
    output = Returns o /\
  length o = length output.
Proof.
  intros Hhop Hfuel. unfold stretch_channel.
  destruct (ola_loop_returns ratio hann input oldLength newLength outHopSize
      fuel 0 (output, TypedArray.new_Float32Array newLength))
    as ([o w] & Hrun & Ho & _).
  - destruct Hhop; [now left | right; lia].
  - unfold windowSize. lia.
  - rewrite Hrun, bind_Returns. eexists. split; [reflexivity|].
    now rewrite length_normalize.
Qed.

Lemma timeStretch_returns (fuel : nat) (b : AudioBuffer) (r : Q) :
  1 <= numberOfChannels b ->
  ~ (r == 0)%Q -> ~ (Qabs (r - 1) < 0.001)%Q ->
  1 <= outHopSize_of r \/ newLength_of (ab_length b) r <= windowSize ->
  (Z.to_nat (newLength_of (ab_length b) r) < fuel)%nat ->
  exists out,
  timeStretch fuel b r = Returns out /\
  ab_length out = newLength_of (ab_length b) r /\
  numberOfChannels out = numberOfChannels b /\
  sampleRate out = sampleRate b /\
  wf_buffer out.
Proof.
  intros Hc Hr0 Hslow Hhop Hfuel.
  rewrite timeStretch_slow_path by easy.
  set (new := newLength_of (ab_length b) r) in *.
  set (nc := Z.to_nat (numberOfChannels b)).
  set (init := replicate nc (TypedArray.new_Float32Array new)).
  assert (Hinit : Z.of_nat (length init) = numberOfChannels b).
  { unfold init. rewrite length_replicate. unfold nc. lia. }
  set (F := fun (channel : Z) (x : list Q) =>
      stretch_channel fuel r hann_window (getChannelData b channel)
      (ab_length b) new (outHopSize_of r) x).
  set (G := fun c => returned [] (F c (TypedArray.get [] init c))).
  assert (HF : forall c, 0 <= c < Z.of_nat (length init) ->
      F c (TypedArray.get [] init c) = Returns (G c) /\
      Z.of_nat (length (G c)) = new).
  { intros c Hcr. unfold G.
    destruct (stretch_channel_returns fuel r hann_window
        (getChannelData b c) (ab_length b) new (outHopSize_of r)
        (TypedArray.get [] init c) Hhop Hfuel) as (o & Ho & Hlen).
    unfold F. rewrite Ho. simpl. split; [easy|].
    rewrite Hlen.
    rewrite (TypedArrayFacts.get_lookup [] init c
        (TypedArray.new_Float32Array new)); [|lia|].
    - unfold TypedArray.new_Float32Array. rewrite length_replicate.
      pose proof (newLength_of_pos (ab_length b) r). fold new in H0. lia.
    - unfold init. apply lookup_replicate_2. lia. }
  rewrite <- Hinit.
  pose proof (channel_loop_returns [] F G init
      (fun c Hcr => proj1 (HF c Hcr))) as Hloop.
  unfold F in Hloop. rewrite Hloop.
  rewrite bind_Returns. eexists. split; [reflexivity|].
  cbn [ab_length sampleRate]. unfold numberOfChannels at 1. cbn [channelData].
  rewrite length_fmap, length_zseq, Nat2Z.id.
  repeat split; try easy.
  - unfold wf_buffer. cbn [ab_length channelData].
    pose proof (newLength_of_pos (ab_length b) r). fold new in H0. lia.
  - unfold numberOfChannels. cbn [channelData].
    rewrite length_fmap, length_zseq, Nat2Z.id. lia.
  - cbn [channelData ab_length]. apply Forall_fmap, Forall_forall.
    intros c Hin. apply list_elem_of_lookup in Hin as [k Hk].
    apply DecodeFacts.lookup_zseq_inv in Hk as [_ Hk]. now apply HF.
Qed.

Lemma outHopSize_of_pos (r : Q) : (0 < r)%Q -> (r <= 512)%Q -> 1 <= outHopSize_of r.
Proof.
  intros Hr Hle. unfold outHopSize_of, hopSize.
  change 1 with (Qfloor 1). apply Qfloor_resp_le.
  apply Qle_shift_div_l; [easy|]. now rewrite Qmult_1_l.
Qed.

End EngineFacts.

(** *** Identity fast path *)

Lemma timeStretch_fast_path `{Platform} (fuel : nat) (b : AudioBuffer)
    (r : Q) :
  Num.ltb (Qabs (r - 1)) 0.001 = true -> timeStretch fuel b r = Returns b.
Proof. intros Hr. unfold timeStretch. now rewrite Hr. Qed.

Lemma near_unity (r : Q) :
  (Qabs (r - 1) < 0.001)%Q -> Num.ltb (Qabs (r - 1)) 0.001 = true.
Proof. intros Hr. now destruct (QuantizeFacts.ltb_spec (Qabs (r - 1)) 0.001). Qed.

(** C4. For every buffer and every ratio r with |r - 1| < 0.001, so in
    particular for r = 1, [timeStretch] does no processing and returns the
    input buffer itself. *)
Theorem timeStretch_identity `{Platform} (fuel : nat) (b : AudioBuffer)
    (r : Q) :
  (Qabs (r - 1) < 0.001)%Q -> timeStretch fuel b r = Returns b.
Proof.
  intros Hr. now apply timeStretch_fast_path, near_unity.
Qed.

Lemma timeStretch_identity_witness :
  @timeStretch sample_platform 0 (ramp_mono 4) 1 = Returns (ramp_mono 4).
Proof.
  apply (@timeStretch_identity sample_platform 0 (ramp_mono 4) 1).
  reflexivity.
Defined.

(** *** Termination *)

Lemma timeStretch_diverges `{Platform} (fuel : nat) (b : AudioBuffer)
    (r : Q) :
  1 <= numberOfChannels b ->
  ~ (r == 0)%Q -> ~ (Qabs (r - 1) < 0.001)%Q ->
  outHopSize_of r = 0 ->
  windowSize < newLength_of (ab_length b) r ->
  windowSize <= ab_length b ->
  timeStretch fuel b r = OutOfFuel.
Proof.
  intros Hch Hr0 Hslow Hhop Hnew Hold.
  rewrite timeStretch_slow_path by easy.
  set (F := fun (channel : Z) (x : list Q) =>
      stretch_channel fuel r hann_window (getChannelData b channel)
      (ab_length b) (newLength_of (ab_length b) r)
      (outHopSize_of r) x).
  assert (HF : forall x, F 0 x = OutOfFuel).
  { intros x. unfold F, stretch_channel.
    rewrite Hhop, ola_loop_stuck; [reflexivity | lia |].
    replace (Qfloor (inject_Z 0 * r)) with 0; [lia|].
    rewrite <- (Qfloor_Z 0). apply Qfloor_comp. now rewrite Qmult_0_l. }
  pose proof (channel_loop_diverges [] F
      (replicate (Z.to_nat (numberOfChannels b))
        (TypedArray.new_Float32Array
          (newLength_of (ab_length b) r)))
      (numberOfChannels b) Hch (HF _)) as Hrun.
  unfold F in Hrun. rewrite Hrun. reflexivity.
Qed.

(** C10 does not hold of the code. For the ratio 600 the synthesis hop is
    [floor (512 / 600) = 0]; on a buffer of 700000 frames the output has
    1166 > 1024 frames, the loop is entered at position 0 and never leaves
    it: no amount of fuel lets [timeStretch] return. *)
Theorem timeStretch_hangs_on_large_ratio `{Platform} (fuel : nat) :
  outHopSize_of 600 = 0 /\
  newLength_of (ab_length long_mono) 600 = 1166 /\
  timeStretch fuel long_mono 600 = OutOfFuel.
Proof.
  split; [reflexivity|]. split; [reflexivity|].
  apply timeStretch_diverges.
  - unfold numberOfChannels, long_mono. cbn [channelData length]. lia.
  - refute_by_computation.
  - refute_by_computation.
  - reflexivity.
  - reflexivity.
  - unfold windowSize, long_mono. cbn [ab_length]. lia.
Qed.

(** The same hang through the exported entry point: at speed 600 and pitch
    0 the orchestrator hands the ratio 600 to the engine. *)
Lemma processAudio_hangs_on_large_speed `{Platform} (fuel : nat) :
  (Math_pow 2 (0 / 12) == 1)%Q ->
  processAudio fuel long_mono 600 0 = OutOfFuel.
Proof.
  intros Hpow. unfold processAudio.
  set (r := (600 / Math_pow 2 (0 / 12))%Q).
  assert (Hr : (r == 600)%Q).
  { unfold r. rewrite Hpow. reflexivity. }
  rewrite (timeStretch_diverges fuel long_mono r); [reflexivity | | | | | |].
  - unfold numberOfChannels, long_mono. cbn [channelData length]. lia.
  - rewrite Hr. refute_by_computation.
  - rewrite Hr. refute_by_computation.
  - unfold outHopSize_of. rewrite Hr. reflexivity.
  - unfold newLength_of. rewrite Hr. reflexivity.
  - unfold windowSize, long_mono. cbn [ab_length]. lia.
Qed.

(** For ratios up to 512 the hop is at least one frame and the loop runs
    out of positions: [timeStretch] returns. *)
Lemma timeStretch_terminates `{Platform} (b : AudioBuffer) (r : Q) :
  1 <= numberOfChannels b ->
  (0 < r)%Q -> (r <= 512)%Q ->
  exists fuel out, timeStretch fuel b r = Returns out.
Proof.
  intros Hch Hr Hle.
  destruct (Qlt_le_dec (Qabs (r - 1)) 0.001) as [Hfast|Hslow].
  - exists 0%nat, b. now apply timeStretch_fast_path, near_unity.
  - exists (S (Z.to_nat (newLength_of (ab_length b) r))).
    destruct (timeStretch_returns
        (S (Z.to_nat (newLength_of (ab_length b) r))) b r)
      as (out & Hrun & _); try easy.
    + intros E. rewrite E in Hr. now apply Qlt_irrefl in Hr.
    + now apply Qle_not_lt.
    + left. now apply outHopSize_of_pos.
    + lia.
    + now exists out.
Qed.

(** ** Floors *)

Lemma Qfloor_bounds (y : Q) :
  (inject_Z (Qfloor y) <= y /\ y < inject_Z (Qfloor y) + 1)%Q.
Proof.
  split; [apply Qfloor_le|].
  pose proof (Qlt_floor y) as Hlt. rewrite inject_Z_plus in Hlt. exact Hlt.
Qed.

(** ** Overlap-add synthesis *)

Module OlaFacts.
Import TypedArray.
Import Ola.

Lemma for_loop_pair {A B} (n : Z) (f : Z -> A -> A) (g : Z -> B -> B)
    (a : A) (b : B) :
  for_loop n (fun j '(x, y) => (f j x, g j y)) (a, b)
  = (for_loop n f a, for_loop n g b).
Proof.
  destruct (Z.le_gt_cases 0 n) as [Hn|Hn].
  - pose (P := fun (i : Z) (t : A * B) =>
        t = (for_loop i f a, for_loop i g b)).
    apply (for_loop_ind P); [easy | |].
    + unfold P. now rewrite !for_loop_nonpos.
    + intros i t Hi Ht. unfold P in *. subst t.
      now rewrite !for_loop_succ by lia.
  - now rewrite !for_loop_nonpos by lia.
Qed.

Lemma imap_fmap_zseq {A B} (h : Z -> A -> B) (f : Z -> A) (n : Z) :
  imap (fun p x => h (Z.of_nat p) x) (f <$> zseq n)
  = (fun z => h z (f z)) <$> zseq n.
Proof.
  apply list_eq. intros k. rewrite list_lookup_imap, !list_lookup_fmap.
  destruct (zseq n !! k) as [z|] eqn:Hz; [|easy].
  apply DecodeFacts.lookup_zseq_inv in Hz as [-> _]. reflexivity.
Qed.

Lemma replicate_fmap_zseq {A} (x : A) (n : Z) :
  replicate (Z.to_nat n) x = (fun _ => x) <$> zseq n.
Proof.
  unfold zseq. rewrite <- list_fmap_compose.
  induction (Z.to_nat n) as [|m IH]; [easy|].
  rewrite seq_S, fmap_app, <- IH. now rewrite replicate_S_end.
Qed.

Lemma set_get_id {A} (d : A) (l : list A) (i : Z) : set l i (get d l i) = l.
Proof.
  unfold set, get. destruct (i <? 0); [easy|].
  apply list_insert_id'. intros Hi.
  destruct (lookup_lt_is_Some_2 l (Z.to_nat i) Hi) as [x Hx].
  now rewrite (nth_lookup_Some _ _ d _ Hx).
Qed.

Section Synthesis.
Variables (hann input : list Q) (ratio : Q).
Variables (oldLength newLength outHopSize : Z).

Local Abbreviation acc_list := (Ola.acc_list hann input ratio newLength).
Local Abbreviation weight_list := (Ola.weight_list hann newLength).





End Synthesis.
End OlaFacts.

(** ** The engine in the code's arithmetic

    The same facts for [FloatEngine]: what the loops return, the shape of
    the result, and the closed form of the synthesis.  None of them needs
    more of the arithmetic than the code itself computes. *)

Module FloatEngineFacts.
Import FloatEngine.

Lemma bind_Done {A B} (a : A) (k : A -> run B) : (Done a ≫= k) = k a.
Proof. reflexivity. Qed.



Lemma length_new_Float32Array (n : Z) :
  0 <= n -> Z.of_nat (length (new_Float32Array n)) = n.
Proof. intros Hn. unfold new_Float32Array. rewrite length_replicate. lia. Qed.







(** The per-channel loop of [timeStretch], when every channel returns. *)
Lemma float_channel_loop_returns {A} (d : A) (F : Z -> A -> run A)
  (G : Z -> A) (init : list A) :
  (forall c, 0 <= c < Z.of_nat (length init) ->
           F c (TypedArray.get d init c) = Done (G c)) ->
  for_loop (Z.of_nat (length init))
  (fun channel acc =>
     chans ← acc;
     output ← F channel (TypedArray.get d chans channel);
     mret (TypedArray.set chans channel output))
  (mret init)
  = Done (G <$> zseq (Z.of_nat (length init))).
Proof.
  intros HF.
  set (n := Z.of_nat (length init)).
  pose (P := fun (i : Z) (acc : run (list A)) =>
      acc = Done (take (Z.to_nat i) (G <$> zseq n)
        ++ drop (Z.to_nat i) init)).
  assert (HP :
      P n (for_loop n
        (fun channel acc =>
          chans ← acc;
          output ← F channel (TypedArray.get d chans channel);
          mret (TypedArray.set chans channel output))
        (mret init))).
  { apply (for_loop_ind P); [lia | reflexivity |].
    intros i t Hi Ht. unfold P in *. subst t. rewrite bind_Done.
    assert (Hlen : length (take (Z.to_nat i) (G <$> zseq n)) = Z.to_nat i).
    { rewrite length_take, length_fmap, length_zseq. lia. }
    destruct (lookup_lt_is_Some_2 init (Z.to_nat i)) as [x Hx]; [lia|].
    assert (Hget : TypedArray.get d
        (take (Z.to_nat i) (G <$> zseq n)
          ++ drop (Z.to_nat i) init) i = TypedArray.get d init i).
    { rewrite (TypedArrayFacts.get_lookup d init i x) by (lia || easy).
      apply TypedArrayFacts.get_lookup; [lia|].
      rewrite lookup_app_r by lia. rewrite Hlen, Nat.sub_diag.
      now rewrite lookup_drop, Nat.add_0_r. }
    rewrite Hget, HF by lia. rewrite bind_Done.
    unfold mret, run_ret. f_equal. unfold TypedArray.set.
    destruct (Z.ltb_spec i 0); [lia|].
    replace (Z.to_nat i) with (length (take (Z.to_nat i) (G <$> zseq n)) + 0)%nat
      at 1 by lia.
    rewrite insert_app_r. rewrite (drop_S _ x _ Hx). cbn [insert list_insert].
    replace (Z.to_nat (i + 1)) with (S (Z.to_nat i)) by lia.
    erewrite take_S_r.
    2:{ rewrite list_lookup_fmap, lookup_zseq by lia. simpl.
      rewrite Z2Nat.id by lia. reflexivity. }
    now rewrite <- app_assoc. }
  unfold P in HP. rewrite HP. unfold n. rewrite Nat2Z.id.
  rewrite drop_all, app_nil_r. apply f_equal, take_ge.
  rewrite length_fmap, length_zseq. lia.
Qed.


Lemma float_newLength_of_pos (oldLength : Z) (ratio : PrimFloat.float) (n : Z) :
  newLength_of oldLength ratio = Int n -> 1 <= n.
Proof.
  unfold newLength_of, Math_max.
  destruct (Math_floor _) as [z| |[|]]; intros E; inversion E; lia.
Qed.

Lemma float_new_AudioBuffer_returns (numChannels n rate : Z) :
  1 <= numChannels -> 1 <= n < 2 ^ 32 ->
  new_AudioBuffer numChannels (Int n) rate =
  Done {| ab_length := n; sampleRate := rate;
          channelData := replicate (Z.to_nat numChannels)
                           (new_Float32Array n) |}.
Proof.
  intros Hc Hn. unfold new_AudioBuffer.
  destruct (Z.ltb_spec n 0); [lia|].
  destruct (Z.leb_spec (2 ^ 32) n); [lia|].
  destruct (Z.ltb_spec numChannels 1); [lia|].
  destruct (Z.eqb_spec n 0); [lia|]. reflexivity.
Qed.


Section Engine.
Context `{Platform}.

(** [timeStretch] past the fast path and the allocation of the output. *)
Lemma float_timeStretch_slow_path (fuel : nat) (b : AudioBuffer)
  (r : PrimFloat.float) (n : Z) :
  1 <= numberOfChannels b ->
  near_unity r = false ->
  newLength_of (ab_length b) r = Int n -> n < 2 ^ 32 ->
  timeStretch fuel b r =
  (chans ← for_loop (numberOfChannels b)
           (fun channel acc =>
              chans ← acc;
              output ← stretch_channel fuel r hann_window
                         (getChannelData b channel) (ab_length b)
                         n (outHopSize_of r)
                         (TypedArray.get [] chans channel);
              mret (TypedArray.set chans channel output))
           (mret (replicate (Z.to_nat (numberOfChannels b))
                    (new_Float32Array n)));
  mret {| ab_length := n;
         sampleRate := sampleRate b;
         channelData := chans |}).
Proof.
  intros Hc Hslow Hn Hlt. unfold timeStretch. rewrite Hslow, Hn.
  rewrite float_new_AudioBuffer_returns
    by (easy || (split; [now apply (float_newLength_of_pos _ _ _ Hn) | easy])).
  reflexivity.
Qed.




End Engine.


(** *** The synthesis as sums over the window positions *)

Section Synthesis.
Variables (hann input : list PrimFloat.float) (ratio : PrimFloat.float).
Variables (oldLength newLength outHopSize : Z).

Local Abbreviation acc_list :=
  (FloatEngine.acc_list hann input ratio newLength).
Local Abbreviation weight_list := (FloatEngine.weight_list hann newLength).
Local Abbreviation inputIdx_of :=
  (fun i : Z => Math_floor (PrimFloat.mul (Ieee.of_Z i) ratio)).

(** One window of the inner loop adds one position to the sums. *)
Lemma float_ola_window_adds (done : list Z) (i : Z) :
  0 <= i ->
  ola_window hann input i (inputIdx_of i)
  (acc_list done, weight_list done)
  = (acc_list (done ++ [i]), weight_list (done ++ [i])).
Proof.
  intros Hi. unfold ola_window, store, load.
  rewrite (OlaFacts.for_loop_pair windowSize
      (fun j output =>
        TypedArray.set output (i + j)
        (Ieee.fround
          (PrimFloat.add (TypedArray.get PrimFloat.nan output (i + j))
            (PrimFloat.mul (load_at input (inputIdx_of i) j)
              (TypedArray.get PrimFloat.nan hann j)))))
      (fun j weights =>
        TypedArray.set weights (i + j)
        (Ieee.fround
          (PrimFloat.add (TypedArray.get PrimFloat.nan weights (i + j))
            (TypedArray.get PrimFloat.nan hann j))))).
  rewrite (TypedArrayFacts.for_loop_update PrimFloat.nan
      (fun j x =>
        Ieee.fround
        (PrimFloat.add x
          (PrimFloat.mul (load_at input (inputIdx_of i) j)
            (TypedArray.get PrimFloat.nan hann j)))))
    by (unfold windowSize; lia).
  rewrite (TypedArrayFacts.for_loop_update PrimFloat.nan
      (fun j x =>
        Ieee.fround
        (PrimFloat.add x (TypedArray.get PrimFloat.nan hann j))))
    by (unfold windowSize; lia).
  unfold FloatEngine.acc_list, FloatEngine.weight_list.
  rewrite (OlaFacts.imap_fmap_zseq
      (fun p x => if (i <=? p) && (p <? i + windowSize)
        then Ieee.fround
          (PrimFloat.add x
            (PrimFloat.mul (load_at input (inputIdx_of i) (p - i))
              (TypedArray.get PrimFloat.nan hann (p - i))))
        else x)).
  rewrite (OlaFacts.imap_fmap_zseq
      (fun p x => if (i <=? p) && (p <? i + windowSize)
        then Ieee.fround
          (PrimFloat.add x (TypedArray.get PrimFloat.nan hann (p - i)))
        else x)).
  f_equal; apply list_fmap_ext; intros _ p _;
    unfold acc_at, weight_at; now rewrite fold_left_app.
Qed.

(** The synthesis loop, started at the multiple [s] of the hop with the
    positions [done] behind it, processes the following multiples for as
    long as [processed] holds. *)
Lemma float_ola_loop_positions (m : nat) :
  1 <= outHopSize ->
  forall (s : nat) (done : list Z) (fuel : nat),
  newLength - windowSize <= Z.of_nat (s + m) * outHopSize ->
  (m < fuel)%nat ->
  ola_loop fuel ratio hann input oldLength newLength (Int outHopSize)
    (Z.of_nat s * outHopSize) (acc_list done, weight_list done)
  = Done
      (acc_list (done ++
         take_while (processed ratio oldLength newLength)
           ((fun j => Z.of_nat j * outHopSize) <$> seq s m)),
       weight_list (done ++
         take_while (processed ratio oldLength newLength)
           ((fun j => Z.of_nat j * outHopSize) <$> seq s m))).
Proof.
  intros Hhop. induction m as [|m IH]; intros s done fuel Hend Hfuel;
    (destruct fuel as [|fuel]; [lia|]); cbn [ola_loop].
  - destruct (Z.ltb_spec (Z.of_nat s * outHopSize) (newLength - windowSize));
      [replace (s + 0)%nat with s in Hend by lia; lia|].
    cbn [seq fmap list_fmap take_while]. now rewrite app_nil_r.
  - set (i := Z.of_nat s * outHopSize).
    cbn [seq fmap list_fmap take_while]. fold i. unfold processed at 1 3.
    destruct (Z.ltb_spec i (newLength - windowSize)) as [Hi|Hi].
    + destruct (Z.ltb_spec (i + windowSize) newLength); [|lia].
      destruct (exceeds (inputIdx_of i) oldLength) eqn:Hbrk.
      * cbn [andb negb]. now rewrite app_nil_r.
      * cbn [andb negb advance]. destruct (Z.ltb_spec outHopSize 0); [lia|].
        rewrite float_ola_window_adds by (unfold i; nia).
        replace (i + outHopSize) with (Z.of_nat (S s) * outHopSize)
          by (unfold i; lia).
        rewrite IH; [| replace (S s + m)%nat with (s + S m)%nat by lia; easy
            | lia].
        now rewrite <- !app_assoc.
    + destruct (Z.ltb_spec (i + windowSize) newLength); [lia|].
      cbn [andb]. now rewrite app_nil_r.
Qed.

(** The normalisation pass divides exactly the samples whose weight
    exceeds 0.01. *)
Lemma float_normalize_pointwise (positions : list Z) :
  0 <= newLength ->
  normalize newLength (weight_list positions) (acc_list positions)
  = ola_sample hann input ratio positions <$> zseq newLength.
Proof.
  intros Hn. unfold normalize, store, load.
  set (w := weight_list positions).
  rewrite (for_loop_ext newLength _
      (fun i l =>
        TypedArray.set l (0 + i)
        ((fun j x =>
            if PrimFloat.ltb (number 1 100) (TypedArray.get PrimFloat.nan w j)
            then Ieee.fround
              (PrimFloat.div x (TypedArray.get PrimFloat.nan w j))
            else x)
          i (TypedArray.get PrimFloat.nan l (0 + i))))).
  2:{ intros i t _. cbn beta. rewrite Z.add_0_l.
    destruct (PrimFloat.ltb _ _); [easy|].
    now rewrite OlaFacts.set_get_id. }
  rewrite (TypedArrayFacts.for_loop_update PrimFloat.nan
      (fun j x =>
        if PrimFloat.ltb (number 1 100) (TypedArray.get PrimFloat.nan w j)
        then Ieee.fround (PrimFloat.div x (TypedArray.get PrimFloat.nan w j))
        else x) 0 newLength) by lia.
  unfold FloatEngine.acc_list.
  rewrite (OlaFacts.imap_fmap_zseq
      (fun p x => if (0 <=? p) && (p <? 0 + newLength)
        then if PrimFloat.ltb (number 1 100)
            (TypedArray.get PrimFloat.nan w (p - 0))
          then Ieee.fround
            (PrimFloat.div x (TypedArray.get PrimFloat.nan w (p - 0)))
          else x
        else x)).
  apply list_fmap_ext. intros k p Hp.
  apply DecodeFacts.lookup_zseq_inv in Hp as [_ Hp].
  destruct (Z.leb_spec 0 p); [|lia].
  destruct (Z.ltb_spec p (0 + newLength)); [|lia].
  cbn [andb]. rewrite Z.sub_0_r. unfold w, FloatEngine.weight_list.
  rewrite DecodeFacts.get_fmap_zseq by lia. reflexivity.
Qed.

Lemma float_stretch_channel_synthesis (fuel : nat) :
  1 <= outHopSize -> 0 <= newLength ->
  (Z.to_nat newLength < fuel)%nat ->
  stretch_channel fuel ratio hann input oldLength newLength (Int outHopSize)
  (new_Float32Array newLength)
  = Done
    (ola_sample hann input ratio
       (synthesis_positions ratio oldLength newLength outHopSize)
     <$> zseq newLength).
Proof.
  intros Hhop Hn Hfuel. unfold stretch_channel, new_Float32Array.
  assert (Hzero : replicate (Z.to_nat newLength) PrimFloat.zero = acc_list []).
  { apply OlaFacts.replicate_fmap_zseq. }
  assert (Hzero' : replicate (Z.to_nat newLength) PrimFloat.zero
      = weight_list []).
  { apply OlaFacts.replicate_fmap_zseq. }
  rewrite Hzero at 1. rewrite Hzero'.
  pose proof (float_ola_loop_positions (Z.to_nat newLength) Hhop 0 [] fuel) as Hrun.
  change (Z.of_nat 0 * outHopSize) with 0 in Hrun.
  rewrite Hrun by (unfold windowSize; nia).
  rewrite bind_Done. cbn [app]. unfold mret, run_ret. f_equal.
  rewrite float_normalize_pointwise by easy.
  unfold synthesis_positions.
  assert (Hc : (fun j => Z.of_nat j * outHopSize) <$> seq 0 (Z.to_nat newLength)
      = (fun k => k * outHopSize) <$> zseq newLength).
  { unfold zseq. now rewrite <- list_fmap_compose. }
  now rewrite Hc.
Qed.

End Synthesis.

(** The closed form of [timeStretch] outside the fast path. *)
Lemma float_closed_form `{Platform} (fuel : nat) (b : AudioBuffer)
    (r : PrimFloat.float) (n h : Z) :
  1 <= numberOfChannels b ->
  near_unity r = false ->
  newLength_of (ab_length b) r = Int n -> n < 2 ^ 32 ->
  outHopSize_of r = Int h -> 1 <= h ->
  (Z.to_nat n < fuel)%nat ->
  timeStretch fuel b r =
  Done {| ab_length := n; sampleRate := sampleRate b;
          channelData :=
            (fun input =>
               ola_sample hann_window input r
                 (synthesis_positions r (ab_length b) n h)
               <$> zseq n)
            <$> channelData b |}.
Proof.
  intros Hch Hslow Hn Hlt Hhop Hh Hfuel.
  pose proof (float_newLength_of_pos _ _ _ Hn) as Hnew.
  rewrite (float_timeStretch_slow_path fuel b r n) by easy.
  set (positions := synthesis_positions r (ab_length b) n h).
  set (init := replicate (Z.to_nat (numberOfChannels b))
      (new_Float32Array n)).
  assert (Hinit : Z.of_nat (length init) = numberOfChannels b).
  { unfold init. rewrite length_replicate. lia. }
  set (F := fun (channel : Z) (x : list PrimFloat.float) =>
      stretch_channel fuel r hann_window (getChannelData b channel)
      (ab_length b) n (outHopSize_of r) x).
  set (G := fun c => ola_sample hann_window (getChannelData b c) r
      positions <$> zseq n).
  assert (HF : forall c, 0 <= c < Z.of_nat (length init) ->
      F c (TypedArray.get [] init c) = Done (G c)).
  { intros c Hc.
    rewrite (TypedArrayFacts.get_lookup [] init c (new_Float32Array n));
      [|lia|].
    - unfold F, G. rewrite Hhop. apply float_stretch_channel_synthesis; lia.
    - unfold init. apply lookup_replicate_2. lia. }
  pose proof (float_channel_loop_returns [] F G init HF) as Hrun.
  unfold F in Hrun. rewrite Hinit in Hrun. rewrite Hrun, bind_Done.
  unfold mret, run_ret. do 2 f_equal.
  unfold G, getChannelData, numberOfChannels.
  apply (RoundTrip.fmap_get_zseq []
      (fun input => ola_sample hann_window input r positions <$> zseq n)).
Qed.

End FloatEngineFacts.

Module FloatSigns.
Import FloatEngine.




End FloatSigns.

Module FloatShort.
Import FloatEngine FloatEngineFacts.

Lemma load_replicate_zero (k : nat) (i : Z) :
  load (replicate k PrimFloat.zero) i = PrimFloat.zero \/
  load (replicate k PrimFloat.zero) i = PrimFloat.nan.
Proof.
  unfold load, TypedArray.get. destruct (i <? 0); [now right|].
  rewrite nth_lookup.
  destruct (replicate k PrimFloat.zero !! Z.to_nat i) as [x|] eqn:Hx;
    [|now right].
  apply lookup_replicate_1 in Hx as [-> _]. now left.
Qed.

Lemma float_normalize_zero_weights (n : Z) (k : nat) (output : list PrimFloat.float) :
  normalize n (replicate k PrimFloat.zero) output = output.
Proof.
  unfold normalize. destruct (Z.le_gt_cases 0 n) as [Hn|Hn].
  - apply (for_loop_ind (fun _ t => t = output)); try easy.
    intros i t _ ->.
    now destruct (load_replicate_zero k i) as [-> | ->].
  - now rewrite for_loop_nonpos by lia.
Qed.

Lemma ola_loop_not_entered (fuel : nat) (ratio : PrimFloat.float)
  (hann input : list PrimFloat.float) (oldLength newLength : Z)
  (outHopSize : integer) (ow : list PrimFloat.float * list PrimFloat.float) :
  newLength <= windowSize -> (1 <= fuel)%nat ->
  ola_loop fuel ratio hann input oldLength newLength outHopSize 0 ow = Done ow.
Proof.
  intros Hn Hfuel. destruct fuel as [|fuel]; [lia|]. cbn [ola_loop].
  destruct (Z.ltb_spec 0 (newLength - windowSize)); [lia | reflexivity].
Qed.

Lemma float_short_output `{Platform} (fuel : nat) (b : AudioBuffer)
  (r : PrimFloat.float) (n : Z) :
  1 <= numberOfChannels b ->
  near_unity r = false ->
  newLength_of (ab_length b) r = Int n ->
  n <= windowSize ->
  (1 <= fuel)%nat ->
  timeStretch fuel b r =
  Done {| ab_length := n; sampleRate := sampleRate b;
          channelData :=
            replicate (Z.to_nat (numberOfChannels b))
              (replicate (Z.to_nat n) PrimFloat.zero) |}.
Proof.
  intros Hch Hslow Hn Hshort Hfuel.
  rewrite (float_timeStretch_slow_path fuel b r n)
    by (try easy; unfold windowSize in Hshort; lia).
  set (zeros := new_Float32Array n).
  set (init := replicate (Z.to_nat (numberOfChannels b)) zeros).
  assert (Hinit : Z.of_nat (length init) = numberOfChannels b).
  { unfold init. rewrite length_replicate. lia. }
  set (F := fun (channel : Z) (x : list PrimFloat.float) =>
      stretch_channel fuel r hann_window (getChannelData b channel)
      (ab_length b) n (outHopSize_of r) x).
  assert (HF : forall c, 0 <= c < Z.of_nat (length init) ->
      F c (TypedArray.get [] init c) = Done zeros).
  { intros c Hc.
    rewrite (TypedArrayFacts.get_lookup [] init c zeros); [|lia|].
    - unfold F, stretch_channel.
      rewrite ola_loop_not_entered by easy. rewrite bind_Done.
      unfold zeros, new_Float32Array at 1.
      now rewrite float_normalize_zero_weights.
    - unfold init. apply lookup_replicate_2. lia. }
  pose proof (float_channel_loop_returns [] F (fun _ => zeros) init HF) as Hrun.
  unfold F in Hrun. rewrite Hinit in Hrun. rewrite Hrun, bind_Done.
  unfold mret, run_ret. do 2 f_equal.
  apply list_eq. intros k. rewrite list_lookup_fmap.
  destruct (decide (k < Z.to_nat (numberOfChannels b))%nat) as [Hk|Hk].
  - rewrite lookup_zseq, lookup_replicate_2 by lia. reflexivity.
  - rewrite (proj1 (lookup_replicate_None _ _ _)) by lia.
    unfold zseq. rewrite list_lookup_fmap, lookup_seq_ge by lia. reflexivity.
Qed.

End FloatShort.

(** C9. For every buffer and every ratio r with |r - 1| >= 0.001 for which
    the output length [max 1 (floor (oldLength / r))], as the code computes
    it in binary64, is at most the window size 1024, the synthesis loop
    leaves its state untouched (zero iterations) and [timeStretch] returns
    a buffer of that length whose samples are all exactly 0, whatever the
    input holds. *)
Theorem short_output_is_silent `{FloatEngine.Platform} (fuel : nat)
    (b : FloatEngine.AudioBuffer) (r : PrimFloat.float) (n : Z) :
  1 <= FloatEngine.numberOfChannels b ->
  FloatEngine.near_unity r = false ->
  FloatEngine.newLength_of (FloatEngine.ab_length b) r = FloatEngine.Int n ->
  n <= 1024 ->
  (1 <= fuel)%nat ->
  (forall hann input ow,
     FloatEngine.ola_loop fuel r hann input (FloatEngine.ab_length b) n
       (FloatEngine.outHopSize_of r) 0 ow
     = FloatEngine.Done ow) /\
  FloatEngine.timeStretch fuel b r =
  FloatEngine.Done
    {| FloatEngine.ab_length := n;
       FloatEngine.sampleRate := FloatEngine.sampleRate b;
       FloatEngine.channelData :=
         replicate (Z.to_nat (FloatEngine.numberOfChannels b))
           (replicate (Z.to_nat n) PrimFloat.zero) |}.
Proof.
  intros Hch Hslow Hn Hshort Hfuel. split.
  - intros hann input ow. now apply FloatShort.ola_loop_not_entered.
  - now apply FloatShort.float_short_output.
Qed.

Lemma short_output_is_silent_witness :
  FloatEngine.newLength_of 1638 (FloatEngine.number 16 10)
  = FloatEngine.Int 1023 /\
  @FloatEngine.timeStretch FloatEngine.sample_platform 1
    (FloatEngine.ramp_mono 1638) (FloatEngine.number 16 10) =
  FloatEngine.Done
    {| FloatEngine.ab_length := 1023;
       FloatEngine.sampleRate := 24000;
       FloatEngine.channelData :=
         [replicate (Z.to_nat 1023) PrimFloat.zero] |}.
Proof.
  split; [reflexivity|].
  apply (@short_output_is_silent FloatEngine.sample_platform 1
      (FloatEngine.ramp_mono 1638) (FloatEngine.number 16 10) 1023).
  - unfold FloatEngine.numberOfChannels. simpl. lia.
  - reflexivity.
  - reflexivity.
  - lia.
  - lia.
Defined.

(** One frame more and the quotient [1640 / 1.6] is [1025] in binary64:
    the loop is entered and a window is written. *)
Lemma short_output_boundary :
  FloatEngine.newLength_of 1640 (FloatEngine.number 16 10)
  = FloatEngine.Int 1025 /\
  match @FloatEngine.timeStretch FloatEngine.sample_platform 1026
          (FloatEngine.ramp_mono 1640) (FloatEngine.number 16 10) with
  | FloatEngine.Done out =>
      FloatEngine.ab_length out = 1025 /\
      PrimFloat.ltb PrimFloat.zero
        (FloatEngine.load (FloatEngine.getChannelData out 0) 512) = true
  | _ => False
  end.
Proof.
  split; [reflexivity|]. vm_compute. split; reflexivity.
Qed.




(** C8, as stated, fails. A 2048-frame input at ratio 2 gives exactly 1024
    output frames; position 0 satisfies [0 + 1024 <= 1024] and its analysis
    window fits, so the loop of the claim accumulates a window, but the
    code's condition [0 < 1024 - 1024] is false and its loop leaves the
    arrays untouched. *)
Lemma ola_loop_bound_is_strict :
  let hann := @FloatEngine.hann_window FloatEngine.sample_platform in
  let input := FloatEngine.getChannelData (FloatEngine.ramp_mono 2048) 0 in
  let zeros := FloatEngine.new_Float32Array 1024 in
  FloatEngine.newLength_of 2048 (Ieee.of_Z 2) = FloatEngine.Int 1024 /\
  FloatEngine.outHopSize_of (Ieee.of_Z 2) = FloatEngine.Int 256 /\
  FloatEngine.ola_loop 2 (Ieee.of_Z 2) hann input 2048 1024
    (FloatEngine.Int 256) 0 (zeros, zeros)
  = FloatEngine.Done (zeros, zeros) /\
  match FloatEngine.ola_loop_as_claimed 2 (Ieee.of_Z 2) hann input 2048 1024
          (FloatEngine.Int 256) 0 (zeros, zeros) with
  | FloatEngine.Done (output, _) =>
      PrimFloat.ltb PrimFloat.zero (FloatEngine.load output 512) = true
  | _ => False
  end.
Proof.
  split; [reflexivity|]. split; [reflexivity|].
  split; vm_compute; reflexivity.
Qed.

(** C8, amended. In [timeStretch] with |r - 1| >= 0.001, on a well-formed
    buffer, let [newLength = max 1 (floor (oldLength / r))] and
    [Hout = floor (512 / r)] be what the code computes in binary64, with
    [Hout >= 1]. The synthesis position runs through 0, Hout, 2 Hout, ...
    for as long as [i + 1024 < newLength] (strictly) and the analysis
    window at [floor (i * r)], the floor of the binary64 product, fits the
    input; each position adds [input[floor (i r) + j] * win[j]] to output
    cell [i + j] and [win[j]] to its weight, for every j in [0, 1024), each
    sum rounded to single precision as it is stored. Afterwards exactly the
    cells whose weight exceeds 0.01 are divided by it, the quotient again
    rounded to single precision. The returned channels are these sums,
    channel by channel. *)
Theorem timeStretch_overlap_add `{FloatEngine.Platform} (fuel : nat)
    (b : FloatEngine.AudioBuffer) (r : PrimFloat.float) (newLength Hout : Z) :
  FloatEngine.wf_buffer b ->
  FloatEngine.near_unity r = false ->
  FloatEngine.newLength_of (FloatEngine.ab_length b) r
  = FloatEngine.Int newLength ->
  newLength < 2 ^ 32 ->
  FloatEngine.outHopSize_of r = FloatEngine.Int Hout -> 1 <= Hout ->
  (Z.to_nat newLength < fuel)%nat ->
  let positions :=
    FloatEngine.synthesis_positions r (FloatEngine.ab_length b) newLength
      Hout in
  FloatEngine.timeStretch fuel b r =
  FloatEngine.Done
    {| FloatEngine.ab_length := newLength;
       FloatEngine.sampleRate := FloatEngine.sampleRate b;
       FloatEngine.channelData :=
         (fun input =>
            FloatEngine.ola_sample FloatEngine.hann_window input r positions
            <$> zseq newLength)
         <$> FloatEngine.channelData b |}.
Proof.
  intros (_ & Hch & _) Hslow Hn Hlt Hhop Hh Hfuel positions.
  now apply FloatEngineFacts.float_closed_form.
Qed.

Lemma timeStretch_overlap_add_witness :
  let b := FloatEngine.ramp_mono 4096 in
  let r := FloatEngine.number 16 10 in
  let positions := FloatEngine.synthesis_positions r 4096 2560 320 in
  positions = [0; 320; 640; 960; 1280] /\
  (fun i => FloatEngine.Math_floor (PrimFloat.mul (Ieee.of_Z i) r))
    <$> positions
  = FloatEngine.Int <$> [0; 512; 1024; 1536; 2048] /\
  @FloatEngine.timeStretch FloatEngine.sample_platform 2561 b r =
  FloatEngine.Done
    {| FloatEngine.ab_length := 2560;
       FloatEngine.sampleRate := FloatEngine.sampleRate b;
       FloatEngine.channelData :=
         (fun input =>
            FloatEngine.ola_sample
              (@FloatEngine.hann_window FloatEngine.sample_platform) input r
              positions
            <$> zseq 2560)
         <$> FloatEngine.channelData b |}.
Proof.
  split; [vm_compute; reflexivity|]. split; [vm_compute; reflexivity|].
  apply (@timeStretch_overlap_add FloatEngine.sample_platform 2561
      (FloatEngine.ramp_mono 4096) (FloatEngine.number 16 10) 2560 320).
  - split; [simpl; lia | split; [vm_compute; discriminate|]].
    repeat constructor.
  - reflexivity.
  - reflexivity.
  - lia.
  - reflexivity.
  - lia.
  - vm_compute. lia.
Defined.

Module OrchestratorFacts.
Import FloatEngine FloatEngineFacts.



End OrchestratorFacts.




(** * Further properties

    What the code shows beyond the statements of its specification: the
    encoder and the Interpreter on every input, the two of them composed in
    either order, the audio path of the application, the prompts sent to
    the speech service, the voice selector, and the engine as a linear
    system. *)

(** ** The Encoder on every buffer *)

Module HeaderFacts.
Import Wav WavLayout.

Lemma le_bytes_S (n : nat) (u : Z) :
  le_bytes (S n) u = Num.byte_of_Z u :: le_bytes n (u / 256).
Proof.
  unfold le_bytes. rewrite <- cons_seq. cbn [fmap list_fmap]. f_equal.
  - now rewrite Z.pow_0_r, Z.div_1_r.
  - rewrite <- fmap_S_seq, <- list_fmap_compose. apply list_fmap_ext.
    intros _ k _. cbn. f_equal.
    rewrite Nat2Z.inj_succ, Z.pow_succ_r by lia.
    now rewrite Z.div_div by lia.
Qed.

Lemma le_value_le_bytes (n : nat) :
  forall u, le_value (le_bytes n u) = u mod 256 ^ Z.of_nat n.
Proof.
  induction n as [|n IH]; intros u.
  - cbn. now rewrite Z.mod_1_r.
  - rewrite le_bytes_S. cbn [le_value foldr].
    fold (le_value (le_bytes n (u / 256))).
    rewrite IH, NumFacts.Z_of_byte_of_Z.
    rewrite Nat2Z.inj_succ, Z.pow_succ_r by lia.
    rewrite Z.rem_mul_r by lia. lia.
Qed.

Lemma le_value_of_u32 (z : Z) : le_value (u32 z) = z mod 2 ^ 32.
Proof.
  unfold u32. rewrite le_value_le_bytes. unfold Num.wrap_unsigned.
  change (256 ^ Z.of_nat 4) with (2 ^ 32). apply Z.mod_mod. lia.
Qed.

Lemma le_value_of_u16 (z : Z) : le_value (u16 z) = z mod 2 ^ 16.
Proof.
  unfold u16. rewrite le_value_le_bytes. unfold Num.wrap_unsigned.
  change (256 ^ Z.of_nat 2) with (2 ^ 16). apply Z.mod_mod. lia.
Qed.

End HeaderFacts.

(** X1. For every well-formed buffer the Encoder returns (it never
    throws), and the file it builds has [44 + 2 * channels * frames] bytes:
    the tags RIFF, WAVE, fmt and data at offsets 0, 8, 12 and 36, format 1
    with 16 bits per sample, and the file size less 8, the channel count,
    the sample rate, the byte rate, the block size and the payload size as
    little-endian fields at offsets 4, 22, 24, 28, 32 and 40, each reduced
    modulo the width of its field; the payload follows from offset 44. *)
Theorem audioBufferToWav_layout (fuel : nat) (b : AudioBuffer) :
  wf_buffer b ->
  (Z.to_nat (ab_length b) < fuel)%nat ->
  exists wav,
    Wav.audioBufferToWav fuel b = Returns wav /\
    Z.of_nat (length wav) = 44 + 2 * numberOfChannels b * ab_length b /\
    take 4 wav = ["R"; "I"; "F"; "F"]%byte /\
    WavLayout.le_value (take 4 (drop 4 wav))
    = (Z.of_nat (length wav) - 8) mod 2 ^ 32 /\
    take 4 (drop 8 wav) = ["W"; "A"; "V"; "E"]%byte /\
    take 4 (drop 12 wav) = ["f"; "m"; "t"; " "]%byte /\
    WavLayout.le_value (take 4 (drop 16 wav)) = 16 /\
    WavLayout.le_value (take 2 (drop 20 wav)) = 1 /\
    WavLayout.le_value (take 2 (drop 22 wav))
    = numberOfChannels b mod 2 ^ 16 /\
    WavLayout.le_value (take 4 (drop 24 wav)) = sampleRate b mod 2 ^ 32 /\
    WavLayout.le_value (take 4 (drop 28 wav))
    = (sampleRate b * 2 * numberOfChannels b) mod 2 ^ 32 /\
    WavLayout.le_value (take 2 (drop 32 wav))
    = (numberOfChannels b * 2) mod 2 ^ 16 /\
    WavLayout.le_value (take 2 (drop 34 wav)) = 16 /\
    take 4 (drop 36 wav) = ["d"; "a"; "t"; "a"]%byte /\
    WavLayout.le_value (take 4 (drop 40 wav))
    = (Z.of_nat (length wav) - 44) mod 2 ^ 32 /\
    drop 44 wav = WavLayout.data_bytes (channelData b) (ab_length b).
Proof.
  intros (Hlen & Hch & _) Hfuel.
  eexists. split; [now apply WavFacts.audioBufferToWav_bytes|].
  set (data := WavLayout.data_bytes (channelData b) (ab_length b)).
  set (total := ab_length b * numberOfChannels b * 2 + 44).
  assert (Hsize : Z.of_nat (length
      (WavLayout.header_bytes (numberOfChannels b) (sampleRate b) total
       ++ data)) = total).
  { rewrite length_app, length_header_bytes. unfold data.
    rewrite length_data_bytes. unfold total, numberOfChannels. nia. }
  rewrite Hsize. clear Hsize.
  split; [unfold total; lia|].
  unfold WavLayout.header_bytes.
  repeat split;
    try (cbn [WavLayout.u32 WavLayout.u16 Wav.le_bytes fmap list_fmap seq
              app take drop]; reflexivity).
  all: cbn [WavLayout.u32 WavLayout.u16 Wav.le_bytes fmap list_fmap seq
            app take drop].
  - exact (HeaderFacts.le_value_of_u32 (total - 8)).
  - exact (HeaderFacts.le_value_of_u16 (numberOfChannels b)).
  - exact (HeaderFacts.le_value_of_u32 (sampleRate b)).
  - exact (HeaderFacts.le_value_of_u32
             (sampleRate b * 2 * numberOfChannels b)).
  - exact (HeaderFacts.le_value_of_u16 (numberOfChannels b * 2)).
  - rewrite take_0. exact (HeaderFacts.le_value_of_u32 (total - 44)).
Qed.

Lemma audioBufferToWav_layout_witness :
  exists wav,
    Wav.audioBufferToWav 5 (ramp_mono 4) = Returns wav /\
    Z.of_nat (length wav)
    = 44 + 2 * numberOfChannels (ramp_mono 4) * ab_length (ramp_mono 4) /\
    take 4 wav = ["R"; "I"; "F"; "F"]%byte /\
    WavLayout.le_value (take 4 (drop 4 wav))
    = (Z.of_nat (length wav) - 8) mod 2 ^ 32 /\
    take 4 (drop 8 wav) = ["W"; "A"; "V"; "E"]%byte /\
    take 4 (drop 12 wav) = ["f"; "m"; "t"; " "]%byte /\
    WavLayout.le_value (take 4 (drop 16 wav)) = 16 /\
    WavLayout.le_value (take 2 (drop 20 wav)) = 1 /\
    WavLayout.le_value (take 2 (drop 22 wav))
    = numberOfChannels (ramp_mono 4) mod 2 ^ 16 /\
    WavLayout.le_value (take 4 (drop 24 wav))
    = sampleRate (ramp_mono 4) mod 2 ^ 32 /\
    WavLayout.le_value (take 4 (drop 28 wav))
    = (sampleRate (ramp_mono 4) * 2 * numberOfChannels (ramp_mono 4))
      mod 2 ^ 32 /\
    WavLayout.le_value (take 2 (drop 32 wav))
    = (numberOfChannels (ramp_mono 4) * 2) mod 2 ^ 16 /\
    WavLayout.le_value (take 2 (drop 34 wav)) = 16 /\
    take 4 (drop 36 wav) = ["d"; "a"; "t"; "a"]%byte /\
    WavLayout.le_value (take 4 (drop 40 wav))
    = (Z.of_nat (length wav) - 44) mod 2 ^ 32 /\
    drop 44 wav
    = WavLayout.data_bytes (channelData (ramp_mono 4))
        (ab_length (ramp_mono 4)).
Proof.
  apply (audioBufferToWav_layout 5 (ramp_mono 4)).
  - repeat split; [simpl; lia | unfold numberOfChannels; simpl; lia |].
    repeat constructor.
  - simpl. lia.
Defined.

(** ** Quantisation as a function of the sample *)

Module ClampFacts.
Import Num QuantizeFacts.

Lemma clamp_cases (x : Q) :
  let c := Math_max (-1) (Math_min 1 x) in
  ((x <= -1 /\ c == -1) \/ (-1 <= x <= 1 /\ c == x) \/ (1 <= x /\ c == 1))%Q.
Proof.
  unfold Math_max, Math_min. cbn zeta.
  destruct (Qle_bool_spec 1 x) as [H1|H1].
  - destruct (Qle_bool_spec (-1) 1) as [_|H2]; [|exfalso; apply H2; easy].
    right. right. split; [easy|reflexivity].
  - apply Qnot_le_lt in H1.
    destruct (Qle_bool_spec (-1) x) as [H2|H2].
    + right. left. split; [split; [easy|now apply Qlt_le_weak]|reflexivity].
    + apply Qnot_le_lt in H2. left. split; [now apply Qlt_le_weak|reflexivity].
Qed.

Lemma clamp_monotone (x y : Q) :
  (x <= y -> Math_max (-1) (Math_min 1 x) <= Math_max (-1) (Math_min 1 y))%Q.
Proof.
  intros Hxy.
  destruct (clamp_cases x) as [(Hx & Ex)|[(Hx & Ex)|(Hx & Ex)]];
    destruct (clamp_cases y) as [(Hy & Ey)|[(Hy & Ey)|(Hy & Ey)]];
    rewrite Ex, Ey; lra.
Qed.

End ClampFacts.

(** X2. Quantisation preserves order: a larger sample is never encoded as
    a smaller 16-bit integer, also across the change of scale at zero and
    through the clamp. *)
Theorem quantize_monotone (x y : Q) :
  (x <= y)%Q -> Wav.quantize x <= Wav.quantize y.
Proof.
  intros Hxy. rewrite !QuantizeFacts.quantize_truncated. unfold truncated.
  pose proof (ClampFacts.clamp_monotone x y Hxy) as Hc.
  set (cx := Num.Math_max (-1) (Num.Math_min 1 x)) in *.
  set (cy := Num.Math_max (-1) (Num.Math_min 1 y)) in *.
  destruct (QuantizeFacts.ltb_spec cx 0) as [Hx|Hx];
    destruct (QuantizeFacts.ltb_spec cy 0) as [Hy|Hy].
  - apply Qceiling_resp_le. lra.
  - apply Qnot_lt_le in Hy.
    transitivity 0.
    + change 0 with (Qceiling 0). apply Qceiling_resp_le. lra.
    + change 0 with (Qfloor 0). apply Qfloor_resp_le. lra.
  - lra.
  - apply Qfloor_resp_le. lra.
Qed.

Lemma quantize_monotone_witness :
  (1 # 4 <= 1 # 2)%Q /\ Wav.quantize (1 # 4) <= Wav.quantize (1 # 2).
Proof.
  split; [vm_compute; discriminate|].
  apply (quantize_monotone (1 # 4) (1 # 2)). vm_compute. discriminate.
Defined.

Lemma Qceiling_bounds (y : Q) :
  (y <= inject_Z (Qceiling y) /\ inject_Z (Qceiling y) < y + 1)%Q.
Proof.
  split; [apply Qle_ceiling|].
  pose proof (Qceiling_lt y) as Hc.
  unfold Z.sub in Hc. rewrite inject_Z_plus in Hc.
  change (inject_Z (- (1))) with (-1 # 1)%Q in Hc. lra.
Qed.

(** X3. Encoding a sample of [-1, 1] and reading the stored integer back
    as the Interpreter does (division by 32768) moves it toward zero and by
    less than 1/16384: the result keeps the sign, is no larger in
    magnitude, and lies within two quantisation steps of the sample. *)
Theorem quantize_error (x : Q) :
  (-1 <= x <= 1)%Q ->
  let y := (inject_Z (Wav.quantize x) / 32768)%Q in
  (Qabs y <= Qabs x /\ Qabs (y - x) * 16384 < 1 /\ (0 <= x -> 0 <= y <= x)
   /\ (x <= 0 -> x <= y <= 0))%Q.
Proof.
  intros Hx y. unfold y. clear y.
  rewrite QuantizeFacts.quantize_truncated. unfold truncated.
  assert (Ec : (Num.Math_max (-1) (Num.Math_min 1 x) == x)%Q).
  { destruct (ClampFacts.clamp_cases x) as [(H1 & E)|[(H1 & E)|(H1 & E)]];
      rewrite E; lra. }
  set (c := Num.Math_max (-1) (Num.Math_min 1 x)) in *.
  destruct (QuantizeFacts.ltb_spec c 0) as [Hc|Hc].
  - pose proof (Qceiling_bounds (c * 32768)) as (Hlo & Hhi).
    set (k := Qceiling (c * 32768)) in *.
    assert (Hk : k <= 0).
    { apply Z.lt_succ_r. rewrite Zlt_Qlt. change (inject_Z (Z.succ 0)) with 1%Q.
      lra. }
    rewrite Zle_Qle in Hk. change (inject_Z 0) with 0%Q in Hk.
    set (K := inject_Z k) in *.
    assert (Hy : (K / 32768 * 32768 == K)%Q) by (field; easy).
    set (Y := (K / 32768)%Q) in *.
    assert (HY0 : (Y <= 0)%Q) by lra.
    assert (HYx : (x <= Y)%Q) by lra.
    rewrite (Qabs_neg Y), (Qabs_neg x), (Qabs_pos (Y - x)) by lra.
    repeat split; try lra.
  - apply Qnot_lt_le in Hc.
    pose proof (Qfloor_bounds (c * 32767)) as (Hlo & Hhi).
    set (k := Qfloor (c * 32767)) in *.
    assert (Hk : 0 <= k).
    { apply Z.lt_pred_le. rewrite Zlt_Qlt.
      change (inject_Z (Z.pred 0)) with (-1)%Q. lra. }
    rewrite Zle_Qle in Hk. change (inject_Z 0) with 0%Q in Hk.
    set (K := inject_Z k) in *.
    assert (Hy : (K / 32768 * 32768 == K)%Q) by (field; easy).
    set (Y := (K / 32768)%Q) in *.
    assert (HY0 : (0 <= Y)%Q) by lra.
    assert (HYx : (Y <= x)%Q) by lra.
    rewrite (Qabs_pos Y), (Qabs_pos x), (Qabs_neg (Y - x)) by lra.
    repeat split; try lra.
Qed.

Lemma quantize_error_witness :
  let y := (inject_Z (Wav.quantize (1 # 3)) / 32768)%Q in
  (Qabs y <= Qabs (1 # 3) /\ Qabs (y - (1 # 3)) * 16384 < 1
   /\ (0 <= 1 # 3 -> 0 <= y <= 1 # 3)
   /\ (1 # 3 <= 0 -> 1 # 3 <= y <= 0))%Q.
Proof.
  apply (quantize_error (1 # 3)). split; vm_compute; discriminate.
Defined.

(** ** The Interpreter on every input *)

Module DecodeCases.

Lemma decode_by_cases (data : list byte) (rate numChannels : Z) :
  decodePCMToAudioBuffer data rate numChannels =
  if negb (Z.even (Z.of_nat (length data))) then Throws RangeError
  else if (numChannels <? 1) || (Z.of_nat (length data) <? 2 * numChannels)
       then Throws NotSupportedError
       else Returns (decoded_buffer (TypedArray.Int16Array_elems data) rate
                       numChannels).
Proof.
  destruct (Z.even (Z.of_nat (length data))) eqn:Heven; cbn [negb].
  2: now apply decode_odd_length.
  destruct (Z.ltb_spec numChannels 1) as [Hnc|Hnc]; cbn [orb].
  { unfold decodePCMToAudioBuffer, TypedArray.new_Int16Array.
    rewrite Heven, bind_Returns. unfold new_AudioBuffer.
    destruct (Z.ltb_spec numChannels 1); [reflexivity|lia]. }
  destruct (Z.ltb_spec (Z.of_nat (length data)) (2 * numChannels)) as [Hs|Hs].
  2: now apply DecodeFacts.decode_returns.
  unfold decodePCMToAudioBuffer, TypedArray.new_Int16Array.
  rewrite Heven, bind_Returns. unfold new_AudioBuffer.
  rewrite DecodeFacts.trunc_Zdiv by lia.
  pose proof (Int16Array_elems_length_even data Heven) as Hl.
  rewrite Z.div_small by lia.
  destruct (Z.ltb_spec numChannels 1); reflexivity.
Qed.

Lemma decode_Returns_inv (data : list byte) (rate numChannels : Z)
    (b : AudioBuffer) :
  decodePCMToAudioBuffer data rate numChannels = Returns b ->
  Z.even (Z.of_nat (length data)) = true /\ 1 <= numChannels /\
  2 * numChannels <= Z.of_nat (length data) /\
  b = decoded_buffer (TypedArray.Int16Array_elems data) rate numChannels.
Proof.
  rewrite decode_by_cases.
  destruct (Z.even (Z.of_nat (length data))); cbn [negb]; [|discriminate].
  destruct (Z.ltb_spec numChannels 1); cbn [orb]; [discriminate|].
  destruct (Z.ltb_spec (Z.of_nat (length data)) (2 * numChannels));
    [discriminate|].
  intros [= <-]. repeat split; lia.
Qed.

Lemma lookup_Int16Array_elems (j : nat) :
  forall (bs : list byte) (lo hi : byte),
  bs !! (2 * j)%nat = Some lo -> bs !! (2 * j + 1)%nat = Some hi ->
  TypedArray.Int16Array_elems bs !! j = Some (TypedArray.int16_of_le lo hi).
Proof.
  induction j as [|j IH]; intros bs lo hi Hlo Hhi.
  - destruct bs as [|a [|c rest]]; try discriminate.
    cbn in *. congruence.
  - destruct bs as [|a [|c rest]]; try discriminate.
    replace (2 * S j)%nat with (S (S (2 * j))) in Hlo by lia.
    replace (2 * S j + 1)%nat with (S (S (2 * j + 1))) in Hhi by lia.
    cbn in Hlo, Hhi. cbn [TypedArray.Int16Array_elems lookup list_lookup].
    now apply IH.
Qed.

Lemma get_Int16Array_elems (bs : list byte) (k : Z) :
  0 <= k -> 2 * k + 1 < Z.of_nat (length bs) ->
  TypedArray.get 0 (TypedArray.Int16Array_elems bs) k =
  TypedArray.int16_of_le (TypedArray.get x00 bs (2 * k))
    (TypedArray.get x00 bs (2 * k + 1)).
Proof.
  intros Hk Hlen.
  destruct (lookup_lt_is_Some_2 bs (2 * Z.to_nat k)) as [lo Hlo]; [lia|].
  destruct (lookup_lt_is_Some_2 bs (2 * Z.to_nat k + 1)) as [hi Hhi]; [lia|].
  rewrite (TypedArrayFacts.get_lookup x00 bs (2 * k) lo); [|lia|].
  2: { now replace (Z.to_nat (2 * k)) with (2 * Z.to_nat k)%nat by lia. }
  rewrite (TypedArrayFacts.get_lookup x00 bs (2 * k + 1) hi); [|lia|].
  2: { now replace (Z.to_nat (2 * k + 1)) with (2 * Z.to_nat k + 1)%nat
         by lia. }
  apply TypedArrayFacts.get_lookup; [lia|].
  now apply lookup_Int16Array_elems.
Qed.

Lemma get_int16_range (d16 : list Z) (k : Z) :
  Forall (fun s => -32768 <= s <= 32767) d16 ->
  -32768 <= TypedArray.get 0 d16 k <= 32767.
Proof.
  intros Hall. unfold TypedArray.get.
  destruct (k <? 0); [lia|].
  destruct (nth_in_or_default (Z.to_nat k) d16 0) as [Hin | ->]; [|lia].
  rewrite Forall_forall in Hall. apply Hall. now apply list_elem_of_In.
Qed.

Lemma decoded_sample_range (d16 : list Z) (numChannels c i : Z) :
  Forall (fun s => -32768 <= s <= 32767) d16 ->
  (-1 <= decoded_sample d16 numChannels c i
   /\ decoded_sample d16 numChannels c i < 1)%Q.
Proof.
  intros Hall. unfold decoded_sample.
  pose proof (get_int16_range d16 (i * numChannels + c) Hall) as [Hlo Hhi].
  set (s := TypedArray.get 0 d16 (i * numChannels + c)) in *.
  rewrite Zle_Qle in Hlo, Hhi.
  change (inject_Z (-32768)) with (-32768)%Q in Hlo.
  change (inject_Z 32767) with 32767%Q in Hhi.
  set (K := inject_Z s) in *.
  assert (Hy : (K / 32768 * 32768 == K)%Q) by (field; easy).
  set (Y := (K / 32768)%Q) in *. split; lra.
Qed.

End DecodeCases.

(** X4. For a sample rate and a channel count within what every platform
    supports (the count may also be below 1), the outcome of the
    Interpreter is decided by the byte length and the channel count alone:
    a [RangeError] exactly for an odd length, a [NotSupportedError] exactly
    for an even length with no whole frame or a channel count below 1, and
    otherwise the de-interleaved buffer; it has no loop that could fail to
    terminate. *)
Theorem decodePCMToAudioBuffer_outcome (data : list byte)
    (rate numChannels : Z) :
  createBuffer_supported numChannels rate ->
  let len := Z.of_nat (length data) in
  (decodePCMToAudioBuffer data rate numChannels = Throws RangeError
   <-> Z.odd len = true) /\
  (decodePCMToAudioBuffer data rate numChannels = Throws NotSupportedError
   <-> Z.even len = true /\ (numChannels < 1 \/ len < 2 * numChannels)) /\
  (decodePCMToAudioBuffer data rate numChannels
   = Returns (decoded_buffer (TypedArray.Int16Array_elems data) rate
                numChannels)
   <-> Z.even len = true /\ 1 <= numChannels /\ 2 * numChannels <= len) /\
  decodePCMToAudioBuffer data rate numChannels <> OutOfFuel.
Proof.
  intros _. cbn zeta. rewrite DecodeCases.decode_by_cases, <- Z.negb_even.
  destruct (Z.even (Z.of_nat (length data))); cbn [negb].
  { destruct (Z.ltb_spec numChannels 1); cbn [orb].
    { intuition (try discriminate; try lia). }
    destruct (Z.ltb_spec (Z.of_nat (length data)) (2 * numChannels));
      intuition (try discriminate; try lia). }
  intuition (try discriminate; try lia).
Qed.

Lemma decodePCMToAudioBuffer_outcome_witness :
  let data := [x01; x00; xff; xff; x00; x80] in
  let len := Z.of_nat (length data) in
  (decodePCMToAudioBuffer data 24000 2 = Throws RangeError
   <-> Z.odd len = true) /\
  (decodePCMToAudioBuffer data 24000 2 = Throws NotSupportedError
   <-> Z.even len = true /\ (2 < 1 \/ len < 2 * 2)) /\
  (decodePCMToAudioBuffer data 24000 2
   = Returns (decoded_buffer (TypedArray.Int16Array_elems data) 24000 2)
   <-> Z.even len = true /\ 1 <= 2 /\ 2 * 2 <= len) /\
  decodePCMToAudioBuffer data 24000 2 <> OutOfFuel.
Proof.
  apply (decodePCMToAudioBuffer_outcome [x01; x00; xff; xff; x00; x80]
           24000 2).
  unfold createBuffer_supported. lia.
Defined.

(** X5. Whatever the Interpreter returns is a well-formed buffer whose
    samples lie in [-1, 1): a decoded sample never reaches +1 and never
    needs the Encoder's clamp. *)
Theorem decoded_samples_in_range (data : list byte) (rate numChannels : Z)
    (b : AudioBuffer) :
  decodePCMToAudioBuffer data rate numChannels = Returns b ->
  wf_buffer b /\
  Forall (Forall (fun x => (-1 <= x)%Q /\ (x < 1)%Q)) (channelData b).
Proof.
  intros Hb.
  apply DecodeCases.decode_Returns_inv in Hb as (Heven & Hnc & Hlen & ->).
  split; [now apply DecodeFacts.decoded_buffer_wf|].
  unfold decoded_buffer. cbn [channelData].
  apply Forall_fmap, Forall_forall. intros c _.
  apply Forall_fmap, Forall_forall. intros i _. cbn.
  apply DecodeCases.decoded_sample_range, RoundTrip.Int16Array_elems_range.
Qed.

Lemma decoded_samples_in_range_witness :
  wf_buffer (decoded_buffer [1; -1; -32768; 32767] 24000 2) /\
  Forall (Forall (fun x => (-1 <= x)%Q /\ (x < 1)%Q))
    (channelData (decoded_buffer [1; -1; -32768; 32767] 24000 2)).
Proof.
  apply (decoded_samples_in_range
           [x01; x00; xff; xff; x00; x80; xff; x7f] 24000 2).
  reflexivity.
Defined.

(** X6. De-interleaving, down to the bytes: frame [i] of channel [c] of the
    returned buffer is the little-endian 16-bit integer stored at bytes
    [2 k] and [2 k + 1] of the input, with [k = i * numChannels + c],
    divided by 32768. *)
Theorem decode_deinterleaves (data : list byte) (rate numChannels : Z)
    (b : AudioBuffer) (c i : Z) :
  decodePCMToAudioBuffer data rate numChannels = Returns b ->
  0 <= c < numChannels -> 0 <= i < ab_length b ->
  let k := i * numChannels + c in
  2 * k + 1 < Z.of_nat (length data) /\
  TypedArray.get 0%Q (getChannelData b c) i =
  (inject_Z (TypedArray.int16_of_le (TypedArray.get x00 data (2 * k))
               (TypedArray.get x00 data (2 * k + 1))) / 32768)%Q.
Proof.
  intros Hb Hc Hi k.
  apply DecodeCases.decode_Returns_inv in Hb as (Heven & Hnc & Hlen & ->).
  pose proof (Int16Array_elems_length_even data Heven) as Hl.
  cbn [ab_length decoded_buffer] in Hi.
  set (d16 := TypedArray.Int16Array_elems data) in *.
  assert (Hk : 0 <= k < Z.of_nat (length d16)).
  { unfold k. split; [nia|].
    pose proof (Z.mul_div_le (Z.of_nat (length d16)) numChannels
                  ltac:(lia)) as Hdiv.
    assert (numChannels * (i + 1)
            <= numChannels * (Z.of_nat (length d16) / numChannels))
      by (apply Z.mul_le_mono_nonneg_l; lia).
    lia. }
  split; [lia|].
  unfold getChannelData, decoded_buffer. cbn [channelData].
  rewrite DecodeFacts.get_fmap_zseq by lia.
  rewrite DecodeFacts.get_fmap_zseq by lia.
  unfold decoded_sample. fold k. unfold d16.
  rewrite DecodeCases.get_Int16Array_elems by lia. reflexivity.
Qed.

Lemma decode_deinterleaves_witness :
  let data := [x01; x00; xff; xff; x00; x80; xff; x7f] in
  let k := 1 * 2 + 1 in
  2 * k + 1 < Z.of_nat (length data) /\
  TypedArray.get 0%Q
    (getChannelData (decoded_buffer [1; -1; -32768; 32767] 24000 2) 1) 1 =
  (inject_Z (TypedArray.int16_of_le (TypedArray.get x00 data (2 * k))
               (TypedArray.get x00 data (2 * k + 1))) / 32768)%Q.
Proof.
  apply (decode_deinterleaves
           [x01; x00; xff; xff; x00; x80; xff; x7f] 24000 2
           (decoded_buffer [1; -1; -32768; 32767] 24000 2) 1 1).
  - reflexivity.
  - lia.
  - split; [lia | reflexivity].
Defined.

(** ** The Encoder followed by the Interpreter *)

Module EncodeDecode.
Import TypedArray.

Lemma wrap_quantize (x : Q) :
  Num.wrap_signed 16 (Wav.quantize x) = Wav.quantize x.
Proof.
  apply NumFacts.wrap_signed_small; [lia|].
  rewrite QuantizeFacts.quantize_truncated.
  pose proof (QuantizeFacts.truncated_range x).
  change (2 ^ (16 - 1)) with 32768. lia.
Qed.

Lemma index_mod (i nc c : Z) : 0 <= c < nc -> (i * nc + c) mod nc = c.
Proof.
  intros Hc. rewrite Z.add_comm, Z.mod_add by lia. apply Z.mod_small. lia.
Qed.

Lemma index_div (i nc c : Z) : 0 <= c < nc -> (i * nc + c) / nc = i.
Proof.
  intros Hc. rewrite Z.add_comm, Z.div_add by lia.
  rewrite Z.div_small by lia. lia.
Qed.

(** The sample at position [k] of the interleaved stream. *)
Lemma data_bytes_interleaved (chans : list (list Q)) (F : Z) :
  0 <= F -> (1 <= length chans)%nat ->
  let nc := Z.of_nat (length chans) in
  Int16Array_elems (WavLayout.data_bytes chans F)
  = (fun k => Wav.quantize (get 0%Q (get [] chans (k mod nc)) (k / nc)))
    <$> zseq (F * nc).
Proof.
  intros HF Hnc nc.
  assert (Hnc1 : 1 <= nc) by (unfold nc; lia).
  set (h := fun k => get 0%Q (get [] chans (k mod nc)) (k / nc)).
  unfold WavLayout.data_bytes.
  assert (Hframe : forall k i, zseq F !! k = Some i ->
      WavLayout.frame_bytes chans i
      = concat (WavLayout.sample_bytes
                <$> ((fun c => h (i * nc + c)) <$> zseq nc))).
  { intros k i Hi. apply DecodeFacts.lookup_zseq_inv in Hi as [_ Hi].
    unfold WavLayout.frame_bytes. f_equal.
    rewrite <- list_fmap_compose.
    rewrite <- (RoundTrip.fmap_get_zseq []
                  (fun c => WavLayout.sample_bytes (get 0%Q c i)) chans).
    fold nc. apply list_fmap_ext. intros j c Hc. cbn.
    apply DecodeFacts.lookup_zseq_inv in Hc as [_ Hc].
    unfold h. now rewrite (index_mod i nc c), (index_div i nc c) by lia. }
  rewrite (list_fmap_ext _ _ _ Hframe).
  rewrite (RoundTrip.concat_fmap_concat WavLayout.sample_bytes
      (fun i => (fun c => h (i * nc + c)) <$> zseq nc)).
  rewrite RoundTrip.Int16Array_elems_sample_bytes.
  rewrite (RoundTrip.interleave_indices h) by lia.
  rewrite <- list_fmap_compose. apply list_fmap_ext. intros _ k _. cbn.
  apply wrap_quantize.
Qed.

End EncodeDecode.

Lemma get_app_r {A} (d : A) (l1 l2 : list A) (j : Z) :
  0 <= j ->
  TypedArray.get d (l1 ++ l2) (Z.of_nat (length l1) + j)
  = TypedArray.get d l2 j.
Proof.
  intros Hj. unfold TypedArray.get.
  destruct (Z.ltb_spec (Z.of_nat (length l1) + j) 0); [lia|].
  destruct (Z.ltb_spec j 0); [lia|].
  rewrite !nth_lookup, lookup_app_r by lia.
  do 2 f_equal. lia.
Qed.

(** X7. Interleaving, down to the bytes: in the file the Encoder builds for
    a well-formed buffer, the sample of frame [i] and channel [c] is the
    little-endian 16-bit integer at bytes [44 + 2 k] and [44 + 2 k + 1],
    [k = i * channels + c], and it is the quantised sample. *)
Theorem wav_sample_position (fuel : nat) (b : AudioBuffer) (c i : Z) :
  wf_buffer b ->
  (Z.to_nat (ab_length b) < fuel)%nat ->
  0 <= c < numberOfChannels b -> 0 <= i < ab_length b ->
  let k := i * numberOfChannels b + c in
  exists wav,
    Wav.audioBufferToWav fuel b = Returns wav /\
    44 + 2 * k + 1 < Z.of_nat (length wav) /\
    TypedArray.int16_of_le (TypedArray.get x00 wav (44 + 2 * k))
      (TypedArray.get x00 wav (44 + 2 * k + 1))
    = Wav.quantize (TypedArray.get 0%Q (getChannelData b c) i).
Proof.
  intros (Hlen & Hch & _) Hfuel Hc Hi k.
  eexists. split; [now apply WavFacts.audioBufferToWav_bytes|].
  set (header := WavLayout.header_bytes _ _ _).
  set (data := WavLayout.data_bytes (channelData b) (ab_length b)).
  assert (Hh : Z.of_nat (length header) = 44).
  { unfold header. now rewrite length_header_bytes. }
  assert (Hd : Z.of_nat (length data)
               = 2 * (ab_length b * numberOfChannels b)).
  { unfold data, numberOfChannels. rewrite length_data_bytes. nia. }
  assert (Hk : 0 <= k < ab_length b * numberOfChannels b).
  { unfold k. nia. }
  split; [rewrite length_app; lia|].
  replace (44 + 2 * k + 1) with (Z.of_nat (length header) + (2 * k + 1))
    by lia.
  replace (44 + 2 * k) with (Z.of_nat (length header) + 2 * k) by lia.
  rewrite !get_app_r by lia.
  rewrite <- DecodeCases.get_Int16Array_elems by lia.
  unfold data. unfold numberOfChannels in *.
  rewrite EncodeDecode.data_bytes_interleaved by lia.
  rewrite DecodeFacts.get_fmap_zseq by lia.
  unfold k. rewrite EncodeDecode.index_mod, EncodeDecode.index_div by lia.
  reflexivity.
Qed.

Lemma wav_sample_position_witness :
  let k := 2 * numberOfChannels (ramp_mono 4) + 0 in
  exists wav,
    Wav.audioBufferToWav 5 (ramp_mono 4) = Returns wav /\
    44 + 2 * k + 1 < Z.of_nat (length wav) /\
    TypedArray.int16_of_le (TypedArray.get x00 wav (44 + 2 * k))
      (TypedArray.get x00 wav (44 + 2 * k + 1))
    = Wav.quantize (TypedArray.get 0%Q (getChannelData (ramp_mono 4) 0) 2).
Proof.
  apply (wav_sample_position 5 (ramp_mono 4) 0 2).
  - repeat split; [simpl; lia | unfold numberOfChannels; simpl; lia |].
    repeat constructor.
  - simpl. lia.
  - unfold numberOfChannels. simpl. lia.
  - simpl. lia.
Defined.

(** X8. The payload of an encoded file decodes again: for a well-formed
    buffer with at least one frame, the Interpreter applied to the bytes
    after the 44-byte header, with the buffer's rate and channel count,
    returns a buffer of the same shape in which every sample [x] has
    become [quantize x / 32768]. *)
Theorem wav_payload_decodes (fuel : nat) (b : AudioBuffer) :
  wf_buffer b -> 1 <= ab_length b ->
  (Z.to_nat (ab_length b) < fuel)%nat ->
  exists wav,
    Wav.audioBufferToWav fuel b = Returns wav /\
    decodePCMToAudioBuffer (drop 44 wav) (sampleRate b) (numberOfChannels b)
    = Returns {| ab_length := ab_length b; sampleRate := sampleRate b;
                 channelData :=
                   (fun ch : list Q =>
                      (fun x => (inject_Z (Wav.quantize x) / 32768)%Q) <$> ch)
                   <$> channelData b |}.
Proof.
  intros (Hlen & Hch & Hall) Hpos Hfuel.
  eexists. split; [now apply WavFacts.audioBufferToWav_bytes|].
  rewrite drop_app_length' by (symmetry; apply length_header_bytes).
  set (chans := channelData b) in *.
  set (F := ab_length b) in *.
  unfold numberOfChannels in *. fold chans in Hch |- *.
  set (nc := Z.of_nat (length chans)) in *.
  assert (Hbytes : Z.of_nat (length (WavLayout.data_bytes chans F))
                   = 2 * (F * nc)).
  { rewrite length_data_bytes. unfold nc. nia. }
  rewrite DecodeFacts.decode_returns; [|  |lia|nia].
  2: { rewrite Hbytes. now rewrite Z.even_mul. }
  f_equal. unfold decoded_buffer.
  rewrite EncodeDecode.data_bytes_interleaved by lia. fold nc.
  rewrite length_fmap, length_zseq, Z2Nat.id by nia.
  rewrite Z.div_mul by lia. f_equal.
  rewrite <- (RoundTrip.fmap_get_zseq []
                (fun ch : list Q =>
                   (fun x => (inject_Z (Wav.quantize x) / 32768)%Q) <$> ch)
                chans).
  fold nc. apply list_fmap_ext. intros j c Hc.
  apply DecodeFacts.lookup_zseq_inv in Hc as [_ Hc].
  assert (Hcl : Z.of_nat (length (TypedArray.get [] chans c)) = F).
  { destruct (lookup_lt_is_Some_2 chans (Z.to_nat c)) as [ch Hch']; [lia|].
    rewrite (TypedArrayFacts.get_lookup [] chans c ch) by (lia || easy).
    now apply (Forall_lookup_1 _ _ _ _ Hall Hch'). }
  rewrite <- (RoundTrip.fmap_get_zseq 0%Q
                (fun x => (inject_Z (Wav.quantize x) / 32768)%Q)
                (TypedArray.get [] chans c)).
  rewrite Hcl. apply list_fmap_ext. intros j' i Hi.
  apply DecodeFacts.lookup_zseq_inv in Hi as [_ Hi].
  unfold decoded_sample.
  rewrite DecodeFacts.get_fmap_zseq by nia.
  now rewrite (EncodeDecode.index_mod i nc c),
    (EncodeDecode.index_div i nc c) by lia.
Qed.

Lemma wav_payload_decodes_witness :
  exists wav,
    Wav.audioBufferToWav 5 (ramp_mono 4) = Returns wav /\
    decodePCMToAudioBuffer (drop 44 wav) (sampleRate (ramp_mono 4))
      (numberOfChannels (ramp_mono 4))
    = Returns {| ab_length := ab_length (ramp_mono 4);
                 sampleRate := sampleRate (ramp_mono 4);
                 channelData :=
                   (fun ch : list Q =>
                      (fun x => (inject_Z (Wav.quantize x) / 32768)%Q) <$> ch)
                   <$> channelData (ramp_mono 4) |}.
Proof.
  apply (wav_payload_decodes 5 (ramp_mono 4)).
  - repeat split; [simpl; lia | unfold numberOfChannels; simpl; lia |].
    repeat constructor.
  - simpl. lia.
  - simpl. lia.
Defined.

(** X9. Generation loss: passing a 16-bit sample [k] times through the
    Interpreter's division and the Encoder's quantisation lowers a positive
    sample by one unit each time until it reaches 0, and leaves zero and
    negative samples where they are. *)
Theorem requantize_iterated (k : nat) (s : Z) :
  -32768 <= s <= 32767 ->
  Nat.iter k (fun t => Wav.quantize (inject_Z t / 32768)) s
  = if 0 <? s then Z.max 0 (s - Z.of_nat k) else s.
Proof.
  intros Hs. induction k as [|k IH].
  - cbn. destruct (Z.ltb_spec 0 s); lia.
  - rewrite Nat.iter_succ, IH. clear IH.
    rewrite quantize_decoded by (destruct (Z.ltb_spec 0 s); lia).
    unfold requantized.
    destruct (Z.ltb_spec 0 s).
    + destruct (Z.ltb_spec 0 (Z.max 0 (s - Z.of_nat k))); lia.
    + destruct (Z.ltb_spec 0 s); lia.
Qed.

Lemma requantize_iterated_witness :
  Nat.iter 3 (fun t => Wav.quantize (inject_Z t / 32768)) 2
  = if 0 <? 2 then Z.max 0 (2 - Z.of_nat 3) else 2.
Proof. apply (requantize_iterated 3 2). lia. Defined.

(** ** The audio path of the application *)

Module Base64Facts.

Lemma decodeBase64_fmap (atob : js_string -> option js_string)
    (base64 : js_string) :
  decodeBase64 atob base64
  = (fun s : list Z => Num.byte_of_Z <$> s) <$> atob base64.
Proof.
  unfold decodeBase64. destruct (atob base64) as [s|]; [|reflexivity].
  cbn. f_equal. unfold new_Uint8Array. rewrite Nat2Z.id.
  rewrite (DecodeFacts.for_loop_fill x00 x00
             (fun j _ => Num.byte_of_Z (charCodeAt s j))) by lia.
  apply (RoundTrip.fmap_get_zseq 0 Num.byte_of_Z).
Qed.

End Base64Facts.

(** X10. [decodeBase64] copies the binary string unchanged: when [atob]
    succeeds with code units below 256, as a binary string has them, the
    returned bytes are these code units, one byte each, in order. *)
Theorem decodeBase64_lossless (atob : js_string -> option js_string)
    (base64 binaryString : js_string) :
  atob base64 = Some binaryString ->
  Forall (fun c => 0 <= c < 256) binaryString ->
  exists bytes,
    decodeBase64 atob base64 = Some bytes /\
    Num.Z_of_byte <$> bytes = binaryString.
Proof.
  intros Hs Hall. rewrite Base64Facts.decodeBase64_fmap, Hs. cbn.
  eexists. split; [reflexivity|].
  rewrite <- list_fmap_compose.
  rewrite <- (list_fmap_id binaryString) at 2.
  apply list_fmap_ext. intros i c Hc. cbn.
  rewrite NumFacts.Z_of_byte_of_Z. apply Z.mod_small.
  now apply (Forall_lookup_1 _ _ _ _ Hall Hc).
Qed.

Lemma decodeBase64_lossless_witness :
  exists bytes,
    decodeBase64 sample_atob (lit "AQD//w==") = Some bytes /\
    Num.Z_of_byte <$> bytes = [1; 0; 255; 255].
Proof.
  apply (decodeBase64_lossless sample_atob (lit "AQD//w==") [1; 0; 255; 255]).
  - vm_compute. reflexivity.
  - repeat constructor; lia.
Defined.

Module GenerateFacts.


End GenerateFacts.



(** ** Prompts of the speech service *)

Module PromptFacts.







End PromptFacts.





(** ** Voice selection and tags *)

(** X14. After the effect has run, the selected voice is one the selector
    offers: it belongs to the filtered list, has the gender of the filter,
    is the previous selection whenever that one already matched, and
    otherwise the first voice of the filtered list. *)
Theorem selected_voice_matches_filter (genderFilter : GenderFilter)
    (selectedVoice : Voice) :
  let v := ensure_valid_voice genderFilter selectedVoice in
  In v (filteredVoices genderFilter) /\
  match genderFilter with
  | All => v = selectedVoice
  | Only g =>
      VOICE_DETAILS v = g /\
      (VOICE_DETAILS selectedVoice = g -> v = selectedVoice) /\
      (VOICE_DETAILS selectedVoice <> g ->
       v = hd selectedVoice (filteredVoices (Only g)))
  end.
Proof.
  destruct genderFilter as [|[|]], selectedVoice; vm_compute;
    intuition congruence.
Qed.

(** X15. Two tags inserted one after the other: the text typed before is
    kept, separated from the first tag by one space unless it was empty,
    and the two tags end up two spaces apart, because every insertion
    appends a space and the next one adds its own separator. *)
Theorem handleInsertTag_twice (prev tag1 tag2 : js_string) :
  handleInsertTag tag2 (handleInsertTag tag1 prev)
  = prev ++ (match prev with [] => [] | _ => lit " " end)
    ++ tag1 ++ lit "  " ++ tag2 ++ lit " ".
Proof.
  unfold handleInsertTag at 1.
  destruct (Z.eqb_spec (Z.of_nat (length (handleInsertTag tag1 prev))) 0)
    as [E|E].
  { unfold handleInsertTag in E. rewrite !length_app in E. cbn in E. lia. }
  unfold handleInsertTag. cbn [negb].
  destruct prev as [|c prev]; cbn [length].
  - cbn [Z.of_nat Z.eqb negb]. rewrite <- !app_assoc. reflexivity.
  - destruct (Z.eqb_spec (Z.of_nat (S (length prev))) 0); [lia|].
    cbn [negb]. rewrite <- !app_assoc. reflexivity.
Qed.

(** ** The engine on every ratio *)

Module StretchFacts.



End StretchFacts.

(** ** Ratios that are not positive

    In the code's arithmetic: the sign of a quotient, and the doubles that
    frame counts are. *)

Module SignFacts.
Import SpecFloat FloatEngine.

Lemma shr_1_nonneg (r : shr_record) : 0 <= shr_m r -> 0 <= shr_m (shr_1 r).
Proof.
  destruct r as [m rr s]. destruct m as [|[p|p|]|p]; cbn; lia.
Qed.

Lemma iter_pos_nonneg (p : positive) :
  forall r, 0 <= shr_m r -> 0 <= shr_m (iter_pos shr_1 p r).
Proof.
  induction p as [p IH|p IH|]; intros r Hr; cbn [iter_pos].
  - apply IH, IH, shr_1_nonneg, Hr.
  - apply IH, IH, Hr.
  - apply shr_1_nonneg, Hr.
Qed.

Lemma shr_fexp_nonneg (prec emax m e : Z) (l : location) :
  0 <= m -> 0 <= shr_m (shr_fexp prec emax m e l).1.
Proof.
  intros Hm. unfold shr_fexp, shr.
  assert (H0 : 0 <= shr_m (shr_record_of_loc m l))
    by (destruct l as [|[| |]]; exact Hm).
  destruct (fexp prec emax (Zdigits2 m + e) - e); cbn [fst]; try exact H0.
  now apply iter_pos_nonneg.
Qed.

Lemma round_nearest_even_nonneg (m : Z) (l : location) :
  0 <= m -> 0 <= round_nearest_even m l.
Proof.
  intros Hm. destruct l as [|[| |]]; cbn; try lia.
  destruct (Z.even m); lia.
Qed.

(** The sign a number carries; [NaN] carries none. *)
Definition signed (s : bool) (f : spec_float) : Prop :=
  match f with
  | S754_zero s' | S754_infinity s' | S754_finite s' _ _ => s' = s
  | S754_nan => False
  end.

Lemma binary_round_aux_signed (prec emax : Z) (s : bool) (m e : Z)
    (l : location) :
  0 <= m -> signed s (binary_round_aux prec emax s m e l).
Proof.
  intros Hm. unfold binary_round_aux.
  pose proof (shr_fexp_nonneg prec emax m e l Hm) as H1.
  destruct (shr_fexp prec emax m e l) as [mrs' e']. cbn [fst] in H1.
  pose proof (shr_fexp_nonneg prec emax
      (round_nearest_even (shr_m mrs') (loc_of_shr_record mrs')) e' loc_Exact
      (round_nearest_even_nonneg _ _ H1)) as H2.
  destruct (shr_fexp prec emax _ e' loc_Exact) as [mrs'' e'']. cbn [fst] in H2.
  destruct (shr_m mrs'') as [|p|p]; [reflexivity | | lia].
  now destruct (e'' <=? emax - prec).
Qed.

(** The quotient of a number that is not negative by a negative finite
    number is negative or a negative zero. *)
Lemma SFdiv_signed (prec emax : Z) (x : spec_float) (my : positive) (ey : Z) :
  signed false x ->
  signed true (SFdiv prec emax x (S754_finite true my ey)).
Proof.
  destruct x as [sx|sx| |sx mx ex]; cbn [signed]; try easy;
    intros ->; try reflexivity.
  cbn [SFdiv]. unfold SFdiv_core_binary.
  set (m' := match ex - ey - _ with
             | 0 => Z.pos mx
             | Z.pos _ => Z.shiftl (Z.pos mx) _
             | Z.neg _ => 0
             end).
  assert (Hm' : 0 <= m').
  { unfold m'. destruct (ex - ey - _); try lia. apply Z.shiftl_nonneg. lia. }
  pose proof (Z_div_mod m' (Z.pos my) ltac:(lia)) as Hdiv.
  destruct (Z.div_eucl m' (Z.pos my)) as [q r].
  apply binary_round_aux_signed. nia.
Qed.

Lemma of_Z_signed (n : Z) : 0 <= n -> signed false (FloatOps.Prim2SF (Ieee.of_Z n)).
Proof.
  intros Hn. unfold Ieee.of_Z. destruct (Z.ltb_spec n 0); [lia|].
  rewrite FloatAxioms.of_uint63_spec.
  destruct (Uint63.to_Z (Uint63.of_Z n)) as [|p|p] eqn:E; cbn [binary_normalize].
  - reflexivity.
  - unfold binary_round.
    destruct (shl_align p 0 _) as [mz ez].
    now apply binary_round_aux_signed.
  - pose proof (Uint63.to_Z_bounded (Uint63.of_Z n)). lia.
Qed.

Lemma negative_finite_cases (r : PrimFloat.float) :
  PrimFloat.ltb r PrimFloat.zero = true -> is_finite r = true ->
  exists m e, FloatOps.Prim2SF r = S754_finite true m e.
Proof.
  unfold is_finite. rewrite FloatAxioms.ltb_spec.
  change (FloatOps.Prim2SF PrimFloat.zero) with (S754_zero false).
  destruct (FloatOps.Prim2SF r) as [s|s| |[|] m e]; try discriminate.
  intros _ _. now exists m, e.
Qed.

Lemma Math_max_signed (f : PrimFloat.float) :
  signed true (FloatOps.Prim2SF f) -> Math_max 1 (Math_floor f) = Int 1.
Proof.
  unfold Math_floor.
  destruct (FloatOps.Prim2SF f) as [s|s| |s m e]; cbn [signed]; try easy;
    intros ->; try reflexivity.
  cbn [cond_Zopp Math_max]. f_equal.
  destruct (Z.leb_spec 0 e).
  - pose proof (Z.pow_pos_nonneg 2 e ltac:(lia) ltac:(lia)). nia.
  - assert (Hd : 0 < 2 ^ (- e)) by (apply Z.pow_pos_nonneg; lia).
    assert (- Z.pos m / 2 ^ (- e) < 0)
      by (apply Z.div_lt_upper_bound; lia).
    lia.
Qed.

(** Every finite negative ratio gives the output length 1. *)
Lemma float_newLength_of_negative (n : Z) (r : PrimFloat.float) :
  0 <= n ->
  PrimFloat.ltb r PrimFloat.zero = true -> is_finite r = true ->
  newLength_of n r = Int 1.
Proof.
  intros Hn Hneg Hfin. unfold newLength_of. apply Math_max_signed.
  rewrite FloatAxioms.div_spec.
  destruct (negative_finite_cases r Hneg Hfin) as (m & e & ->).
  apply SFdiv_signed, of_Z_signed, Hn.
Qed.

End SignFacts.

Module IntegerFacts.
Import SpecFloat FloatEngine.

Lemma digits2_pos_bound (p : positive) :
  2 ^ (Z.pos (digits2_pos p) - 1) <= Z.pos p < 2 ^ Z.pos (digits2_pos p).
Proof.
  induction p as [p IH|p IH|]; cbn [digits2_pos]; [| |cbn; lia].
  - rewrite Pos2Z.inj_succ.
    replace (Z.succ (Z.pos (digits2_pos p)) - 1)
      with (Z.succ (Z.pos (digits2_pos p) - 1)) by lia.
    rewrite !Z.pow_succ_r by lia. lia.
  - rewrite Pos2Z.inj_succ.
    replace (Z.succ (Z.pos (digits2_pos p)) - 1)
      with (Z.succ (Z.pos (digits2_pos p) - 1)) by lia.
    rewrite !Z.pow_succ_r by lia. lia.
Qed.

Lemma digits2_pos_iter_xO (p k : positive) :
  digits2_pos (Pos.iter xO p k) = (digits2_pos p + k)%positive.
Proof.
  induction k as [|k IH] using Pos.peano_ind.
  - cbn. lia.
  - rewrite Pos.iter_succ. cbn [digits2_pos]. rewrite IH. lia.
Qed.

(** A mantissa that already has its canonical exponent is kept as it is. *)
Lemma binary_round_aux_canonical (s : bool) (m : positive) (e : Z) :
  fexp FloatOps.prec FloatOps.emax (Z.pos (digits2_pos m) + e) = e ->
  e <= FloatOps.emax - FloatOps.prec ->
  binary_round_aux FloatOps.prec FloatOps.emax s (Z.pos m) e loc_Exact
  = S754_finite s m e.
Proof.
  intros Hcan Hle. unfold binary_round_aux, shr_fexp. cbn [Zdigits2].
  rewrite Hcan, Z.sub_diag.
  cbn [shr shr_record_of_loc shr_m loc_of_shr_record round_nearest_even
       Zdigits2].
  rewrite Hcan, Z.sub_diag. cbn [shr shr_record_of_loc shr_m].
  destruct (Z.leb_spec e (FloatOps.emax - FloatOps.prec)); [reflexivity|lia].
Qed.

(** A frame count is a finite positive double. *)
Lemma of_Z_finite (n : Z) :
  1 <= n < 2 ^ 53 ->
  exists m e, FloatOps.Prim2SF (Ieee.of_Z n) = S754_finite false m e.
Proof.
  intros Hn. unfold Ieee.of_Z. destruct (Z.ltb_spec n 0); [lia|].
  rewrite FloatAxioms.of_uint63_spec, Uint63.of_Z_spec.
  rewrite Z.mod_small by (change Uint63.wB with (2 ^ 63); lia).
  destruct n as [|p|p]; try lia. cbn [binary_normalize].
  unfold binary_round, shl_align.
  pose proof (digits2_pos_bound p) as Hd.
  set (d := digits2_pos p) in *.
  assert (Hd53 : Z.pos d <= 53).
  { destruct (Z.le_gt_cases (Z.pos d) 53) as [Hle|Hgt]; [exact Hle|].
    assert (2 ^ 53 <= 2 ^ (Z.pos d - 1))
      by (apply Z.pow_le_mono_r; lia).
    lia. }
  assert (Hf : fexp FloatOps.prec FloatOps.emax (Z.pos d + 0) = Z.pos d - 53).
  { unfold fexp, emin, FloatOps.prec, FloatOps.emax. lia. }
  rewrite Hf.
  destruct (Z.pos d - 53 - 0) as [|k|k] eqn:Hk.
  - exists p, 0. apply binary_round_aux_canonical.
    + fold d. rewrite Hf. lia.
    + unfold FloatOps.prec, FloatOps.emax. lia.
  - lia.
  - exists (Pos.iter xO p k), (Z.pos d - 53). apply binary_round_aux_canonical.
    + rewrite digits2_pos_iter_xO. fold d.
      unfold fexp, emin, FloatOps.prec, FloatOps.emax. lia.
    + unfold FloatOps.prec, FloatOps.emax. lia.
Qed.

(** [n / -0] is minus infinity and [n / +0] plus infinity for a frame count
    [n >= 1]. *)
Lemma newLength_of_neg_zero (n : Z) :
  1 <= n < 2 ^ 53 -> newLength_of n PrimFloat.neg_zero = Int 1.
Proof.
  intros Hn. unfold newLength_of, Math_floor. rewrite FloatAxioms.div_spec.
  destruct (of_Z_finite n Hn) as (m & e & ->). reflexivity.
Qed.

Lemma newLength_of_zero (n : Z) :
  1 <= n < 2 ^ 53 -> newLength_of n PrimFloat.zero = Infinity false.
Proof.
  intros Hn. unfold newLength_of, Math_floor. rewrite FloatAxioms.div_spec.
  destruct (of_Z_finite n Hn) as (m & e & ->). reflexivity.
Qed.

End IntegerFacts.

Module EdgeFacts.
Import FloatEngine FloatEngineFacts.

Lemma timeStretch_one_frame `{Platform} (fuel : nat) (b : AudioBuffer)
    (r : PrimFloat.float) :
  1 <= numberOfChannels b -> (1 <= fuel)%nat ->
  near_unity r = false ->
  newLength_of (ab_length b) r = Int 1 ->
  timeStretch fuel b r =
  Done {| ab_length := 1; sampleRate := sampleRate b;
          channelData :=
            replicate (Z.to_nat (numberOfChannels b)) [PrimFloat.zero] |}.
Proof.
  intros Hch Hfuel Hslow Hn.
  rewrite (FloatShort.float_short_output fuel b r 1); try easy.
Qed.

Lemma timeStretch_rejected `{Platform} (fuel : nat) (b : AudioBuffer)
    (r : PrimFloat.float) :
  near_unity r = false ->
  newLength_of (ab_length b) r = NaN \/
  newLength_of (ab_length b) r = Infinity false ->
  timeStretch fuel b r = Raised.
Proof.
  intros Hslow Hn. unfold timeStretch. rewrite Hslow.
  now destruct Hn as [-> | ->].
Qed.

End EdgeFacts.

(** X16. Ratios that are not positive. Every finite negative ratio is
    accepted: the quotient [oldLength / r] is negative or a negative zero,
    the output length is clamped to 1 and the result is one silent frame
    per channel. The ratio [-0] on a buffer with at least one frame gives
    minus infinity and again one silent frame; the ratio [+0] gives plus
    infinity, and on an empty buffer either zero gives [NaN]: lengths that
    the [AudioBuffer] constructor refuses with an exception. *)
Theorem timeStretch_nonpositive_ratio `{FloatEngine.Platform} (fuel : nat)
    (b : FloatEngine.AudioBuffer) :
  FloatEngine.wf_buffer b -> (1 <= fuel)%nat ->
  let silent :=
    FloatEngine.Done
      {| FloatEngine.ab_length := 1;
         FloatEngine.sampleRate := FloatEngine.sampleRate b;
         FloatEngine.channelData :=
           replicate (Z.to_nat (FloatEngine.numberOfChannels b))
             [PrimFloat.zero] |} in
  (forall r,
     PrimFloat.ltb r PrimFloat.zero = true ->
     FloatEngine.is_finite r = true ->
     FloatEngine.near_unity r = false ->
     FloatEngine.timeStretch fuel b r = silent) /\
  (1 <= FloatEngine.ab_length b ->
   FloatEngine.timeStretch fuel b PrimFloat.neg_zero = silent /\
   FloatEngine.timeStretch fuel b PrimFloat.zero = FloatEngine.Raised) /\
  (FloatEngine.ab_length b = 0 ->
   FloatEngine.timeStretch fuel b PrimFloat.neg_zero = FloatEngine.Raised /\
   FloatEngine.timeStretch fuel b PrimFloat.zero = FloatEngine.Raised).
Proof.
  intros (Hlen & Hch & _) Hfuel silent. split; [|split].
  - intros r Hneg Hfin Hslow.
    apply EdgeFacts.timeStretch_one_frame; try easy.
    apply SignFacts.float_newLength_of_negative; [lia | easy | easy].
  - intros Hn.
    assert (Hr : 1 <= FloatEngine.ab_length b < 2 ^ 53) by lia.
    split.
    + apply EdgeFacts.timeStretch_one_frame; try easy.
      now apply IntegerFacts.newLength_of_neg_zero.
    + apply EdgeFacts.timeStretch_rejected; [reflexivity|]. right.
      now apply IntegerFacts.newLength_of_zero.
  - intros Hz.
    split; (apply EdgeFacts.timeStretch_rejected; [reflexivity|]);
      left; rewrite Hz; reflexivity.
Qed.

Lemma timeStretch_nonpositive_ratio_witness :
  let b := FloatEngine.ramp_mono 4096 in
  let silent :=
    FloatEngine.Done
      {| FloatEngine.ab_length := 1; FloatEngine.sampleRate := 24000;
         FloatEngine.channelData := [[PrimFloat.zero]] |} in
  @FloatEngine.timeStretch FloatEngine.sample_platform 1 b (Ieee.of_Z (-2))
  = silent /\
  @FloatEngine.timeStretch FloatEngine.sample_platform 1 b PrimFloat.neg_zero
  = silent /\
  @FloatEngine.timeStretch FloatEngine.sample_platform 1 b PrimFloat.zero
  = FloatEngine.Raised.
Proof.
  destruct (@timeStretch_nonpositive_ratio FloatEngine.sample_platform 1
      (FloatEngine.ramp_mono 4096)) as (Hneg & Hzero & _).
  - split; [simpl; lia | split; [vm_compute; discriminate|]].
    repeat constructor.
  - lia.
  - split; [|apply Hzero; simpl; lia].
    apply Hneg; reflexivity.
Defined.

(** ** One channel at a time *)



(** ** Where the windows fall *)

Module PositionFacts.






End PositionFacts.





(** ** The Orchestrator at its edges *)




